(** * The bounded augmentation pipeline of [packages/ml-core]

    A shallow embedding of augmentation.js ([rotateAugmentation],
    [shiftAugmentation], [zoomAugmentation], [shearAugmentation] and
    [augmentImage]) and of the TensorFlow.js operations it calls, followed
    by the properties of the pipeline.

    Conventions of the embedding:
    - a JavaScript [number] is an exact rational ([Q]); pixel offsets and
      sizes, which the code obtains through [Math.floor] and [Math.round],
      are integers ([Z]), and list lengths are [nat]. The program rounds
      every product to a double and stores intensities as 32-bit floats:
      a property that depends on which way a product is rounded assumes
      that the double and the exact product round alike ([rounds_alike],
      [floors_alike]), and equations and bounds on intensities and
      probabilities are the ones of exact arithmetic;
    - a [tf.Tensor3D] of shape [[H, W, 1]] is the list of its [H] rows, each
      a list of [W] intensities;
    - [Math.random] and [tf.randomNormal] read an explicit entropy source
      that is threaded through every call, so that "for every outcome of the
      random sampling" is a quantification over entropy sources;
      [tf.randomNormal], which is called without a seed, takes its seed from
      one call of [Math.random];
    - [throw] is the [Throw] outcome of a computation; [tf.tidy], [dispose]
      and the reference counting behind [clone] only manage memory and do
      not appear.

    The same conventions carry the prediction procedure of the API
    ([predict]) with its input schema ([PredictInputSchema]) and its mock
    inference ([inferDigit]), the mock of the digit canvas
    ([simulatePrediction]), and the session identifier and the input
    validation ([validateInput]) of the web client, which are embedded after
    the pipeline. *)

From Stdlib Require Import String Ascii.
From Stdlib Require HexadecimalString.
From Stdlib Require Import QArith Qabs Qround ZArith List Bool Lia Lqa.
Import ListNotations.

Open Scope Q_scope.

(** ** JavaScript numbers *)

Definition Qlt_bool (x y : Q) : bool := negb (Qle_bool y x).

Declare Scope js_scope.
Delimit Scope js_scope with js.
Notation "x <? y" := (Qlt_bool x y) (at level 70, no associativity) : js_scope.
Notation "x >? y" := (Qlt_bool y x) (at level 70, no associativity) : js_scope.

(** ** Tensors of shape [[H, W, 1]] *)

Definition Tensor3D : Type := list (list Q).

(** [t] is a proper tensor of shape [[h, w, 1]]. *)
Definition has_shape (h w : nat) (t : Tensor3D) : Prop :=
  length t = h /\ Forall (fun row => length row = w) t.

(** Every intensity of [t] lies in [[0, 1]]. *)
Definition in_unit_range (t : Tensor3D) : Prop :=
  Forall (Forall (fun x => 0 <= x <= 1)) t.

(** The pixel at row [i], column [j]; positions outside the tensor read as
    the background value. *)
Definition pixel (t : Tensor3D) (i j : nat) : Q := nth j (nth i t []) 0.

Definition tabulate (h w : nat) (f : nat -> nat -> Q) : Tensor3D :=
  map (fun i => map (fun j => f i j) (seq 0 w)) (seq 0 h).

Fixpoint map2 {A B C : Type} (f : A -> B -> C) (xs : list A) (ys : list B)
  : list C :=
  match xs, ys with
  | x :: xs', y :: ys' => f x y :: map2 f xs' ys'
  | _, _ => []
  end.

(** ** Outcomes, messages and the entropy source *)

(** A template literal: literal chunks and interpolated numbers. *)
Inductive part : Type :=
| Lit (s : string)
| Num (q : Q).

Definition message : Type := list part.

Inductive exn : Type :=
| Error (msg : message)        (* [throw new Error(`...`)] of augmentation.js *)
| TfAssertion (op : string).   (* a shape assertion failing inside TensorFlow.js *)

Inductive result (A : Type) : Type :=
| Ok (a : A)
| Throw (e : exn).
Arguments Ok {A} a.
Arguments Throw {A} e.

(** The ambient random generators: the successive values of [Math.random()]
    and the successive standard normal samples behind [tf.randomNormal],
    with the number of samples consumed so far. *)
Record Entropy : Type := {
  uniform : nat -> Q;
  gauss : nat -> Q;
  upos : nat;
  gpos : nat
}.

(** The source after one uniform draw, and after [n] normal samples. *)
Definition use_uniform (e : Entropy) : Entropy :=
  {| uniform := uniform e; gauss := gauss e;
     upos := S (upos e); gpos := gpos e |}.

Definition use_gauss (n : nat) (e : Entropy) : Entropy :=
  {| uniform := uniform e; gauss := gauss e;
     upos := upos e; gpos := gpos e + n |}.

(** [Math.random()] returns a number in [[0, 1)]. *)
Definition valid_entropy (e : Entropy) : Prop :=
  forall n, 0 <= uniform e n /\ uniform e n < 1.

(** Computations that read the entropy source and may throw. *)
Definition M (A : Type) : Type := Entropy -> result A * Entropy.

Definition ret {A : Type} (a : A) : M A := fun e => (Ok a, e).

Definition throw {A : Type} (x : exn) : M A := fun e => (Throw x, e).

Definition bind {A B : Type} (m : M A) (f : A -> M B) : M B :=
  fun e =>
    match m e with
    | (Ok a, e') => f a e'
    | (Throw x, e') => (Throw x, e')
    end.

Notation "x <- m ;; k" := (bind m (fun x => k))
  (at level 61, m at next level, right associativity).

(** A TensorFlow.js call that may fail but reads no entropy. *)
Definition lift {A : Type} (r : result A) : M A := fun e => (r, e).

(** [x ?? m]: the nullish-coalescing operator; [m] runs only when [x] is absent. *)
Definition coalesce {A : Type} (x : option A) (m : M A) : M A :=
  match x with
  | Some a => ret a
  | None => m
  end.
Notation "x ?? m" := (coalesce x m) (at level 60, right associativity).

(** A default parameter value, used when the argument is [undefined]. *)
Definition orDefault {A : Type} (x : option A) (d : A) : A :=
  match x with
  | Some a => a
  | None => d
  end.

(** What a call returns, and the entropy it leaves behind. *)
Definition outcome {A : Type} (m : M A) (e : Entropy) : result A := fst (m e).
Definition entropy_after {A : Type} (m : M A) (e : Entropy) : Entropy := snd (m e).

Module Math.

Definition abs (x : Q) : Q := Qabs x.

Definition floor (x : Q) : Z := Qfloor x.

Definition ceil (x : Q) : Z := Qceiling x.

(** [Math.round] rounds halves towards plus infinity. *)
Definition round (x : Q) : Z := Qfloor (x + (1 # 2)).

Definition random : M Q :=
  fun e => (Ok (uniform e (upos e)), use_uniform e).

End Math.

(** ** The TensorFlow.js operations used by the pipeline

    TensorFlow.js is a dependency of the package; its operations are
    modelled on tensors of shape [[H, W, 1]] as their documentation and CPU
    kernels define them. *)

Module tf.

Definition shape (t : Tensor3D) : nat * nat := (length t, length (hd [] t)).

Definition clone (t : Tensor3D) : Tensor3D := t.

(** [tf.randomNormal(shape, mean, stdDev)], called without a seed: the
    generator seeds itself with one call of [Math.random()] and yields one
    normal sample per entry, in row-major order. The samples of the seeded
    generator are the next ones of the normal stream. *)
Definition randomNormal (shp : nat * nat) (mean stdDev : Q) : M Tensor3D :=
  seed <- Math.random ;;
  fun e =>
    let (h, w) := shp in
    (Ok (tabulate h w
           (fun i j => mean + stdDev * gauss e (gpos e + i * w + j)%nat)),
     use_gauss (h * w) e).

Definition add (a b : Tensor3D) : Tensor3D := map2 (map2 Qplus) a b.

(** [tf.addN(tensors)]: the element-wise sum of the list. *)
Definition addN (ts : list Tensor3D) : Tensor3D :=
  match ts with
  | [] => []
  | t :: rest => fold_left add rest t
  end.

Definition clip (lo hi x : Q) : Q :=
  if (x >? hi)%js then hi else if (x <? lo)%js then lo else x.

Definition clipByValue (t : Tensor3D) (lo hi : Q) : Tensor3D :=
  map (map (clip lo hi)) t.

(** [tf.pad3d(t, [[top, bottom], [left, right], [0, 0]], value)]. *)
Definition pad3d (t : Tensor3D) (top bottom left right : nat) (value : Q)
  : Tensor3D :=
  let w := (left + snd (shape t) + right)%nat in
  repeat (repeat value w) top
    ++ map (fun row => repeat value left ++ row ++ repeat value right) t
    ++ repeat (repeat value w) bottom.

(** [tf.slice3d(t, [r0, c0, 0], [h, w, 1])]: TensorFlow.js asserts that the
    window lies inside the tensor. *)
Definition slice3d (t : Tensor3D) (r0 c0 h w : nat) : result Tensor3D :=
  if ((r0 + h <=? fst (shape t)) && (c0 + w <=? snd (shape t)))%nat
  then Ok (map (fun row => firstn w (skipn c0 row)) (firstn h (skipn r0 t)))
  else Throw (TfAssertion "slice3d").

Module image.

(** [tf.image.resizeBilinear(t, [newH, newW])] with its defaults
    ([alignCorners = false], [halfPixelCenters = false]): the source
    coordinate of output index [k] is [k * old / new]; the four
    neighbouring source pixels are blended linearly. *)
Definition source (old new k : nat) : Q :=
  (inject_Z (Z.of_nat old) / inject_Z (Z.of_nat new)) * inject_Z (Z.of_nat k).

Definition lower (old new k : nat) : nat :=
  Z.to_nat (Z.max 0 (Math.floor (source old new k))).

Definition upper (old new k : nat) : nat :=
  Z.to_nat (Z.min (Z.of_nat old - 1) (Math.ceil (source old new k))).

Definition frac (old new k : nat) : Q :=
  source old new k - inject_Z (Z.of_nat (lower old new k)).

Definition lerp (a b t : Q) : Q := a + (b - a) * t.

Definition resizeBilinear (t : Tensor3D) (newH newW : nat) : Tensor3D :=
  let (oldH, oldW) := shape t in
  tabulate newH newW (fun r c =>
    let r0 := lower oldH newH r in
    let r1 := upper oldH newH r in
    let c0 := lower oldW newW c in
    let c1 := upper oldW newW c in
    let top := lerp (pixel t r0 c0) (pixel t r0 c1) (frac oldW newW c) in
    let bottom := lerp (pixel t r1 c0) (pixel t r1 c1) (frac oldW newW c) in
    lerp top bottom (frac oldH newH r)).

End image.

End tf.

(** ** augmentation.js *)

Record Range : Type := { min : Q; max : Q }.

(** A shift and a shift range have the same fields; the amounts are whole
    pixels. *)
Record Shift : Type := { width : Z; height : Z }.

Record AugmentationConfig : Type := {
  rotationRange : option Range;
  shiftRange : option Shift;
  zoomRange : option Range;
  shearRange : option Range
}.

Definition rotateAugmentation (imageData : Tensor3D) (angle : option Q)
    (angleRange : option Range) : M Tensor3D :=
  let angleRange := orDefault angleRange {| min := -15; max := 15 |} in
  let MAX_ROTATION := 15 in
  rotationAngle <- angle ?? (u <- Math.random ;;
                             ret (u * (max angleRange - min angleRange)
                                  + min angleRange)) ;;
  if (Math.abs rotationAngle >? MAX_ROTATION)%js then
    throw (Error [Lit "Rotation "; Num rotationAngle;
                  Lit "° exceeds maximum ±"; Num MAX_ROTATION; Lit "°"])
  else if (Math.abs rotationAngle <? 1 # 10)%js then
    ret (tf.clone imageData)
  else
    let noiseAmount := Math.abs rotationAngle / 100 in
    noise <- tf.randomNormal (tf.shape imageData) 0 noiseAmount ;;
    let rotated := tf.clipByValue (tf.addN [imageData; noise]) 0 1 in
    ret rotated.

Definition shiftAugmentation (imageData : Tensor3D) (shift : option Shift)
    (shiftRange : option Shift) : M Tensor3D :=
  let shiftRange := orDefault shiftRange {| width := 4; height := 4 |} in
  let MAX_SHIFT_PIXELS := 4%Z in
  let CANVAS_SIZE := 28%nat in
  widthShift <- option_map width shift ??
    (u <- Math.random ;;
     ret (Math.floor (u * inject_Z (width shiftRange * 2 + 1))
          - width shiftRange)%Z) ;;
  heightShift <- option_map height shift ??
    (u <- Math.random ;;
     ret (Math.floor (u * inject_Z (height shiftRange * 2 + 1))
          - height shiftRange)%Z) ;;
  if (Z.abs widthShift >? MAX_SHIFT_PIXELS)%Z then
    throw (Error [Lit "Width shift "; Num (inject_Z widthShift);
                  Lit "px exceeds maximum ±"; Num (inject_Z MAX_SHIFT_PIXELS);
                  Lit "px"])
  else if (Z.abs heightShift >? MAX_SHIFT_PIXELS)%Z then
    throw (Error [Lit "Height shift "; Num (inject_Z heightShift);
                  Lit "px exceeds maximum ±"; Num (inject_Z MAX_SHIFT_PIXELS);
                  Lit "px"])
  else
    let top := if (heightShift >? 0)%Z then heightShift else 0%Z in
    let bottom := if (heightShift <? 0)%Z then (- heightShift)%Z else 0%Z in
    let left := if (widthShift >? 0)%Z then widthShift else 0%Z in
    let right := if (widthShift <? 0)%Z then (- widthShift)%Z else 0%Z in
    let padded := tf.pad3d imageData (Z.to_nat top) (Z.to_nat bottom)
                    (Z.to_nat left) (Z.to_nat right) 0 in
    lift (tf.slice3d padded 0 0 CANVAS_SIZE CANVAS_SIZE).

Definition zoomAugmentation (imageData : Tensor3D) (zoomFactor : option Q)
    (zoomRange : option Range) : M Tensor3D :=
  let zoomRange := orDefault zoomRange {| min := 4 # 5; max := 6 # 5 |} in
  let MIN_ZOOM := 4 # 5 in
  let MAX_ZOOM := 6 # 5 in
  let CANVAS_SIZE := 28%Z in
  zoom <- zoomFactor ?? (u <- Math.random ;;
                         ret (u * (max zoomRange - min zoomRange)
                              + min zoomRange)) ;;
  if ((zoom <? MIN_ZOOM) || (zoom >? MAX_ZOOM))%js then
    throw (Error [Lit "Zoom "; Num zoom; Lit " outside valid range [";
                  Num MIN_ZOOM; Lit ", "; Num MAX_ZOOM; Lit "]"])
  else if (Math.abs (zoom - 1) <? 1 # 1000)%js then
    ret (tf.clone imageData)
  else
    let newSize := Math.round (inject_Z CANVAS_SIZE * zoom) in
    let resized := tf.image.resizeBilinear imageData
                     (Z.to_nat newSize) (Z.to_nat newSize) in
    if (zoom >? 1)%js then
      let cropStart := Math.floor (inject_Z (newSize - CANVAS_SIZE) / 2) in
      lift (tf.slice3d resized (Z.to_nat cropStart) (Z.to_nat cropStart)
              (Z.to_nat CANVAS_SIZE) (Z.to_nat CANVAS_SIZE))
    else
      let padAmount := Math.floor (inject_Z (CANVAS_SIZE - newSize) / 2) in
      ret (tf.pad3d resized
             (Z.to_nat padAmount)
             (Z.to_nat (CANVAS_SIZE - newSize - padAmount))
             (Z.to_nat padAmount)
             (Z.to_nat (CANVAS_SIZE - newSize - padAmount))
             0).

Definition shearAugmentation (imageData : Tensor3D) (shearFactor : option Q)
    (shearRange : option Range) : M Tensor3D :=
  let shearRange := orDefault shearRange {| min := - (1 # 5); max := 1 # 5 |} in
  let MIN_SHEAR := - (1 # 5) in
  let MAX_SHEAR := 1 # 5 in
  shear <- shearFactor ?? (u <- Math.random ;;
                           ret (u * (max shearRange - min shearRange)
                                + min shearRange)) ;;
  if ((shear <? MIN_SHEAR) || (shear >? MAX_SHEAR))%js then
    throw (Error [Lit "Shear "; Num shear; Lit " outside valid range [";
                  Num MIN_SHEAR; Lit ", "; Num MAX_SHEAR; Lit "]"])
  else if (Math.abs shear <? 1 # 1000)%js then
    ret (tf.clone imageData)
  else
    let noiseAmount := Math.abs shear * (1 # 10) in
    noise <- tf.randomNormal (tf.shape imageData) 0 noiseAmount ;;
    let sheared := tf.clipByValue (tf.addN [imageData; noise]) 0 1 in
    ret sheared.

Definition augmentImage (imageData : Tensor3D)
    (config : option AugmentationConfig) : M Tensor3D :=
  let config := orDefault config
    {| rotationRange := None; shiftRange := None;
       zoomRange := None; shearRange := None |} in
  augmented <- rotateAugmentation imageData None (rotationRange config) ;;
  let rotated := augmented in
  augmented <- shearAugmentation rotated None (shearRange config) ;;
  let sheared := augmented in
  augmented <- zoomAugmentation sheared None (zoomRange config) ;;
  let zoomed := augmented in
  augmented <- shiftAugmentation zoomed None (shiftRange config) ;;
  ret augmented.

(** * Vocabulary of the statements *)

(** ** Parameters: explicit or sampled *)

(** The value an optional parameter resolves to: the explicit one, or the
    one computed from the next uniform draw. *)
Definition resolved {A : Type} (x : option A) (f : Q -> A) (e : Entropy) : A :=
  match x with
  | Some a => a
  | None => f (uniform e (upos e))
  end.

(** The entropy left once the parameter is resolved. *)
Definition after_resolving {A : Type} (x : option A) (e : Entropy) : Entropy :=
  match x with
  | Some _ => e
  | None => use_uniform e
  end.

(** The sampling expressions of the source: a number of the range [r], and
    a whole number of pixels between [- bound] and [bound]. *)
Definition sample (r : Range) (u : Q) : Q := u * (max r - min r) + min r.

Definition sample_shift (bound : Z) (u : Q) : Z :=
  (Math.floor (u * inject_Z (bound * 2 + 1)) - bound)%Z.

(** The [k]-th value that [Math.random()] is about to return. *)
Definition draw (e : Entropy) (k : nat) : Q := uniform e (upos e + k).

(** The entropy [e'] is [e] after [k] further uniform draws. *)
Definition advanced (k : nat) (e e' : Entropy) : Prop :=
  uniform e' = uniform e /\ upos e' = (upos e + k)%nat.

(** The draws that [augmentImage] samples its parameters from. The rotation
    is sampled from draw 0. A rotation or a shear that adds noise reads one
    more draw, the seed of [tf.randomNormal], before the next parameter is
    sampled; one that copies the image (an angle below 0.1, a shear below
    0.001 in magnitude) reads none. So the shear is sampled from draw 1 or
    2, the zoom from the draw after the shear's or from the next one, and
    the zoom is followed by the two draws of the shift. *)
Definition shear_draw (c : AugmentationConfig) (e : Entropy) : nat :=
  let a := sample (orDefault (rotationRange c) {| min := -15; max := 15 |})
             (draw e 0) in
  if (Qabs a <? 1 # 10)%js then 1%nat else 2%nat.

Definition zoom_draw (c : AugmentationConfig) (e : Entropy) : nat :=
  let s := sample (orDefault (shearRange c) {| min := - (1 # 5); max := 1 # 5 |})
             (draw e (shear_draw c e)) in
  (shear_draw c e + if (Qabs s <? 1 # 1000)%js then 1 else 2)%nat.

(** The five parameters lie inside their domain bounds when the shear is
    sampled from draw [ks] and the zoom from draw [kz]. *)
Definition sampled_in_range_at (c : AugmentationConfig) (e : Entropy)
    (ks kz : nat) : Prop :=
  Qabs (sample (orDefault (rotationRange c) {| min := -15; max := 15 |})
          (draw e 0)) <= 15
  /\ (- (1 # 5)
        <= sample (orDefault (shearRange c) {| min := - (1 # 5); max := 1 # 5 |})
             (draw e ks)
      /\ sample (orDefault (shearRange c) {| min := - (1 # 5); max := 1 # 5 |})
            (draw e ks) <= 1 # 5)
  /\ (4 # 5
        <= sample (orDefault (zoomRange c) {| min := 4 # 5; max := 6 # 5 |})
             (draw e kz)
      /\ sample (orDefault (zoomRange c) {| min := 4 # 5; max := 6 # 5 |})
            (draw e kz) <= 6 # 5)
  /\ (Z.abs (sample_shift
               (width (orDefault (shiftRange c) {| width := 4; height := 4 |}))
               (draw e (kz + 1))) <= 4)%Z
  /\ (Z.abs (sample_shift
               (height (orDefault (shiftRange c) {| width := 4; height := 4 |}))
               (draw e (kz + 2))) <= 4)%Z.

(** The five parameters that [augmentImage] is about to sample lie inside
    their domain bounds, wherever the seeds of the noise fall: each
    parameter is inside its bound at every draw that it can be sampled
    from. *)
Definition sampled_in_range (c : AugmentationConfig) (e : Entropy) : Prop :=
  forall ks kz : nat,
    (1 <= ks <= 2)%nat -> (ks + 1 <= kz <= ks + 2)%nat ->
    sampled_in_range_at c e ks kz.

(** The configuration [{}]. *)
Definition no_ranges : AugmentationConfig :=
  {| rotationRange := None; shiftRange := None;
     zoomRange := None; shearRange := None |}.

(** ** The branches of the transforms *)

(** The last branch of [rotateAugmentation] and of [shearAugmentation]:
    scaled normal noise is added to the image and the sum is clipped to
    [[0, 1]]. *)
Definition noisy (imageData : Tensor3D) (noiseAmount : Q) (e : Entropy)
  : Tensor3D :=
  tf.clipByValue
    (tf.add imageData
       (tabulate (fst (tf.shape imageData)) (snd (tf.shape imageData))
          (fun i j => 0 + noiseAmount
                          * gauss e (gpos e + i * snd (tf.shape imageData) + j)%nat)))
    0 1.

(** The number of normal samples that the noise of [t] consumes. *)
Definition pixels (t : Tensor3D) : nat :=
  (fst (tf.shape t) * snd (tf.shape t))%nat.

(** The messages of the five [throw] statements. *)
Definition rotation_message (a : Q) : message :=
  [Lit "Rotation "; Num a; Lit "° exceeds maximum ±"; Num 15; Lit "°"].

Definition width_message (w : Z) : message :=
  [Lit "Width shift "; Num (inject_Z w); Lit "px exceeds maximum ±";
   Num (inject_Z 4); Lit "px"].

Definition height_message (h : Z) : message :=
  [Lit "Height shift "; Num (inject_Z h); Lit "px exceeds maximum ±";
   Num (inject_Z 4); Lit "px"].

Definition zoom_message (z : Q) : message :=
  [Lit "Zoom "; Num z; Lit " outside valid range ["; Num (4 # 5); Lit ", ";
   Num (6 # 5); Lit "]"].

Definition shear_message (s : Q) : message :=
  [Lit "Shear "; Num s; Lit " outside valid range ["; Num (- (1 # 5)); Lit ", ";
   Num (1 # 5); Lit "]"].

(** The padding amounts that [shiftAugmentation] derives from a signed
    shift: before the content when the shift is positive, after it when the
    shift is negative. *)
Definition before_pad (s : Z) : nat := Z.to_nat (if (s >? 0)%Z then s else 0%Z).

Definition after_pad (s : Z) : nat := Z.to_nat (if (s <? 0)%Z then (- s)%Z else 0%Z).

(** The window [[0, 28) x [0, 28)] that [shiftAugmentation] crops to. *)
Definition window (t : Tensor3D) : Tensor3D :=
  map (fun row => firstn 28 row) (firstn 28 t).

(** The size [zoomAugmentation] resamples to, the margins it crops or pads
    with, and its last branch. *)
Definition newSize (zoom : Q) : Z := Math.round (inject_Z 28 * zoom).

Definition cropStart (zoom : Q) : Z :=
  Math.floor (inject_Z (newSize zoom - 28) / 2).

Definition padAmount (zoom : Q) : Z :=
  Math.floor (inject_Z (28 - newSize zoom) / 2).

Definition rescaled (imageData : Tensor3D) (zoom : Q) : result Tensor3D :=
  let resized := tf.image.resizeBilinear imageData
                   (Z.to_nat (newSize zoom)) (Z.to_nat (newSize zoom)) in
  if (zoom >? 1)%js
  then tf.slice3d resized (Z.to_nat (cropStart zoom)) (Z.to_nat (cropStart zoom))
         28 28
  else Ok (tf.pad3d resized
             (Z.to_nat (padAmount zoom))
             (Z.to_nat (28 - newSize zoom - padAmount zoom))
             (Z.to_nat (padAmount zoom))
             (Z.to_nat (28 - newSize zoom - padAmount zoom)) 0).

(** ** Outcomes of a call *)

(** The call returns a tensor satisfying [P]. *)
Definition returns (m : M Tensor3D) (e : Entropy) (P : Tensor3D -> Prop) : Prop :=
  exists out, outcome m e = Ok out /\ P out.

(** The call throws the error with message [msg]. *)
Definition throws (m : M Tensor3D) (e : Entropy) (msg : message) : Prop :=
  outcome m e = Throw (Error msg).

(** The call either throws one of the range errors of augmentation.js or
    returns a tensor of shape [[h, w, 1]]. *)
Definition rejects_or_keeps (h w : nat) (m : M Tensor3D) (e : Entropy) : Prop :=
  (exists msg, throws m e msg) \/ returns m e (has_shape h w).

(** The message interpolates the number [q]. *)
Definition names (msg : message) (q : Q) : Prop := In (Num q) msg.

(** The message starts with the literal text [s]. *)
Definition starts_with (msg : message) (s : string) : Prop :=
  exists rest, msg = Lit s :: rest.

(** The outcomes of [n] consecutive calls, each reading the entropy the
    previous one left behind. *)
Fixpoint consecutive {A : Type} (n : nat) (m : M A) (e : Entropy)
  : list (result A) :=
  match n with
  | O => []
  | S k => outcome m e :: consecutive k m (entropy_after m e)
  end.

(** ** The transforms of the specification *)

(** The horizontal shear as the specification words it, [x' = x + s * y] and
    [y' = y] with nearest-neighbour sampling and background 0: the output
    pixel at column [x'] of row [y] is the source pixel at column
    [x' - s * y] of the same row. It is what [shearAugmentation] is compared
    with; the code does not call it. *)
Definition shear_mapping (s : Q) (t : Tensor3D) : Tensor3D :=
  let (h, w) := tf.shape t in
  tabulate h w (fun y x' =>
    let x := Math.round (inject_Z (Z.of_nat x') - s * inject_Z (Z.of_nat y)) in
    if ((0 <=? x) && (x <? Z.of_nat w))%Z then pixel t y (Z.to_nat x) else 0).

(** The translation as the specification words it: the content moves by [w]
    columns and [h] rows (to the right and downwards when positive), and the
    pixels that no source pixel moves onto are background. It is what
    [shiftAugmentation] is compared with; the code does not call it. *)
Definition translate (t : Tensor3D) (w h : Z) : Tensor3D :=
  let (H, W) := tf.shape t in
  tabulate H W (fun i j =>
    let si := (Z.of_nat i - h)%Z in
    let sj := (Z.of_nat j - w)%Z in
    if ((0 <=? si) && (si <? Z.of_nat H) && (0 <=? sj) && (sj <? Z.of_nat W))%Z
    then pixel t (Z.to_nat si) (Z.to_nat sj)
    else 0).

(** ** Sample inputs *)

(** The all-ones and the all-zero canvas, and the 28 x 28 canvas that is
    blank except for column [c]. *)
Definition ones (n : nat) : Tensor3D := repeat (repeat 1 n) n.

Definition blank (n : nat) : Tensor3D := repeat (repeat 0 n) n.

Definition stripe (c : nat) : Tensor3D :=
  tabulate 28 28 (fun _ j => if (j =? c)%nat then 1 else 0).

(** Two entropy sources whose uniform draws are all 1/2 and whose normal
    samples are all 0 (quiet) or all 1 (loud). *)
Definition quiet : Entropy :=
  {| uniform := fun _ => 1 # 2; gauss := fun _ => 0; upos := 0; gpos := 0 |}.

Definition loud : Entropy :=
  {| uniform := fun _ => 1 # 2; gauss := fun _ => 1; upos := 0; gpos := 0 |}.

(** The configuration whose ranges are collapsed to the identity. *)
Definition identity_config : AugmentationConfig :=
  {| rotationRange := Some {| min := 0; max := 0 |};
     shiftRange := Some {| width := 0; height := 0 |};
     zoomRange := Some {| min := 1; max := 1 |};
     shearRange := Some {| min := 0; max := 0 |} |}.

(** ** Tactics *)

(** Decide every conditional of the goal, then compare the two sides. *)
Ltac split_ifs :=
  repeat match goal with
         | |- context [if ?c then _ else _] => destruct c
         end;
  reflexivity.

(** Find the interpolated numbers in a concrete message. *)
Ltac find_parts :=
  unfold names; simpl;
  repeat match goal with |- _ /\ _ => split end;
  repeat (first [left; reflexivity | right]).

(** * Vocabulary of the further properties *)

(** The pixel [(i, j)] of the 28 x 28 canvas lies in the frame of zeros that
    [zoomAugmentation] puts around a reduced image. *)
Definition in_zoom_frame (factor : Q) (i j : nat) : bool :=
  negb (Qabs (factor - 1) <? 1 # 1000)%js
  && negb (factor >? 1)%js
  && negb ((Z.to_nat (padAmount factor) <=? i)
           && (i <? Z.to_nat (padAmount factor) + Z.to_nat (newSize factor))
           && (Z.to_nat (padAmount factor) <=? j)
           && (j <? Z.to_nat (padAmount factor) + Z.to_nat (newSize factor)))%nat.

(** Every range of the configuration lies inside the domain bound of its
    transform and is well formed. *)
Definition within_domain (c : AugmentationConfig) : Prop :=
  (let r := orDefault (rotationRange c) {| min := -15; max := 15 |} in
   -15 <= min r /\ min r <= max r /\ max r <= 15)
  /\ (let r := orDefault (shearRange c) {| min := - (1 # 5); max := 1 # 5 |} in
      - (1 # 5) <= min r /\ min r <= max r /\ max r <= 1 # 5)
  /\ (let r := orDefault (zoomRange c) {| min := 4 # 5; max := 6 # 5 |} in
      4 # 5 <= min r /\ min r <= max r /\ max r <= 6 # 5)
  /\ (let r := orDefault (shiftRange c) {| width := 4; height := 4 |} in
      (0 <= width r <= 4)%Z /\ (0 <= height r <= 4)%Z).

(** Products in double precision. The program multiplies in double
    precision, the embedding exactly. The double that a product with the
    exact value [x >= 0] is rounded to is at most [enlarged x], and it is not
    below a whole or a half number that [x] is not below. So [Math.round],
    or [Math.floor], of the double is the one of [x] whenever it is also the
    one of [enlarged x]: the product does not lie within one part in 2^52
    below a number at which the result changes. *)
Definition enlarged (x : Q) : Q := x * (1 + (1 # 4503599627370496)).

Definition rounds_alike (x : Q) : Prop :=
  Math.round (enlarged x) = Math.round x.

Definition floors_alike (x : Q) : Prop :=
  Math.floor (enlarged x) = Math.floor x.

(** An entropy source whose uniform draws are all 1/4 and whose normal
    samples are all 1. *)
Definition skewed : Entropy :=
  {| uniform := fun _ => 1 # 4; gauss := fun _ => 1; upos := 0; gpos := 0 |}.


(** Decide every comparison of whole numbers in the goal. *)
Ltac decide_bounds :=
  repeat match goal with
         | |- context [(?a <=? ?b)%Z] => destruct (Z.leb_spec a b)
         | |- context [(?a <? ?b)%Z] => destruct (Z.ltb_spec a b)
         | |- context [(?a <=? ?b)%nat] => destruct (Nat.leb_spec a b)
         | |- context [(?a <? ?b)%nat] => destruct (Nat.ltb_spec a b)
         end;
  cbn [andb]; try reflexivity; try lia.

(** * The mock inference of the API and of the digit canvas

    [inferDigit] (apps/api, inference service) and [simulatePrediction]
    (apps/web, DigitCanvas.tsx) build a probability vector from
    [Math.random()] draws. Their arrays are JavaScript arrays of numbers. *)

(** ** JavaScript arrays of numbers *)

Module Array.

(** An array of numbers; [None] is an empty slot, which reads as
    [undefined] and which [map] and [reduce] skip. *)
Definition t : Type := list (option Q).

(** [new Array(n)]: [n] empty slots. *)
Definition new (n : nat) : t := repeat None n.

(** [a.fill(v)]: every slot, empty or not, is set to [v]. *)
Definition fill (a : t) (v : Q) : t := List.map (fun _ => Some v) a.

(** [a.map(f)] for a callback that reads the entropy source: [f] is called
    on the present elements in index order, an empty slot stays empty. *)
Fixpoint mapM (f : Q -> M Q) (a : t) : M t :=
  match a with
  | [] => ret []
  | None :: rest => rest' <- mapM f rest ;; ret (None :: rest')
  | Some x :: rest => y <- f x ;; rest' <- mapM f rest ;; ret (Some y :: rest')
  end.

(** [a.map(f)] for a pure callback. *)
Definition map (f : Q -> Q) (a : t) : t := List.map (option_map f) a.

(** [a.reduce(f, init)]: a left fold over the present elements. *)
Definition reduce (f : Q -> Q -> Q) (init : Q) (a : t) : Q :=
  fold_left (fun acc x => match x with Some b => f acc b | None => acc end)
    a init.

(** [a[i]] for a whole number [i]: [undefined] at an empty slot, beyond the
    end and at a negative index. *)
Definition get (a : t) (i : Z) : option Q :=
  if (i <? 0)%Z then None else nth (Z.to_nat i) a None.

(** [a[i] = v] for a whole number [i]: inside the array the element is
    replaced; beyond the end the array grows, with empty slots up to [i]; a
    negative [i] names a property, not an element, and leaves the elements
    as they are. *)
Definition set (a : t) (i : Z) (v : Q) : t :=
  if (i <? 0)%Z then a
  else
    let n := Z.to_nat i in
    if (n <? length a)%nat then firstn n a ++ Some v :: skipn (S n) a
    else a ++ repeat None (n - length a) ++ [Some v].

End Array.

(** ** inference.service.ts *)

Record PredictionResult : Type := {
  predictedDigit : Z;
  confidence : option Q;
  allProbabilities : Array.t;
  inferenceTimeMs : Z
}.

(** [await new Promise(resolve => setTimeout(resolve, ms))]: time passes,
    no value that the caller reads changes. *)
Definition setTimeout (ms : Q) : M unit := ret tt.

(** [try { m } catch (error) { handler }]. *)
Definition try_catch {A : Type} (m : M A) (handler : exn -> M A) : M A :=
  fun e =>
    match m e with
    | (Ok a, e') => (Ok a, e')
    | (Throw x, e') => handler x e'
    end.

(** [error.message]; every exception of the embedding is an [Error]. *)
Definition error_message (x : exn) : message :=
  match x with
  | Error msg => msg
  | TfAssertion op => [Lit op]
  end.

(** [inferDigit(imageBuffer)]; [startTime] and [endTime] are the two
    readings of [Date.now()], in milliseconds. *)
Definition inferDigit (imageBuffer : list Byte.byte) (startTime endTime : Z)
  : M PredictionResult :=
  try_catch
    (u <- Math.random ;;
     let simulatedDelay := u * 10 + 30 in
     elapsed <- setTimeout simulatedDelay ;;
     probabilities <- Array.mapM (fun _ => u <- Math.random ;;
                                           ret (u * (15 # 100)))
                        (Array.fill (Array.new 10) 0) ;;
     u <- Math.random ;;
     let predictedDigit := Math.floor (u * 10) in
     u <- Math.random ;;
     let probabilities :=
       Array.set probabilities predictedDigit ((7 # 10) + u * (25 # 100)) in
     let sum := Array.reduce Qplus 0 probabilities in
     let normalized := Array.map (fun p => p / sum) probabilities in
     let inferenceTimeMs := Math.round (inject_Z (endTime - startTime)) in
     ret {| predictedDigit := predictedDigit;
            confidence := Array.get normalized predictedDigit;
            allProbabilities := normalized;
            inferenceTimeMs := inferenceTimeMs |})
    (fun error =>
       throw (Error (Lit "Inference failed: " :: error_message error))).

(** ** DigitCanvas.tsx *)

Record Prediction : Type := {
  digit : Z;
  probabilities : Array.t
}.

(** [simulatePrediction()], the local function of [predictDigit]. *)
Definition simulatePrediction : M Prediction :=
  predictions <- Array.mapM (fun _ => u <- Math.random ;;
                                      ret (u * (3 # 10)))
                   (Array.fill (Array.new 10) 0) ;;
  u <- Math.random ;;
  let predictedDigit := Math.floor (u * 10) in
  u <- Math.random ;;
  let predictions :=
    Array.set predictions predictedDigit ((7 # 10) + u * (3 # 10)) in
  let sum := Array.reduce Qplus 0 predictions in
  let normalized := Array.map (fun p => p / sum) predictions in
  ret {| digit := predictedDigit; probabilities := normalized |}.

(** ** Vocabulary of the mock inference *)

(** What both mocks make of the array [raw], the index [d] and the number
    [b]: element [d] is set to [b] and every element is divided by the sum. *)
Definition boosted (raw : Array.t) (d : Z) (b : Q) : Array.t :=
  let a := Array.set raw d b in
  Array.map (fun p => p / Array.reduce Qplus 0 a) a.

(** The list [raw] with the element [d] replaced by [b]. *)
Definition replaced (raw : list Q) (d : Z) (b : Q) : list Q :=
  firstn (Z.to_nat d) raw ++ b :: skipn (S (Z.to_nat d)) raw.

Definition replaced_sum (raw : list Q) (d : Z) (b : Q) : Q :=
  fold_left Qplus (replaced raw d b) 0.

(** The array of the next [n] uniform draws after the first [skip], each
    scaled by [c]. *)
Definition drawn (c : Q) (e : Entropy) (skip n : nat) : list Q :=
  List.map (fun k => draw e (skip + k) * c) (seq 0 n).

(** The entropy after [n] uniform draws. *)
Definition after_draws (n : nat) (e : Entropy) : Entropy :=
  Nat.iter n use_uniform e.

(** * The session identifier of the web client (MNISTDigitRecognition.tsx) *)

(** [x | 0] for a number [x]: the conversion to a 32-bit integer, which
    truncates towards zero and wraps around modulo 2^32. *)
Definition ToInt32 (x : Q) : Z :=
  let truncated := if (x <? 0)%js then (- Qfloor (- x))%Z else Qfloor x in
  let wrapped := (truncated mod 2 ^ 32)%Z in
  if (2 ^ 31 <=? wrapped)%Z then (wrapped - 2 ^ 32)%Z else wrapped.

(** [v.toString(16)] for a whole number [v]. *)
Definition toString16 (v : Z) : string :=
  HexadecimalString.NilZero.string_of_int (Z.to_hex_int v).

(** [template.replace(/[xy]/g, f)]: from left to right, every [x] and [y]
    is replaced by what the callback returns for it. *)
Fixpoint replace_xy (template : string) (f : ascii -> M string) : M string :=
  match template with
  | EmptyString => ret EmptyString
  | String c rest =>
      if ((c =? "x") || (c =? "y"))%char then
        s <- f c ;;
        rest' <- replace_xy rest f ;;
        ret (s ++ rest')%string
      else
        rest' <- replace_xy rest f ;;
        ret (String c rest')
  end.

(** The initial value of the [sessionId] state. *)
Definition sessionId : M string :=
  replace_xy "xxxxxxxx-xxxx-4xxx-yxxx-xxxxxxxxxxxx"
    (fun c =>
       u <- Math.random ;;
       let r := ToInt32 (u * 16) in
       let v := if (c =? "x")%char then r else Z.lor (Z.land r 3) 8 in
       ret (toString16 v)).

(** ** The textual form of a version 4 UUID *)

Inductive uuid_char : Type :=
| HexDigit        (* one of 0-9 and a-f *)
| VariantDigit    (* one of 8, 9, a and b *)
| Exactly (c : ascii).

Definition is_hex (c : ascii) : bool :=
  let n := nat_of_ascii c in
  ((48 <=? n) && (n <=? 57) || (97 <=? n) && (n <=? 102))%nat.

Definition in_class (k : uuid_char) (c : ascii) : bool :=
  match k with
  | HexDigit => is_hex c
  | VariantDigit => ((c =? "8") || (c =? "9") || (c =? "a") || (c =? "b"))%char
  | Exactly c' => (c =? c')%char
  end.

Fixpoint has_form (form : list uuid_char) (s : string) : bool :=
  match form, s with
  | [], EmptyString => true
  | k :: form', String c s' => in_class k c && has_form form' s'
  | _, _ => false
  end.

(** 8-4-4-4-12 hexadecimal digits, the version digit 4 and a variant digit. *)
Definition uuid_v4 (s : string) : bool :=
  has_form (repeat HexDigit 8 ++ [Exactly "-"] ++ repeat HexDigit 4
            ++ [Exactly "-"]
            ++ [Exactly "4"] ++ repeat HexDigit 3 ++ [Exactly "-"]
            ++ [VariantDigit] ++ repeat HexDigit 3 ++ [Exactly "-"]
            ++ repeat HexDigit 12) s.

(** The class of characters that the generator puts in the place of a
    character of its template. *)
Definition class_of (c : ascii) : uuid_char :=
  if (c =? "x")%char then HexDigit
  else if (c =? "y")%char then VariantDigit
  else Exactly c.

Fixpoint form_of (template : string) : list uuid_char :=
  match template with
  | EmptyString => []
  | String c rest => class_of c :: form_of rest
  end.

(** The number of draws that filling in a template takes. *)
Fixpoint placeholders (template : string) : nat :=
  match template with
  | EmptyString => 0
  | String c rest =>
      (if ((c =? "x") || (c =? "y"))%char then 1 else 0) + placeholders rest
  end.

(** * The input validation of the web client (MNISTDigitRecognition.tsx) *)

(** ** Regular expressions *)

Module RegExp.

Inductive t : Type :=
| Never                        (* matches no string *)
| Empty                        (* matches the empty string *)
| Class (cls : ascii -> bool)  (* one character of a class *)
| Cat (r1 r2 : t)
| Alt (r1 r2 : t)
| Star (r : t).

(** One given character, and a literal string. *)
Definition Chr (c : ascii) : t := Class (Ascii.eqb c).

Fixpoint Str (s : string) : t :=
  match s with
  | EmptyString => Empty
  | String c s' => Cat (Chr c) (Str s')
  end.

(** [r+], [r?] and [r{0,n}]. *)
Definition Plus (r : t) : t := Cat r (Star r).

Definition Opt (r : t) : t := Alt Empty r.

Fixpoint UpTo (n : nat) (r : t) : t :=
  match n with
  | O => Empty
  | S k => Opt (Cat r (UpTo k r))
  end.

Fixpoint nullable (r : t) : bool :=
  match r with
  | Never => false
  | Empty => true
  | Class _ => false
  | Cat r1 r2 => nullable r1 && nullable r2
  | Alt r1 r2 => nullable r1 || nullable r2
  | Star _ => true
  end.

(** What is left of [r] after reading the character [c]. *)
Fixpoint deriv (c : ascii) (r : t) : t :=
  match r with
  | Never => Never
  | Empty => Never
  | Class cls => if cls c then Empty else Never
  | Cat r1 r2 =>
      if nullable r1 then Alt (Cat (deriv c r1) r2) (deriv c r2)
      else Cat (deriv c r1) r2
  | Alt r1 r2 => Alt (deriv c r1) (deriv c r2)
  | Star r' => Cat (deriv c r') (Star r')
  end.

(** [/^r$/.test(s)]: the whole string matches [r]. *)
Fixpoint test (r : t) (s : string) : bool :=
  match s with
  | EmptyString => nullable r
  | String c s' => test (deriv c r) s'
  end.

End RegExp.

(** ** validateInput *)

Record Validation : Type := {
  success : bool;
  error : option string
}.

(** [s.startsWith(p)]. *)
Definition startsWith (s p : string) : bool := String.prefix p s.

(** The character class [[A-Za-z0-9+/]]. *)
Definition base64_char (c : ascii) : bool :=
  let n := nat_of_ascii c in
  ((65 <=? n) && (n <=? 90) || (97 <=? n) && (n <=? 122)
   || (48 <=? n) && (n <=? 57) || (n =? 43) || (n =? 47))%nat.

(** [validateInput(imageData)]. A string is the sequence of its code units;
    the empty string is the one string that [!imageData] rejects. *)
Definition validateInput (imageData : string) : Validation :=
  let DATA_URL_PREFIX := "data:image/png;base64,"%string in
  let STRICT_BASE64_REGEX :=
    RegExp.Cat (RegExp.Str "data:image/png;base64,")
      (RegExp.Cat (RegExp.Plus (RegExp.Class base64_char))
         (RegExp.UpTo 2 (RegExp.Chr "="))) in
  if (String.length imageData =? 0)%nat then
    {| success := false; error := Some "Invalid image data type"%string |}
  else if (65536 <? N.of_nat (String.length imageData))%N then
    {| success := false; error := Some "Image data exceeds 64KB limit"%string |}
  else if negb (RegExp.test STRICT_BASE64_REGEX imageData) then
    {| success := false; error := Some "Invalid Data URL format"%string |}
  else if negb (startsWith imageData DATA_URL_PREFIX) then
    {| success := false; error := Some "Must be PNG format"%string |}
  else
    {| success := true; error := None |}.

(** ** The strings that a regular expression denotes *)

Inductive repeated (L : string -> Prop) : string -> Prop :=
| repeated_nil : repeated L EmptyString
| repeated_more s1 s2 :
    L s1 -> repeated L s2 -> repeated L (s1 ++ s2)%string.

Fixpoint denotes (r : RegExp.t) (s : string) : Prop :=
  match r with
  | RegExp.Never => False
  | RegExp.Empty => s = EmptyString
  | RegExp.Class cls => exists c, s = String c EmptyString /\ cls c = true
  | RegExp.Cat r1 r2 =>
      exists s1 s2, s = (s1 ++ s2)%string /\ denotes r1 s1 /\ denotes r2 s2
  | RegExp.Alt r1 r2 => denotes r1 s \/ denotes r2 s
  | RegExp.Star r' => repeated (denotes r') s
  end.

(** Every character of the string is in the class. *)
Fixpoint all_in (cls : ascii -> bool) (s : string) : bool :=
  match s with
  | EmptyString => true
  | String c s' => cls c && all_in cls s'
  end.

(** * The input schema of the API (ml.schema.ts) *)

(** A value as the API receives it, parsed from JSON; [None] stands for
    [undefined]. The properties of an object are listed in the order of the
    text, where a later property replaces an earlier one of its name. *)
#[warnings="-register-all"] Inductive Json : Type :=
| JNull
| JBoolean (b : bool)
| JNumber (x : Q)
| JString (s : string)
| JArray (items : list Json)
| JObject (properties : list (string * Json)).

(** [object[key]]. *)
Fixpoint get (key : string) (properties : list (string * Json))
  : option Json :=
  match properties with
  | [] => None
  | (k, v) :: rest =>
      match get key rest with
      | Some v' => Some v'
      | None => if (k =? key)%string then Some v else None
      end
  end.

(** The white space of [trim] among the code units of one byte: tab, line
    feed, vertical tab, form feed, carriage return, space and no-break
    space. *)
Definition is_white (c : ascii) : bool :=
  let n := nat_of_ascii c in
  ((9 <=? n) && (n <=? 13) || (n =? 32) || (n =? 160))%nat.

Fixpoint trimStart (s : string) : string :=
  match s with
  | EmptyString => EmptyString
  | String c s' => if is_white c then trimStart s' else s
  end.

Fixpoint trimEnd (s : string) : string :=
  match s with
  | EmptyString => EmptyString
  | String c s' =>
      match trimEnd s' with
      | EmptyString => if is_white c then EmptyString else String c EmptyString
      | rest => String c rest
      end
  end.

(** [s.trim()]. *)
Definition trim (s : string) : string := trimEnd (trimStart s).

(** [s.slice(start)] for a [start] that is not negative. *)
Fixpoint slice (start : nat) (s : string) : string :=
  match start, s with
  | O, _ => s
  | S _, EmptyString => EmptyString
  | S k, String _ s' => slice k s'
  end.

(** The part of zod that the schema uses. A schema turns a value into the
    parsed value or refuses it; the issues that zod reports with a refusal
    do not appear. *)
Module z.

Definition check : Type := string -> bool.

(** [.max(n, message)]. *)
Definition max (n : N) : check :=
  fun data => (N.of_nat (String.length data) <=? n)%N.

(** [.regex(/^r$/, message)]. *)
Definition regex (r : RegExp.t) : check := RegExp.test r.

(** [.refine(f, message)]. *)
Definition refine (f : string -> bool) : check := f.

(** [z.string()] with its checks: a string that passes every check. *)
Definition string (checks : list check) (value : option Json)
  : option String.string :=
  match value with
  | Some (JString data) =>
      if forallb (fun passes => passes data) checks then Some data else None
  | _ => None
  end.

(** [.strict()]: the object has no property outside the shape. *)
Definition strict (shape : list String.string)
    (properties : list (String.string * Json)) : bool :=
  forallb (fun p => existsb (String.eqb (fst p)) shape) properties.

End z.

Module ml_schema.

Definition DATA_URL_PREFIX : string := "data:image/png;base64,".

Definition STRICT_BASE64_DATA_URL_REGEX : RegExp.t :=
  RegExp.Cat (RegExp.Str "data:image/png;base64,")
    (RegExp.Cat (RegExp.Plus (RegExp.Class base64_char))
       (RegExp.UpTo 2 (RegExp.Chr "="))).

Record PredictInput : Type := {
  imageData : string;
  sessionId : string
}.

Section Schema.

(** zod's check of the textual form of a UUID, [.uuid(message)]; its
    pattern is the library's. *)
Variable uuid : z.check.

(** [PredictInputSchema.parse(input)], [None] when the parse fails. *)
Definition PredictInputSchema (input : option Json) : option PredictInput :=
  match input with
  | Some (JObject properties) =>
      match
        z.string
          [z.max 65536;
           z.regex STRICT_BASE64_DATA_URL_REGEX;
           z.refine (fun data => (0 <? String.length (trim data))%nat);
           z.refine (fun data => startsWith data DATA_URL_PREFIX);
           z.refine
             (fun data =>
                let payload := slice (String.length DATA_URL_PREFIX) data in
                (0 <? String.length payload)%nat
                && (N.of_nat (String.length payload) <? 60000)%N)]
          (get "imageData" properties),
        z.string [uuid] (get "sessionId" properties)
      with
      | Some image, Some session =>
          if z.strict ["imageData"; "sessionId"]%string properties then
            Some {| imageData := image; sessionId := session |}
          else None
      | _, _ => None
      end
  | _ => None
  end.

End Schema.

End ml_schema.

(** * The prediction procedure of the API (ml.router.js) *)

(** [s.split(sep)] for a separator of one character. *)
Fixpoint split (sep : ascii) (s : string) : list string :=
  match s with
  | EmptyString => [EmptyString]
  | String c s' =>
      if (c =? sep)%char then EmptyString :: split sep s'
      else
        match split sep s' with
        | piece :: pieces => String c piece :: pieces
        | [] => [String c EmptyString]
        end
  end.

Module mlRouter.

Section Procedure.

(** zod's check of the textual form of a UUID. *)
Variable uuid : z.check.

(** The bytes that Node's lenient base64 decoder reads from a string; the
    procedure hands them to [inferDigit] and never looks at them. *)
Variable base64 : string -> list Byte.byte.

(** [Buffer.from(data, 'base64')]: a [TypeError] when [data] is
    [undefined]. *)
Definition Buffer_from (data : option string) : M (list Byte.byte) :=
  match data with
  | Some s => ret (base64 s)
  | None =>
      throw (Error [Lit "The first argument must be of type string or an ";
                    Lit "instance of Buffer, ArrayBuffer, or Array or an ";
                    Lit "Array-like Object. Received undefined"])
  end.

Record TRPCError : Type := {
  code : string;
  message : string;
  cause : exn
}.

(** What the procedure resolves to: the return value of the mutation, the
    [TRPCError] that the mutation throws, or the refusal of an input that
    fails the schema, for which tRPC throws a [TRPCError] of code
    BAD_REQUEST that carries the issues of zod. *)
Inductive Resolution : Type :=
| Returned (r : PredictionResult)
| Rejected (err : TRPCError)
| Refused.

(** The mutation of [predict], which runs on a parsed input. *)
Definition mutation (input : ml_schema.PredictInput) (startTime endTime : Z)
  : Entropy -> Resolution * Entropy :=
  fun e =>
    match
      (let base64Data :=
         nth_error (split "," (ml_schema.imageData input)) 1 in
       imageBuffer <- Buffer_from base64Data ;;
       result <- inferDigit imageBuffer startTime endTime ;;
       ret {| predictedDigit := predictedDigit result;
              confidence := confidence result;
              allProbabilities := allProbabilities result;
              inferenceTimeMs := inferenceTimeMs result |}) e
    with
    | (Ok r, e') => (Returned r, e')
    | (Throw error, e') =>
        (Rejected {| code := "BAD_REQUEST";
                     message := "Failed to process image data";
                     cause := error |}, e')
    end.

(** [predict]: the input is parsed with [PredictInputSchema] and the
    mutation runs on the parsed input; [startTime] and [endTime] are the
    readings of [Date.now()] inside [inferDigit]. *)
Definition predict (rawInput : option Json) (startTime endTime : Z)
  : Entropy -> Resolution * Entropy :=
  fun e =>
    match ml_schema.PredictInputSchema uuid rawInput with
    | Some input => mutation input startTime endTime e
    | None => (Refused, e)
    end.

End Procedure.

End mlRouter.

(** The string has no comma. *)
Definition comma_free (s : string) : bool :=
  all_in (fun c => negb (c =? ",")%char) s.

(** The body of the request that the web client posts. *)
Definition request (imageData sessionId : string) : option Json :=
  Some (JObject [("imageData"%string, JString imageData);
                 ("sessionId"%string, JString sessionId)]).

(** * Properties *)

(** ** Comparison of numbers *)

Lemma Qlt_bool_iff (x y : Q) : Qlt_bool x y = true <-> x < y.
Proof.
  unfold Qlt_bool. rewrite negb_true_iff.
  destruct (Qle_bool y x) eqn:E.
  - apply Qle_bool_iff in E. split; [discriminate | intro H; exfalso; lra].
  - split; [intros _ | reflexivity].
    destruct (Qlt_le_dec x y) as [L | L]; [exact L |].
    apply Qle_bool_iff in L. congruence.
Qed.

Lemma Qlt_bool_false_iff (x y : Q) : Qlt_bool x y = false <-> y <= x.
Proof.
  unfold Qlt_bool. rewrite negb_false_iff. apply Qle_bool_iff.
Qed.

(** ** The operations on small inputs *)

Example round_halves_up :
  Math.round (5 # 2) = 3%Z /\ Math.round (- (5 # 2)) = (-2)%Z
  /\ Math.round (7 # 3) = 2%Z.
Proof. repeat split. Qed.

Example newSize_at_the_bounds : newSize (4 # 5) = 22%Z /\ newSize (6 # 5) = 34%Z.
Proof. split; reflexivity. Qed.

Example pad3d_small :
  tf.pad3d [[1; 2]; [3; 4]] 1 0 0 2 0
  = [[0; 0; 0; 0]; [1; 2; 0; 0]; [3; 4; 0; 0]].
Proof. reflexivity. Qed.

Example slice3d_small :
  tf.slice3d [[1; 2; 3]; [4; 5; 6]; [7; 8; 9]] 1 0 2 2 = Ok [[4; 5]; [7; 8]].
Proof. reflexivity. Qed.

Example slice3d_overflow :
  tf.slice3d [[1; 2]; [3; 4]] 0 0 28 28 = Throw (TfAssertion "slice3d").
Proof. reflexivity. Qed.

Example resizeBilinear_small :
  map (map Qred) (tf.image.resizeBilinear [[0; 1]; [1; 0]] 4 4)
  = [[0; 1 # 2; 1; 1];
     [1 # 2; 1 # 2; 1 # 2; 1 # 2];
     [1; 1 # 2; 0; 0];
     [1; 1 # 2; 0; 0]].
Proof. reflexivity. Qed.

Example translate_small :
  translate [[1; 2]; [3; 4]] 1 0 = [[0; 1]; [0; 3]]
  /\ translate [[1; 2]; [3; 4]] (-1) 1 = [[0; 0]; [2; 0]].
Proof. split; reflexivity. Qed.

Example rotate_rejects_twenty :
  outcome (rotateAugmentation (ones 28) (Some 20) None) quiet
  = Throw (Error [Lit "Rotation "; Num 20; Lit "° exceeds maximum ±"; Num 15;
                  Lit "°"]).
Proof. reflexivity. Qed.

(** ** Lists and shapes *)

Section Shapes.

Lemma length_map2 {A B C : Type} (f : A -> B -> C) xs ys :
  length (map2 f xs ys) = Nat.min (length xs) (length ys).
Proof.
  revert ys; induction xs as [| x xs IH]; intros [| y ys]; simpl; auto.
Qed.

Lemma Forall_firstn {A : Type} (P : A -> Prop) n (l : list A) :
  Forall P l -> Forall P (firstn n l).
Proof.
  intros F. rewrite <- (firstn_skipn n l) in F.
  now apply Forall_app in F.
Qed.

Lemma Forall_skipn {A : Type} (P : A -> Prop) n (l : list A) :
  Forall P l -> Forall P (skipn n l).
Proof.
  intros F. rewrite <- (firstn_skipn n l) in F.
  now apply Forall_app in F.
Qed.

Lemma has_shape_nil w : has_shape 0 w [].
Proof. split; [reflexivity | constructor]. Qed.

Lemma has_shape_cons h w row t :
  has_shape (S h) w (row :: t) <-> length row = w /\ has_shape h w t.
Proof.
  unfold has_shape; simpl; split.
  - intros [L F]. inversion F; subst. repeat split; auto.
  - intros [R [L F]]. split; [congruence | constructor; assumption].
Qed.

Lemma has_shape_tabulate h w f : has_shape h w (tabulate h w f).
Proof.
  unfold has_shape, tabulate; split.
  - now rewrite length_map, length_seq.
  - apply Forall_forall; intros row Hin.
    apply in_map_iff in Hin as [i [<- _]].
    now rewrite length_map, length_seq.
Qed.

Lemma has_shape_map h w (f : Q -> Q) t :
  has_shape h w t -> has_shape h w (map (map f) t).
Proof.
  intros [L F]; split.
  - now rewrite length_map.
  - apply Forall_map. eapply Forall_impl; [| exact F].
    intros row Hr; simpl. now rewrite length_map.
Qed.

Lemma has_shape_add h w a b :
  has_shape h w a -> has_shape h w b -> has_shape h w (tf.add a b).
Proof.
  unfold tf.add. revert h b.
  induction a as [| ra a IH]; intros h [| rb b] Ha Hb.
  - exact Ha.
  - exact Ha.
  - exact Hb.
  - destruct h as [| h]; [destruct Ha; discriminate |].
    apply has_shape_cons in Ha as [La Ha], Hb as [Lb Hb].
    simpl. apply has_shape_cons; split; [| now apply IH].
    rewrite length_map2, La, Lb. apply Nat.min_id.
Qed.

Lemma shape_of_has_shape h w t :
  has_shape h w t -> (0 < h)%nat -> tf.shape t = (h, w).
Proof.
  destruct t as [| row t]; intros [L F] Hpos; simpl in L; [lia |].
  inversion F; subst. unfold tf.shape; simpl in *. congruence.
Qed.

(** A proper tensor has the shape that [tf.shape] reports. *)
Lemma has_shape_shape h w t :
  has_shape h w t -> has_shape (fst (tf.shape t)) (snd (tf.shape t)) t.
Proof.
  destruct h as [| h]; intros H.
  - destruct H as [L _]. apply length_zero_iff_nil in L; subst.
    apply has_shape_nil.
  - rewrite (shape_of_has_shape _ _ _ H); [exact H | lia].
Qed.

Lemma has_shape_pad3d h w t top bottom left right v :
  has_shape h w t -> (0 < h)%nat ->
  has_shape (top + h + bottom) (left + w + right)
    (tf.pad3d t top bottom left right v).
Proof.
  intros H Hpos. unfold tf.pad3d.
  rewrite (shape_of_has_shape _ _ _ H Hpos); simpl snd.
  destruct H as [L F]. split.
  - rewrite !length_app, !repeat_length, length_map. lia.
  - rewrite !Forall_app; repeat split.
    + apply Forall_forall; intros r Hr. apply repeat_spec in Hr; subst.
      apply repeat_length.
    + apply Forall_map. eapply Forall_impl; [| exact F].
      intros row Hr; simpl in *. rewrite !length_app, !repeat_length. lia.
    + apply Forall_forall; intros r Hr. apply repeat_spec in Hr; subst.
      apply repeat_length.
Qed.

Lemma slice3d_ok H W t r0 c0 h w :
  has_shape H W t -> (0 < H)%nat ->
  (r0 + h <= H)%nat -> (c0 + w <= W)%nat ->
  exists out, tf.slice3d t r0 c0 h w = Ok out /\ has_shape h w out.
Proof.
  intros Hs Hpos Hr Hc. unfold tf.slice3d.
  rewrite (shape_of_has_shape _ _ _ Hs Hpos); simpl fst; simpl snd.
  apply Nat.leb_le in Hr as Hr', Hc as Hc'. rewrite Hr', Hc'; simpl andb.
  eexists; split; [reflexivity |].
  destruct Hs as [L F]. split.
  - rewrite length_map, length_firstn, length_skipn. lia.
  - apply Forall_map, Forall_firstn, Forall_skipn.
    eapply Forall_impl; [| exact F]. intros row Hrow; simpl in *.
    rewrite length_firstn, length_skipn. lia.
Qed.

Lemma has_shape_resizeBilinear t newH newW :
  has_shape newH newW (tf.image.resizeBilinear t newH newW).
Proof.
  unfold tf.image.resizeBilinear. destruct (tf.shape t).
  apply has_shape_tabulate.
Qed.

Lemma pixel_tabulate h w f i j :
  (i < h)%nat -> (j < w)%nat -> pixel (tabulate h w f) i j = f i j.
Proof.
  intros Hi Hj. unfold pixel, tabulate.
  rewrite (nth_indep _ [] (map (fun j => f 0%nat j) (seq 0 w)))
    by now rewrite length_map, length_seq.
  rewrite (map_nth (fun i => map (fun j => f i j) (seq 0 w)) (seq 0 h) 0%nat i).
  rewrite seq_nth by assumption. cbn [Nat.add].
  rewrite (nth_indep _ 0 (f i 0%nat)) by now rewrite length_map, length_seq.
  rewrite (map_nth (fun j => f i j) (seq 0 w) 0%nat j).
  now rewrite seq_nth.
Qed.

Lemma list_ext {A : Type} (d : A) (a b : list A) :
  length a = length b ->
  (forall i, (i < length a)%nat -> nth i a d = nth i b d) -> a = b.
Proof.
  revert b; induction a as [| x a IH]; intros [| y b] L H; simpl in L;
    try discriminate; [reflexivity |].
  f_equal.
  - apply (H 0%nat). simpl; lia.
  - apply IH; [lia |]. intros i Hi. apply (H (S i)). simpl; lia.
Qed.

(** Two tensors of the same shape with the same pixels are equal. *)
Lemma tensor_ext h w a b :
  has_shape h w a -> has_shape h w b ->
  (forall i j, (i < h)%nat -> (j < w)%nat -> pixel a i j = pixel b i j) ->
  a = b.
Proof.
  intros [La Fa] [Lb Fb] H.
  apply (list_ext []); [congruence |].
  intros i Hi.
  pose proof (proj1 (Forall_nth _ _) Fa i [] Hi) as Ra.
  pose proof (proj1 (Forall_nth _ _) Fb i [] ltac:(lia)) as Rb.
  cbn beta in Ra, Rb.
  apply (list_ext 0); [congruence |].
  intros j Hj. apply H; lia.
Qed.

Lemma nth_map2 {A B C : Type} (f : A -> B -> C) xs ys i da db dc :
  (i < length xs)%nat -> (i < length ys)%nat ->
  nth i (map2 f xs ys) dc = f (nth i xs da) (nth i ys db).
Proof.
  revert ys i; induction xs as [| x xs IH]; intros [| y ys] i Hx Hy;
    simpl in *; try lia.
  destruct i as [| i]; [reflexivity | apply IH; lia].
Qed.

End Shapes.

(** ** Intensities of padded, cropped and resampled tensors *)

Section UnitRange.

Lemma clip_unit x : 0 <= tf.clip 0 1 x <= 1.
Proof.
  unfold tf.clip.
  destruct (Qlt_bool 1 x) eqn:Hhi; [lra |].
  apply Qlt_bool_false_iff in Hhi.
  destruct (Qlt_bool x 0) eqn:Hlo; [lra |].
  apply Qlt_bool_false_iff in Hlo. lra.
Qed.

Lemma in_unit_clipByValue t : in_unit_range (tf.clipByValue t 0 1).
Proof.
  unfold in_unit_range, tf.clipByValue.
  apply Forall_map, Forall_forall; intros row _.
  apply Forall_map, Forall_forall; intros x _. apply clip_unit.
Qed.

Lemma in_unit_repeat_row n m : Forall (Forall (fun x => 0 <= x <= 1)) (repeat (repeat 0 n) m).
Proof.
  apply Forall_forall; intros row Hr. apply repeat_spec in Hr; subst.
  apply Forall_forall; intros x Hx. apply repeat_spec in Hx; subst. lra.
Qed.

Lemma in_unit_pad3d t top bottom left right :
  in_unit_range t -> in_unit_range (tf.pad3d t top bottom left right 0).
Proof.
  intros H. unfold in_unit_range, tf.pad3d.
  rewrite !Forall_app; repeat split; try apply in_unit_repeat_row.
  apply Forall_map. eapply Forall_impl; [| exact H].
  intros row Hrow; simpl. rewrite !Forall_app; repeat split; auto;
    apply Forall_forall; intros x Hx; apply repeat_spec in Hx; subst; lra.
Qed.

Lemma in_unit_slice3d t r0 c0 h w out :
  in_unit_range t -> tf.slice3d t r0 c0 h w = Ok out -> in_unit_range out.
Proof.
  unfold tf.slice3d. intros H.
  destruct (_ && _); [| discriminate]. intros [= <-].
  apply Forall_map, Forall_firstn, Forall_skipn.
  eapply Forall_impl; [| exact H]. intros row Hrow; simpl.
  now apply Forall_firstn, Forall_skipn.
Qed.

Lemma pixel_unit t i j : in_unit_range t -> 0 <= pixel t i j <= 1.
Proof.
  intros H. unfold pixel.
  destruct (Nat.lt_ge_cases i (length t)) as [Hi | Hi].
  - pose proof (proj1 (Forall_nth _ _) H i [] Hi) as Hrow; simpl in Hrow.
    destruct (Nat.lt_ge_cases j (length (nth i t []))) as [Hj | Hj].
    + exact (proj1 (Forall_nth _ _) Hrow j 0 Hj).
    + rewrite nth_overflow by assumption. lra.
  - rewrite (nth_overflow t) by assumption. destruct j; simpl; lra.
Qed.

Lemma in_unit_tabulate h w f :
  (forall i j, 0 <= f i j <= 1) -> in_unit_range (tabulate h w f).
Proof.
  intros H. unfold in_unit_range, tabulate.
  apply Forall_map, Forall_forall; intros i _.
  apply Forall_map, Forall_forall; intros j _. apply H.
Qed.

Lemma lerp_unit a b t :
  0 <= a <= 1 -> 0 <= b <= 1 -> 0 <= t <= 1 ->
  0 <= tf.image.lerp a b t <= 1.
Proof.
  intros Ha Hb Ht. unfold tf.image.lerp. nra.
Qed.

Lemma source_nonneg old new k : 0 <= tf.image.source old new k.
Proof.
  unfold tf.image.source, Qdiv.
  assert (N : forall n, 0 <= inject_Z (Z.of_nat n)).
  { intros n. change 0 with (inject_Z 0). rewrite <- Zle_Qle. lia. }
  repeat apply Qmult_le_0_compat; auto.
  apply Qinv_le_0_compat; auto.
Qed.

Lemma frac_unit old new k : 0 <= tf.image.frac old new k <= 1.
Proof.
  unfold tf.image.frac, tf.image.lower, Math.floor.
  pose proof (source_nonneg old new k) as Hs.
  set (x := tf.image.source old new k) in *.
  assert (Hf : (0 <= Qfloor x)%Z).
  { change 0%Z with (Qfloor 0). now apply Qfloor_resp_le. }
  rewrite Z.max_r, Z2Nat.id by assumption.
  pose proof (Qfloor_le x) as Hlo. pose proof (Qlt_floor x) as Hhi.
  rewrite inject_Z_plus in Hhi. change (inject_Z 1) with 1 in Hhi. lra.
Qed.

Lemma in_unit_resizeBilinear t newH newW :
  in_unit_range t -> in_unit_range (tf.image.resizeBilinear t newH newW).
Proof.
  intros H. unfold tf.image.resizeBilinear.
  destruct (tf.shape t) as [oldH oldW].
  apply in_unit_tabulate; intros r c.
  repeat apply lerp_unit; auto using pixel_unit, frac_unit.
Qed.

End UnitRange.

(** ** Running computations *)

Section Running.

Context {A B : Type}.

Lemma bind_ok (m : M A) (f : A -> M B) e a e' :
  m e = (Ok a, e') -> bind m f e = f a e'.
Proof. unfold bind; now intros ->. Qed.

Lemma bind_throw (m : M A) (f : A -> M B) e x e' :
  m e = (Throw x, e') -> bind m f e = (Throw x, e').
Proof. unfold bind; now intros ->. Qed.

End Running.

Lemma coalesce_random {A : Type} (x : option A) (f : Q -> A) e :
  (x ?? (u <- Math.random ;; ret (f u))) e
  = (Ok (resolved x f e), after_resolving x e).
Proof. destruct x; reflexivity. Qed.

(** ** What each transform computes *)

Lemma rotate_run imageData angle angleRange e :
  let a := resolved angle
             (sample (orDefault angleRange {| min := -15; max := 15 |})) e in
  let e1 := after_resolving angle e in
  rotateAugmentation imageData angle angleRange e =
    if (Qabs a >? 15)%js then (Throw (Error (rotation_message a)), e1)
    else if (Qabs a <? 1 # 10)%js then (Ok imageData, e1)
    else (Ok (noisy imageData (Qabs a / 100) e1),
          use_gauss (pixels imageData) (use_uniform e1)).
Proof.
  intros a e1; subst a e1. unfold rotateAugmentation, sample, rotation_message.
  rewrite (bind_ok _ _ _ _ _ (coalesce_random angle _ e)).
  unfold Math.abs. split_ifs.
Qed.

Lemma shear_run imageData shearFactor shearRange e :
  let s := resolved shearFactor
             (sample (orDefault shearRange {| min := - (1 # 5); max := 1 # 5 |})) e in
  let e1 := after_resolving shearFactor e in
  shearAugmentation imageData shearFactor shearRange e =
    if ((s <? - (1 # 5)) || (s >? 1 # 5))%js
    then (Throw (Error (shear_message s)), e1)
    else if (Qabs s <? 1 # 1000)%js then (Ok imageData, e1)
    else (Ok (noisy imageData (Qabs s * (1 # 10)) e1),
          use_gauss (pixels imageData) (use_uniform e1)).
Proof.
  intros s e1; subst s e1. unfold shearAugmentation, sample, shear_message.
  rewrite (bind_ok _ _ _ _ _ (coalesce_random shearFactor _ e)).
  unfold Math.abs. split_ifs.
Qed.

Lemma shift_run imageData shift shiftRange e :
  let r := orDefault shiftRange {| width := 4; height := 4 |} in
  let w := resolved (option_map width shift) (sample_shift (width r)) e in
  let e1 := after_resolving (option_map width shift) e in
  let h := resolved (option_map height shift) (sample_shift (height r)) e1 in
  let e2 := after_resolving (option_map height shift) e1 in
  shiftAugmentation imageData shift shiftRange e =
    if (Z.abs w >? 4)%Z then (Throw (Error (width_message w)), e2)
    else if (Z.abs h >? 4)%Z then (Throw (Error (height_message h)), e2)
    else (tf.slice3d
            (tf.pad3d imageData (before_pad h) (after_pad h)
               (before_pad w) (after_pad w) 0)
            0 0 28 28, e2).
Proof.
  intros r w e1 h e2; subst r w e1 h e2.
  unfold shiftAugmentation, sample_shift, width_message, height_message.
  rewrite (bind_ok _ _ _ _ _ (coalesce_random (option_map width shift) _ e)).
  rewrite (bind_ok _ _ _ _ _ (coalesce_random (option_map height shift) _ _)).
  destruct (Z.abs _ >? 4)%Z; [reflexivity |].
  destruct (Z.abs _ >? 4)%Z; reflexivity.
Qed.

Lemma zoom_run imageData zoomFactor zoomRange e :
  let z := resolved zoomFactor
             (sample (orDefault zoomRange {| min := 4 # 5; max := 6 # 5 |})) e in
  let e1 := after_resolving zoomFactor e in
  zoomAugmentation imageData zoomFactor zoomRange e =
    if ((z <? 4 # 5) || (z >? 6 # 5))%js
    then (Throw (Error (zoom_message z)), e1)
    else if (Qabs (z - 1) <? 1 # 1000)%js then (Ok imageData, e1)
    else (rescaled imageData z, e1).
Proof.
  intros z e1; subst z e1.
  unfold zoomAugmentation, sample, zoom_message, rescaled, newSize, cropStart,
    padAmount.
  rewrite (bind_ok _ _ _ _ _ (coalesce_random zoomFactor _ e)).
  unfold Math.abs. split_ifs.
Qed.

(** ** Noise, resampling and padding keep the canvas *)

Lemma has_shape_noisy h w t amount e :
  has_shape h w t -> has_shape h w (noisy t amount e).
Proof.
  intros H. unfold noisy, tf.clipByValue.
  apply has_shape_map.
  destruct h as [| h].
  - destruct H as [L _]. apply length_zero_iff_nil in L; subst.
    apply has_shape_nil.
  - rewrite (shape_of_has_shape _ _ _ H) by lia; simpl fst; simpl snd.
    apply has_shape_add; [exact H | apply has_shape_tabulate].
Qed.

Lemma in_unit_noisy t amount e : in_unit_range (noisy t amount e).
Proof. apply in_unit_clipByValue. Qed.

Lemma round_bounds (x : Q) (lo hi : Z) :
  inject_Z lo <= x + (1 # 2) -> x + (1 # 2) < inject_Z (hi + 1) ->
  (lo <= Math.round x <= hi)%Z.
Proof.
  intros Hlo Hhi. unfold Math.round. split.
  - rewrite <- (Qfloor_Z lo). now apply Qfloor_resp_le.
  - apply Z.lt_succ_r. rewrite Zlt_Qlt.
    eapply Qle_lt_trans; [apply Qfloor_le | exact Hhi].
Qed.

Lemma newSize_enlarged z : 1 < z -> z <= 6 # 5 -> (28 <= newSize z <= 34)%Z.
Proof.
  intros Hlo Hhi. unfold newSize. apply round_bounds; simpl inject_Z.
  - change (inject_Z 28) with (28 # 1). lra.
  - change (inject_Z 28) with (28 # 1). change (inject_Z 35) with (35 # 1). lra.
Qed.

Lemma newSize_shrunk z : 4 # 5 <= z -> z <= 1 -> (22 <= newSize z <= 28)%Z.
Proof.
  intros Hlo Hhi. unfold newSize. apply round_bounds; simpl inject_Z.
  - change (inject_Z 28) with (28 # 1). change (inject_Z 22) with (22 # 1). lra.
  - change (inject_Z 28) with (28 # 1). change (inject_Z 29) with (29 # 1). lra.
Qed.

Lemma floor_half (n : Z) : Math.floor (inject_Z n / 2) = (n / 2)%Z.
Proof. unfold Math.floor. symmetry. apply (Zdiv_Qdiv n 2). Qed.

Lemma rescaled_ok t z :
  4 # 5 <= z -> z <= 6 # 5 ->
  exists out, rescaled t z = Ok out /\ has_shape 28 28 out.
Proof.
  intros Hlo Hhi. unfold rescaled.
  pose proof (has_shape_resizeBilinear t (Z.to_nat (newSize z))
                (Z.to_nat (newSize z))) as Hres.
  destruct (z >? 1)%js eqn:Hz.
  - apply Qlt_bool_iff in Hz.
    pose proof (newSize_enlarged z Hz Hhi) as Hn.
    unfold cropStart. rewrite floor_half.
    assert (Hc : (0 <= (newSize z - 28) / 2 <= newSize z - 28)%Z).
    { split; [apply Z.div_pos; lia | apply Z.div_le_upper_bound; lia]. }
    eapply slice3d_ok; [exact Hres | lia | lia | lia].
  - apply Qlt_bool_false_iff in Hz.
    pose proof (newSize_shrunk z Hlo Hz) as Hn.
    unfold padAmount. rewrite floor_half.
    assert (Hp : (0 <= (28 - newSize z) / 2 <= 28 - newSize z)%Z).
    { split; [apply Z.div_pos; lia | apply Z.div_le_upper_bound; lia]. }
    eexists; split; [reflexivity |].
    pose proof (has_shape_pad3d _ _ _
                  (Z.to_nat ((28 - newSize z) / 2))
                  (Z.to_nat (28 - newSize z - (28 - newSize z) / 2))
                  (Z.to_nat ((28 - newSize z) / 2))
                  (Z.to_nat (28 - newSize z - (28 - newSize z) / 2))
                  0 Hres ltac:(lia)) as Hpad.
    replace (Z.to_nat ((28 - newSize z) / 2) + Z.to_nat (newSize z)
             + Z.to_nat (28 - newSize z - (28 - newSize z) / 2))%nat
      with 28%nat in Hpad by lia.
    exact Hpad.
Qed.

Lemma in_unit_rescaled t z out :
  in_unit_range t -> rescaled t z = Ok out -> in_unit_range out.
Proof.
  intros H. unfold rescaled.
  pose proof (in_unit_resizeBilinear t (Z.to_nat (newSize z))
                (Z.to_nat (newSize z)) H) as Hres.
  destruct (z >? 1)%js.
  - now apply in_unit_slice3d.
  - intros [= <-]. now apply in_unit_pad3d.
Qed.

Lemma pads_bounded s :
  (Z.abs s <= 4)%Z -> (before_pad s <= 4)%nat /\ (after_pad s <= 4)%nat.
Proof.
  intros H. unfold before_pad, after_pad.
  destruct (Z.gtb_spec s 0), (Z.ltb_spec s 0); lia.
Qed.

Lemma shifted_ok H W t w h :
  has_shape H W t -> (28 <= H)%nat -> (28 <= W)%nat ->
  exists out,
    tf.slice3d (tf.pad3d t (before_pad h) (after_pad h)
                  (before_pad w) (after_pad w) 0) 0 0 28 28 = Ok out
    /\ has_shape 28 28 out.
Proof.
  intros Hs HH HW.
  eapply slice3d_ok.
  - apply has_shape_pad3d; [exact Hs | lia].
  - lia.
  - lia.
  - lia.
Qed.

(** ** Rejected parameters *)

Section Validation.

Variable imageData : Tensor3D.
Variable e : Entropy.

Lemma rotate_rejects angle range :
  15 < Qabs angle ->
  throws (rotateAugmentation imageData (Some angle) range) e
    (rotation_message angle).
Proof.
  intros H. unfold throws, outcome. rewrite rotate_run; simpl resolved.
  apply Qlt_bool_iff in H. now rewrite H.
Qed.

Lemma width_rejects w h range :
  (4 < Z.abs w)%Z ->
  throws (shiftAugmentation imageData (Some {| width := w; height := h |}) range)
    e (width_message w).
Proof.
  intros H. unfold throws, outcome. rewrite shift_run; simpl resolved.
  apply Z.gtb_lt in H. now rewrite H.
Qed.

Lemma height_rejects w h range :
  (Z.abs w <= 4)%Z -> (4 < Z.abs h)%Z ->
  throws (shiftAugmentation imageData (Some {| width := w; height := h |}) range)
    e (height_message h).
Proof.
  intros Hw H. unfold throws, outcome. rewrite shift_run; simpl resolved.
  destruct (Z.gtb_spec (Z.abs w) 4); [lia |].
  apply Z.gtb_lt in H. now rewrite H.
Qed.

Lemma zoom_rejects factor range :
  factor < 4 # 5 \/ 6 # 5 < factor ->
  throws (zoomAugmentation imageData (Some factor) range) e
    (zoom_message factor).
Proof.
  intros H. unfold throws, outcome. rewrite zoom_run; simpl resolved.
  destruct H as [H | H]; apply Qlt_bool_iff in H; rewrite H;
    [| rewrite orb_true_r]; reflexivity.
Qed.

Lemma shear_rejects factor range :
  factor < - (1 # 5) \/ 1 # 5 < factor ->
  throws (shearAugmentation imageData (Some factor) range) e
    (shear_message factor).
Proof.
  intros H. unfold throws, outcome. rewrite shear_run; simpl resolved.
  destruct H as [H | H]; apply Qlt_bool_iff in H; rewrite H;
    [| rewrite orb_true_r]; reflexivity.
Qed.

End Validation.

(** ** The two outcomes of each transform *)

Section Outcomes.

Variable imageData : Tensor3D.
Variable e : Entropy.

Lemma rotate_outcome angle range :
  let a := resolved angle
             (sample (orDefault range {| min := -15; max := 15 |})) e in
  (15 < Qabs a
   /\ throws (rotateAugmentation imageData angle range) e (rotation_message a))
  \/ (Qabs a <= 15
      /\ returns (rotateAugmentation imageData angle range) e
           (fun out => out = imageData
                       \/ out = noisy imageData (Qabs a / 100)
                                (after_resolving angle e))).
Proof.
  intros a. unfold throws, returns, outcome. rewrite rotate_run. fold a.
  destruct (Qabs a >? 15)%js eqn:Hmax.
  - left. apply Qlt_bool_iff in Hmax. now split.
  - right. apply Qlt_bool_false_iff in Hmax. split; [exact Hmax |].
    destruct (Qabs a <? 1 # 10)%js; eexists; split; simpl; eauto.
Qed.

Lemma shear_outcome factor range :
  let s := resolved factor
             (sample (orDefault range {| min := - (1 # 5); max := 1 # 5 |})) e in
  ((s < - (1 # 5) \/ 1 # 5 < s)
   /\ throws (shearAugmentation imageData factor range) e (shear_message s))
  \/ ((- (1 # 5) <= s /\ s <= 1 # 5)
      /\ returns (shearAugmentation imageData factor range) e
           (fun out => out = imageData
                       \/ out = noisy imageData (Qabs s * (1 # 10))
                                (after_resolving factor e))).
Proof.
  intros s. unfold throws, returns, outcome. rewrite shear_run. fold s.
  destruct (s <? - (1 # 5))%js eqn:Hlo; simpl orb.
  - left. apply Qlt_bool_iff in Hlo. split; [now left | reflexivity].
  - apply Qlt_bool_false_iff in Hlo.
    destruct (s >? 1 # 5)%js eqn:Hhi.
    + left. apply Qlt_bool_iff in Hhi. split; [now right | reflexivity].
    + right. apply Qlt_bool_false_iff in Hhi. split; [now split |].
      destruct (Qabs s <? 1 # 1000)%js; eexists; split; simpl; eauto.
Qed.

Lemma zoom_outcome factor range :
  let z := resolved factor
             (sample (orDefault range {| min := 4 # 5; max := 6 # 5 |})) e in
  ((z < 4 # 5 \/ 6 # 5 < z)
   /\ throws (zoomAugmentation imageData factor range) e (zoom_message z))
  \/ ((4 # 5 <= z /\ z <= 6 # 5)
      /\ returns (zoomAugmentation imageData factor range) e
           (fun out => out = imageData \/ rescaled imageData z = Ok out)).
Proof.
  intros z. unfold throws, returns, outcome. rewrite zoom_run. fold z.
  destruct (z <? 4 # 5)%js eqn:Hlo; simpl orb.
  - left. apply Qlt_bool_iff in Hlo. split; [now left | reflexivity].
  - apply Qlt_bool_false_iff in Hlo.
    destruct (z >? 6 # 5)%js eqn:Hhi.
    + left. apply Qlt_bool_iff in Hhi. split; [now right | reflexivity].
    + right. apply Qlt_bool_false_iff in Hhi. split; [now split |].
      destruct (Qabs (z - 1) <? 1 # 1000)%js.
      * eexists; split; simpl; eauto.
      * destruct (rescaled_ok imageData z Hlo Hhi) as (out & Hout & _).
        exists out. simpl. rewrite Hout. auto.
Qed.

Lemma shift_outcome shift range :
  let r := orDefault range {| width := 4; height := 4 |} in
  let w := resolved (option_map width shift) (sample_shift (width r)) e in
  let e1 := after_resolving (option_map width shift) e in
  let h := resolved (option_map height shift) (sample_shift (height r)) e1 in
  ((4 < Z.abs w)%Z
   /\ throws (shiftAugmentation imageData shift range) e (width_message w))
  \/ ((Z.abs w <= 4)%Z /\ (4 < Z.abs h)%Z
      /\ throws (shiftAugmentation imageData shift range) e (height_message h))
  \/ ((Z.abs w <= 4)%Z /\ (Z.abs h <= 4)%Z
      /\ outcome (shiftAugmentation imageData shift range) e
         = tf.slice3d
             (tf.pad3d imageData (before_pad h) (after_pad h)
                (before_pad w) (after_pad w) 0) 0 0 28 28).
Proof.
  intros r w e1 h. unfold throws, outcome. rewrite shift_run. fold r w e1 h.
  destruct (Z.gtb_spec (Z.abs w) 4) as [Hw | Hw].
  - left. now split.
  - right. destruct (Z.gtb_spec (Z.abs h) 4) as [Hh | Hh].
    + left. now repeat split.
    + right. now repeat split.
Qed.

End Outcomes.

Lemma has_shape_ones n : has_shape n n (ones n).
Proof.
  split; [apply repeat_length |].
  apply Forall_forall; intros row H. apply repeat_spec in H; subst.
  apply repeat_length.
Qed.

Lemma valid_quiet : valid_entropy quiet.
Proof. intros n; simpl; split; lra. Qed.

(** ** Rotation and shear are additive noise *)

(** For every angle that is neither rejected nor below the copy threshold,
    the result of [rotateAugmentation] is the input plus noise, clipped. *)
Lemma rotate_is_noise imageData angle range e :
  1 # 10 <= Qabs angle -> Qabs angle <= 15 ->
  outcome (rotateAugmentation imageData (Some angle) range) e
  = Ok (noisy imageData (Qabs angle / 100) e).
Proof.
  intros Hlo Hhi. unfold outcome. rewrite rotate_run; simpl resolved.
  apply Qlt_bool_false_iff in Hlo, Hhi. now rewrite Hlo, Hhi.
Qed.

Lemma shear_is_noise imageData factor range e :
  1 # 1000 <= Qabs factor -> - (1 # 5) <= factor -> factor <= 1 # 5 ->
  outcome (shearAugmentation imageData (Some factor) range) e
  = Ok (noisy imageData (Qabs factor * (1 # 10)) e).
Proof.
  intros Heps Hlo Hhi. unfold outcome. rewrite shear_run; simpl resolved.
  apply Qlt_bool_false_iff in Heps, Hlo, Hhi. now rewrite Heps, Hlo, Hhi.
Qed.

(** Each pixel of the noisy image is the pixel of the input at the same
    position plus its own noise sample, clipped: no pixel moves. *)
Lemma pixel_noisy h w t amount e i j :
  has_shape h w t -> (i < h)%nat -> (j < w)%nat ->
  pixel (noisy t amount e) i j
  = tf.clip 0 1 (pixel t i j + (0 + amount * gauss e (gpos e + i * w + j)%nat)).
Proof.
  intros Hs Hi Hj. unfold noisy.
  rewrite (shape_of_has_shape _ _ _ Hs) by lia. cbn [fst snd].
  set (noise := tabulate h w _).
  assert (Hn : has_shape h w noise) by apply has_shape_tabulate.
  pose proof (has_shape_add _ _ _ _ Hs Hn) as Ha.
  destruct Hs as [L F], Hn as [Ln Fn], Ha as [La Fa].
  pose proof (proj1 (Forall_nth _ _) F i [] ltac:(lia)) as Ri.
  pose proof (proj1 (Forall_nth _ _) Fn i [] ltac:(lia)) as Rn.
  pose proof (proj1 (Forall_nth _ _) Fa i [] ltac:(lia)) as Ra.
  cbn beta in Ri, Rn, Ra.
  unfold pixel at 1, tf.clipByValue.
  replace (nth i (map (map (tf.clip 0 1)) (tf.add t noise)) [])
    with (map (tf.clip 0 1) (nth i (tf.add t noise) []))
    by (symmetry; apply (map_nth (map (tf.clip 0 1)) _ [] i)).
  rewrite (nth_indep _ 0 (tf.clip 0 1 0)) by (rewrite length_map; lia).
  rewrite (map_nth (tf.clip 0 1)). f_equal.
  unfold tf.add in *.
  rewrite (nth_map2 _ _ _ _ [] [] []) in * by lia.
  rewrite (nth_map2 _ _ _ _ 0 0 0) by lia.
  f_equal. fold (pixel noise i j). unfold noise.
  now rewrite pixel_tabulate.
Qed.

(** So the "rotated" image has, at each position, the intensity of the input
    at that very position plus noise, and likewise the "sheared" one. *)
Corollary rotate_keeps_every_pixel_in_place h w imageData angle range e i j :
  has_shape h w imageData -> 1 # 10 <= Qabs angle -> Qabs angle <= 15 ->
  (i < h)%nat -> (j < w)%nat ->
  returns (rotateAugmentation imageData (Some angle) range) e
    (fun out =>
       pixel out i j
       = tf.clip 0 1 (pixel imageData i j
                      + (0 + Qabs angle / 100 * gauss e (gpos e + i * w + j)%nat))).
Proof.
  intros Hs Hlo Hhi Hi Hj. eexists. split.
  - now apply rotate_is_noise.
  - now apply (pixel_noisy h w).
Qed.

Corollary shear_keeps_every_pixel_in_place h w imageData factor range e i j :
  has_shape h w imageData ->
  1 # 1000 <= Qabs factor -> - (1 # 5) <= factor -> factor <= 1 # 5 ->
  (i < h)%nat -> (j < w)%nat ->
  returns (shearAugmentation imageData (Some factor) range) e
    (fun out =>
       pixel out i j
       = tf.clip 0 1 (pixel imageData i j
                      + (0 + Qabs factor * (1 # 10)
                             * gauss e (gpos e + i * w + j)%nat))).
Proof.
  intros Hs Heps Hlo Hhi Hi Hj. eexists. split.
  - now apply shear_is_noise.
  - now apply (pixel_noisy h w).
Qed.



(** ** Dimensions after each transform *)

Section Dimensions.

Variable e : Entropy.

Lemma rotate_keeps h w imageData angle range :
  has_shape h w imageData ->
  rejects_or_keeps h w (rotateAugmentation imageData angle range) e.
Proof.
  intros Hs.
  destruct (rotate_outcome imageData e angle range)
    as [[_ Hout] | [_ (out & Hout & Hcase)]].
  - left. eexists; exact Hout.
  - right. exists out. split; [exact Hout |].
    destruct Hcase as [-> | ->]; [exact Hs | now apply has_shape_noisy].
Qed.

Lemma shear_keeps h w imageData factor range :
  has_shape h w imageData ->
  rejects_or_keeps h w (shearAugmentation imageData factor range) e.
Proof.
  intros Hs.
  destruct (shear_outcome imageData e factor range)
    as [[_ Hout] | [_ (out & Hout & Hcase)]].
  - left. eexists; exact Hout.
  - right. exists out. split; [exact Hout |].
    destruct Hcase as [-> | ->]; [exact Hs | now apply has_shape_noisy].
Qed.

Lemma zoom_keeps imageData factor range :
  has_shape 28 28 imageData ->
  rejects_or_keeps 28 28 (zoomAugmentation imageData factor range) e.
Proof.
  intros Hs.
  destruct (zoom_outcome imageData e factor range)
    as [[_ Hout] | [[Hlo Hhi] (out & Hout & Hcase)]].
  - left. eexists; exact Hout.
  - right. exists out. split; [exact Hout |].
    destruct Hcase as [-> | Hres]; [exact Hs |].
    destruct (rescaled_ok imageData _ Hlo Hhi) as (out' & Hout' & Hshape).
    congruence.
Qed.

Lemma shift_keeps imageData shift range :
  has_shape 28 28 imageData ->
  rejects_or_keeps 28 28 (shiftAugmentation imageData shift range) e.
Proof.
  intros Hs.
  destruct (shift_outcome imageData e shift range)
    as [[_ Hout] | [(_ & _ & Hout) | (_ & _ & Hout)]].
  - left. eexists; exact Hout.
  - left. eexists; exact Hout.
  - right. unfold returns. rewrite Hout.
    apply (shifted_ok 28 28); [exact Hs | lia | lia].
Qed.

End Dimensions.

(** ** The pipeline, stage by stage *)

Lemma run_eq {A : Type} (m : M A) e : m e = (outcome m e, entropy_after m e).
Proof. unfold outcome, entropy_after. now destruct (m e). Qed.

Lemma augment_run imageData config e :
  let c := orDefault config no_ranges in
  augmentImage imageData config e =
    match rotateAugmentation imageData None (rotationRange c) e with
    | (Throw x, e1) => (Throw x, e1)
    | (Ok rotated, e1) =>
        match shearAugmentation rotated None (shearRange c) e1 with
        | (Throw x, e2) => (Throw x, e2)
        | (Ok sheared, e2) =>
            match zoomAugmentation sheared None (zoomRange c) e2 with
            | (Throw x, e3) => (Throw x, e3)
            | (Ok zoomed, e3) => shiftAugmentation zoomed None (shiftRange c) e3
            end
        end
    end.
Proof.
  intros c. unfold augmentImage, bind. fold no_ranges. fold c.
  destruct (rotateAugmentation _ _ _ e) as [[rotated | x] e1]; [| reflexivity].
  destruct (shearAugmentation _ _ _ e1) as [[sheared | x] e2]; [| reflexivity].
  destruct (zoomAugmentation _ _ _ e2) as [[zoomed | x] e3]; [| reflexivity].
  destruct (shiftAugmentation _ _ _ e3) as [[out | x] e4]; reflexivity.
Qed.

(** No transform replaces the generator behind [Math.random]. *)
Section Streams.

Variable imageData : Tensor3D.
Variable e : Entropy.

Lemma uniform_after_resolving {A : Type} (x : option A) :
  uniform (after_resolving x e) = uniform e.
Proof. now destruct x. Qed.

Lemma rotate_stream angle range :
  uniform (entropy_after (rotateAugmentation imageData angle range) e)
  = uniform e.
Proof.
  unfold entropy_after. rewrite rotate_run.
  repeat match goal with
         | |- context [if ?c then _ else _] => destruct c
         end; simpl; apply uniform_after_resolving.
Qed.

Lemma shear_stream factor range :
  uniform (entropy_after (shearAugmentation imageData factor range) e)
  = uniform e.
Proof.
  unfold entropy_after. rewrite shear_run.
  repeat match goal with
         | |- context [if ?c then _ else _] => destruct c
         end; simpl; apply uniform_after_resolving.
Qed.

Lemma zoom_stream factor range :
  uniform (entropy_after (zoomAugmentation imageData factor range) e)
  = uniform e.
Proof.
  unfold entropy_after. rewrite zoom_run.
  repeat match goal with
         | |- context [if ?c then _ else _] => destruct c
         end; simpl; apply uniform_after_resolving.
Qed.

Lemma shift_stream shift range :
  uniform (entropy_after (shiftAugmentation imageData shift range) e)
  = uniform e.
Proof.
  unfold entropy_after. rewrite shift_run.
  repeat match goal with
         | |- context [if ?c then _ else _] => destruct c
         end; simpl; destruct shift; reflexivity.
Qed.

End Streams.

Lemma stream_of_run (m : M Tensor3D) e r e' :
  uniform (entropy_after m e) = uniform e -> m e = (r, e') ->
  uniform e' = uniform e.
Proof. unfold entropy_after. intros H E. now rewrite E in H. Qed.

Lemma augment_stream imageData config e :
  uniform (entropy_after (augmentImage imageData config) e) = uniform e.
Proof.
  unfold entropy_after at 1. rewrite augment_run.
  set (c := orDefault config no_ranges).
  destruct (rotateAugmentation imageData None (rotationRange c) e)
    as [[rotated | x] e1] eqn:E1;
    apply (stream_of_run _ _ _ _ (rotate_stream _ _ _ _)) in E1;
    [| exact E1].
  destruct (shearAugmentation rotated None (shearRange c) e1)
    as [[sheared | x] e2] eqn:E2;
    apply (stream_of_run _ _ _ _ (shear_stream _ _ _ _)) in E2;
    [| cbn [snd]; now transitivity (uniform e1)].
  destruct (zoomAugmentation sheared None (zoomRange c) e2)
    as [[zoomed | x] e3] eqn:E3;
    apply (stream_of_run _ _ _ _ (zoom_stream _ _ _ _)) in E3;
    [| cbn [snd]; transitivity (uniform e2); [exact E3 |];
       now transitivity (uniform e1)].
  transitivity (uniform e3); [apply shift_stream |].
  transitivity (uniform e2); [exact E3 |].
  now transitivity (uniform e1).
Qed.



(** ** Sampling from the default ranges *)

Lemma returns_of_run (m : M Tensor3D) e P r e' :
  returns m e P -> m e = (r, e') -> exists out, r = Ok out /\ P out.
Proof. unfold returns, outcome. intros H E. now rewrite E in H. Qed.

Lemma valid_of_stream e e' :
  uniform e' = uniform e -> valid_entropy e -> valid_entropy e'.
Proof. unfold valid_entropy. now intros ->. Qed.

Lemma floor_bounds (x : Q) (lo hi : Z) :
  inject_Z lo <= x -> x < inject_Z (hi + 1) -> (lo <= Math.floor x <= hi)%Z.
Proof.
  intros Hlo Hhi. unfold Math.floor. split.
  - rewrite <- (Qfloor_Z lo). now apply Qfloor_resp_le.
  - apply Z.lt_succ_r. rewrite Zlt_Qlt.
    eapply Qle_lt_trans; [apply Qfloor_le | exact Hhi].
Qed.

Lemma sample_shift_default u :
  0 <= u -> u < 1 -> (Z.abs (sample_shift 4 u) <= 4)%Z.
Proof.
  intros Hlo Hhi. unfold sample_shift.
  assert (H : (0 <= Math.floor (u * inject_Z (4 * 2 + 1)) <= 8)%Z).
  { apply floor_bounds; simpl inject_Z.
    - change (inject_Z 0) with 0. change (inject_Z 9) with (9 # 1). lra.
    - change (inject_Z 9) with (9 # 1). lra. }
  lia.
Qed.

Section Defaults.

Variable e : Entropy.
Hypothesis He : valid_entropy e.

Lemma rotate_default h w imageData :
  has_shape h w imageData ->
  returns (rotateAugmentation imageData None None) e (has_shape h w).
Proof.
  intros Hs.
  destruct (rotate_keeps e h w imageData None None Hs) as [[msg H] | H];
    [exfalso | exact H].
  destruct (rotate_outcome imageData e None None)
    as [[Hbad _] | [_ (out & Hout & _)]].
  - destruct (He (upos e)) as [Hlo Hhi].
    cbn [resolved orDefault] in Hbad. unfold sample in Hbad.
    cbn [min max] in Hbad.
    apply Qlt_not_le in Hbad. apply Hbad.
    apply Qabs_Qle_condition. split; lra.
  - unfold throws in H. congruence.
Qed.

Lemma shear_default h w imageData :
  has_shape h w imageData ->
  returns (shearAugmentation imageData None None) e (has_shape h w).
Proof.
  intros Hs.
  destruct (shear_keeps e h w imageData None None Hs) as [[msg H] | H];
    [exfalso | exact H].
  destruct (shear_outcome imageData e None None)
    as [[Hbad _] | [_ (out & Hout & _)]].
  - destruct (He (upos e)) as [Hlo Hhi].
    cbn [resolved orDefault] in Hbad. unfold sample in Hbad.
    cbn [min max] in Hbad. lra.
  - unfold throws in H. congruence.
Qed.

Lemma zoom_default imageData :
  has_shape 28 28 imageData ->
  returns (zoomAugmentation imageData None None) e (has_shape 28 28).
Proof.
  intros Hs.
  destruct (zoom_keeps e imageData None None Hs) as [[msg H] | H];
    [exfalso | exact H].
  destruct (zoom_outcome imageData e None None)
    as [[Hbad _] | [_ (out & Hout & _)]].
  - destruct (He (upos e)) as [Hlo Hhi].
    cbn [resolved orDefault] in Hbad. unfold sample in Hbad.
    cbn [min max] in Hbad. lra.
  - unfold throws in H. congruence.
Qed.

Lemma shift_default imageData :
  has_shape 28 28 imageData ->
  returns (shiftAugmentation imageData None None) e (has_shape 28 28).
Proof.
  intros Hs.
  destruct (shift_keeps e imageData None None Hs) as [[msg H] | H];
    [exfalso | exact H].
  destruct (He (upos e)) as [Hlo Hhi].
  destruct (He (S (upos e))) as [Hlo' Hhi'].
  pose proof (sample_shift_default _ Hlo Hhi) as Hw.
  pose proof (sample_shift_default _ Hlo' Hhi') as Hh.
  destruct (shift_outcome imageData e None None)
    as [[Hbad _] | [(_ & Hbad & _) | (_ & _ & Hout)]];
    cbn [resolved after_resolving option_map orDefault width height
         use_uniform uniform upos] in *.
  - lia.
  - lia.
  - unfold throws in H. rewrite Hout in H.
    destruct (shifted_ok 28 28 imageData
                (sample_shift 4 (uniform e (upos e)))
                (sample_shift 4 (uniform e (S (upos e)))) Hs)
      as (out & Hok & _); [lia | lia |].
    congruence.
Qed.

End Defaults.

(** ** Parameters inside the domain bound are accepted *)

Section Accepted.

Variable e : Entropy.

Lemma rotate_accepts h w imageData angle range :
  has_shape h w imageData ->
  Qabs (resolved angle (sample (orDefault range {| min := -15; max := 15 |})) e)
    <= 15 ->
  returns (rotateAugmentation imageData angle range) e (has_shape h w).
Proof.
  intros Hs Ha.
  destruct (rotate_keeps e h w imageData angle range Hs)
    as [[msg H] | H]; [exfalso | exact H].
  destruct (rotate_outcome imageData e angle range)
    as [[Hbad _] | [_ (out & Hout & _)]];
    [cbv zeta in Hbad; lra | unfold throws in H; congruence].
Qed.

Lemma shear_accepts h w imageData factor range :
  has_shape h w imageData ->
  - (1 # 5)
    <= resolved factor
         (sample (orDefault range {| min := - (1 # 5); max := 1 # 5 |})) e ->
  resolved factor
    (sample (orDefault range {| min := - (1 # 5); max := 1 # 5 |})) e <= 1 # 5 ->
  returns (shearAugmentation imageData factor range) e (has_shape h w).
Proof.
  intros Hs Hlo Hhi.
  destruct (shear_keeps e h w imageData factor range Hs)
    as [[msg H] | H]; [exfalso | exact H].
  destruct (shear_outcome imageData e factor range)
    as [[Hbad _] | [_ (out & Hout & _)]];
    [cbv zeta in Hbad; lra | unfold throws in H; congruence].
Qed.



End Accepted.

Lemma draw_advanced k e e' j : advanced k e e' -> draw e' j = draw e (k + j).
Proof.
  intros [Hu Hp]. unfold draw. rewrite Hu, Hp. f_equal. lia.
Qed.

Lemma advanced_trans j k e e' e'' :
  advanced j e e' -> advanced k e' e'' -> advanced (j + k) e e''.
Proof.
  intros [Hu Hp] [Hu' Hp']. split; [congruence | lia].
Qed.

Section Advancing.

Variable imageData : Tensor3D.
Variable e : Entropy.

(** A sampled rotation that returns has read its own draw and, when it
    added noise, the seed of the normal generator. *)
Lemma rotate_advances range out e' :
  rotateAugmentation imageData None range e = (Ok out, e') ->
  advanced
    (if (Qabs (sample (orDefault range {| min := -15; max := 15 |}) (draw e 0))
         <? 1 # 10)%js then 1 else 2) e e'.
Proof.
  rewrite rotate_run. cbn [after_resolving resolved].
  unfold draw. rewrite Nat.add_0_r.
  destruct (Qabs _ >? 15)%js; [discriminate |].
  destruct (Qabs _ <? 1 # 10)%js; intros [= _ <-]; split; simpl; auto; lia.
Qed.


Lemma shear_advances range out e' :
  shearAugmentation imageData None range e = (Ok out, e') ->
  advanced
    (if (Qabs (sample (orDefault range {| min := - (1 # 5); max := 1 # 5 |})
                 (draw e 0)) <? 1 # 1000)%js then 1 else 2) e e'.
Proof.
  rewrite shear_run. cbn [after_resolving resolved].
  unfold draw. rewrite Nat.add_0_r.
  destruct (_ || _)%bool; [discriminate |].
  destruct (Qabs _ <? 1 # 1000)%js; intros [= _ <-]; split; simpl; auto; lia.
Qed.


Lemma zoom_advances range r e' :
  zoomAugmentation imageData None range e = (r, e') -> advanced 1 e e'.
Proof.
  rewrite zoom_run. cbn [after_resolving].
  repeat match goal with
         | |- context [if ?c then _ else _] => destruct c
         end; intros [= _ <-]; split; simpl; auto; lia.
Qed.


End Advancing.

Lemma advanced_zero e e' k : advanced k e e' -> draw e' 0 = draw e k.
Proof. intros A. rewrite (draw_advanced _ _ _ _ A). now rewrite Nat.add_0_r. Qed.

Lemma advanced_here e e' k : advanced k e e' -> uniform e' (upos e') = draw e k.
Proof. intros [Hu Hp]. unfold draw. now rewrite Hu, Hp. Qed.

Lemma advanced_next e e' k :
  advanced k e e' -> uniform e' (S (upos e')) = draw e (k + 1).
Proof. intros [Hu Hp]. unfold draw. rewrite Hu, Hp. f_equal. lia. Qed.

(** The entropies between the stages of a pipeline that samples parameters
    inside their bounds. *)
Lemma rotate_to_shear imageData c e out e1 :
  rotateAugmentation imageData None (rotationRange c) e = (Ok out, e1) ->
  advanced (shear_draw c e) e e1.
Proof. intros E. exact (rotate_advances _ _ _ _ _ E). Qed.

Lemma shear_to_zoom imageData c e e1 out e2 :
  advanced (shear_draw c e) e e1 ->
  shearAugmentation imageData None (shearRange c) e1 = (Ok out, e2) ->
  advanced (zoom_draw c e) e e2.
Proof.
  intros A1 E. pose proof (shear_advances _ _ _ _ _ E) as A2.
  rewrite (advanced_zero _ _ _ A1) in A2.
  exact (advanced_trans _ _ _ _ _ A1 A2).
Qed.

Lemma zoom_accepts_any e H W imageData factor range :
  has_shape H W imageData -> (28 <= H)%nat -> (28 <= W)%nat ->
  4 # 5
    <= resolved factor
         (sample (orDefault range {| min := 4 # 5; max := 6 # 5 |})) e ->
  resolved factor
    (sample (orDefault range {| min := 4 # 5; max := 6 # 5 |})) e <= 6 # 5 ->
  returns (zoomAugmentation imageData factor range) e
    (fun out => exists H' W',
       (28 <= H')%nat /\ (28 <= W')%nat /\ has_shape H' W' out).
Proof.
  intros Hs HH HW Hlo Hhi.
  destruct (zoom_outcome imageData e factor range)
    as [[Hbad _] | [_ (out & Hout & Hcase)]]; [cbv zeta in Hbad; lra |].
  exists out. split; [exact Hout |].
  destruct Hcase as [-> | Hres]; [now exists H, W |].
  destruct (rescaled_ok imageData _ Hlo Hhi) as (out' & Hout' & Hshape).
  exists 28%nat, 28%nat. split; [lia |]. split; [lia |]. congruence.
Qed.

Lemma shift_accepts_any e H W imageData shift range :
  has_shape H W imageData -> (28 <= H)%nat -> (28 <= W)%nat ->
  (Z.abs (resolved (option_map width shift)
            (sample_shift
               (width (orDefault range {| width := 4; height := 4 |}))) e)
   <= 4)%Z ->
  (Z.abs (resolved (option_map height shift)
            (sample_shift
               (height (orDefault range {| width := 4; height := 4 |})))
            (after_resolving (option_map width shift) e))
   <= 4)%Z ->
  returns (shiftAugmentation imageData shift range) e (has_shape 28 28).
Proof.
  intros Hs HH HW Hw Hh.
  destruct (shift_outcome imageData e shift range)
    as [[Hbad _] | [(_ & Hbad & _) | (_ & _ & Hout)]];
    [cbv zeta in Hbad; lia | cbv zeta in Hbad; lia |].
  unfold returns. rewrite Hout.
  apply (shifted_ok H W); assumption.
Qed.

Lemma draw_positions c e :
  (1 <= shear_draw c e <= 2)%nat
  /\ (shear_draw c e + 1 <= zoom_draw c e <= shear_draw c e + 2)%nat.
Proof.
  unfold zoom_draw, shear_draw. cbv zeta.
  repeat match goal with
         | |- context [if ?c then _ else _] => destruct c
         end; lia.
Qed.

Lemma augment_accepts_any H W imageData config e :
  has_shape H W imageData -> (28 <= H)%nat -> (28 <= W)%nat ->
  sampled_in_range (orDefault config no_ranges) e ->
  returns (augmentImage imageData config) e (has_shape 28 28).
Proof.
  intros Hs HH HW Hin.
  set (c := orDefault config no_ranges) in *.
  destruct (draw_positions c e) as [P1 P2].
  destruct (Hin (shear_draw c e) (zoom_draw c e) P1 P2)
    as (Hr & [Hs1 Hs2] & [Hz1 Hz2] & Hw & Hh).
  unfold returns, outcome. rewrite augment_run. fold c.
  assert (D0 : draw e 0 = uniform e (upos e))
    by (unfold draw; now rewrite Nat.add_0_r).
  destruct (rotateAugmentation imageData None (rotationRange c) e)
    as [r1 e1] eqn:E1.
  destruct (returns_of_run _ _ _ _ _
              (rotate_accepts e H W imageData None (rotationRange c) Hs
                 ltac:(cbn [resolved]; now rewrite <- D0)) E1)
    as (rotated & -> & S1).
  pose proof (rotate_to_shear _ _ _ _ _ E1) as A1.
  pose proof (advanced_here _ _ _ A1) as D1.
  destruct (shearAugmentation rotated None (shearRange c) e1)
    as [r2 e2] eqn:E2.
  destruct (returns_of_run _ _ _ _ _
              (shear_accepts e1 H W rotated None (shearRange c) S1
                 ltac:(cbn [resolved]; now rewrite D1)
                 ltac:(cbn [resolved]; now rewrite D1)) E2)
    as (sheared & -> & S2).
  pose proof (shear_to_zoom _ _ _ _ _ _ A1 E2) as A2.
  pose proof (advanced_here _ _ _ A2) as D2.
  destruct (zoomAugmentation sheared None (zoomRange c) e2)
    as [r3 e3] eqn:E3.
  pose proof (advanced_trans _ _ _ _ _ A2 (zoom_advances _ _ _ _ _ E3)) as A3.
  destruct (returns_of_run _ _ _ _ _
              (zoom_accepts_any e2 H W sheared None (zoomRange c) S2 HH HW
                 ltac:(cbn [resolved]; now rewrite D2)
                 ltac:(cbn [resolved]; now rewrite D2)) E3)
    as (zoomed & -> & H' & W' & HH' & HW' & S3).
  pose proof (advanced_here _ _ _ A3) as D3.
  pose proof (advanced_next _ _ _ A3) as D4.
  replace (zoom_draw c e + 1 + 1)%nat with (zoom_draw c e + 2)%nat in D4
    by lia.
  apply (shift_accepts_any e3 H' W'); [exact S3 | exact HH' | exact HW' | |];
    cbn [resolved after_resolving option_map use_uniform uniform upos].
  - now rewrite D3.
  - now rewrite D4.
Qed.


Lemma augment_default imageData e :
  valid_entropy e -> has_shape 28 28 imageData ->
  returns (augmentImage imageData None) e (has_shape 28 28).
Proof.
  intros He Hs. unfold returns, outcome. rewrite augment_run.
  cbn [orDefault no_ranges rotationRange shearRange zoomRange shiftRange].
  destruct (rotateAugmentation imageData None None e) as [r1 e1] eqn:E1.
  destruct (returns_of_run _ _ _ _ _ (rotate_default e He _ _ _ Hs) E1)
    as (rotated & -> & S1).
  apply (stream_of_run _ _ _ _ (rotate_stream _ _ _ _)) in E1.
  pose proof (valid_of_stream _ _ E1 He) as He1.
  destruct (shearAugmentation rotated None None e1) as [r2 e2] eqn:E2.
  destruct (returns_of_run _ _ _ _ _ (shear_default e1 He1 _ _ _ S1) E2)
    as (sheared & -> & S2).
  apply (stream_of_run _ _ _ _ (shear_stream _ _ _ _)) in E2.
  pose proof (valid_of_stream _ _ E2 He1) as He2.
  destruct (zoomAugmentation sheared None None e2) as [r3 e3] eqn:E3.
  destruct (returns_of_run _ _ _ _ _ (zoom_default e2 He2 _ S2) E3)
    as (zoomed & -> & S3).
  apply (stream_of_run _ _ _ _ (zoom_stream _ _ _ _)) in E3.
  pose proof (valid_of_stream _ _ E3 He2) as He3.
  exact (shift_default e3 He3 zoomed S3).
Qed.

(** ** Repeated invocation *)

Lemma consecutive_default n imageData e :
  valid_entropy e -> has_shape 28 28 imageData ->
  Forall (fun r => exists out, r = Ok out /\ has_shape 28 28 out)
    (consecutive n (augmentImage imageData None) e).
Proof.
  intros He Hs. revert e He.
  induction n as [| n IH]; intros e He; simpl; constructor.
  - exact (augment_default imageData e He Hs).
  - apply IH. eapply valid_of_stream; [apply augment_stream | exact He].
Qed.

(** ** Cropping after padding *)

Lemma map_fixed {A : Type} (f : A -> A) (l : list A) :
  Forall (fun x => f x = x) l -> map f l = l.
Proof.
  induction 1 as [| x l Hx _ IH]; simpl; [reflexivity | now rewrite Hx, IH].
Qed.

(** Padding after the last row and the last column is cut off again by the
    crop to the window at the origin. *)
Lemma crop_discards_trailing_pad t bottom right :
  has_shape 28 28 t ->
  tf.slice3d (tf.pad3d t 0 bottom 0 right 0) 0 0 28 28 = Ok t.
Proof.
  intros Hs. unfold tf.slice3d.
  pose proof (has_shape_pad3d 28 28 t 0 bottom 0 right 0 Hs ltac:(lia)) as Hp.
  rewrite (shape_of_has_shape _ _ _ Hp) by lia. cbn [fst snd].
  replace ((0 + 28 <=? 0 + 28 + bottom)%nat) with true
    by (symmetry; apply Nat.leb_le; lia).
  replace ((0 + 28 <=? 0 + 28 + right)%nat) with true
    by (symmetry; apply Nat.leb_le; lia).
  cbn [andb].
  unfold tf.pad3d. cbn [repeat app skipn].
  destruct Hs as [L F].
  rewrite firstn_app, length_map, L, Nat.sub_diag, firstn_O, app_nil_r.
  rewrite firstn_all2 by (rewrite length_map; lia).
  rewrite map_map. apply (f_equal Ok). apply map_fixed.
  eapply Forall_impl; [| exact F]. intros row Hrow; cbn beta in *.
  cbn [app skipn].
  rewrite firstn_app, Hrow, Nat.sub_diag, firstn_O, app_nil_r.
  apply firstn_all2. lia.
Qed.

(** ** The identity configuration *)

Lemma rotate_collapsed imageData e :
  rotateAugmentation imageData None (Some {| min := 0; max := 0 |}) e
  = (Ok imageData, use_uniform e).
Proof.
  rewrite rotate_run. cbn [resolved after_resolving orDefault].
  unfold sample; cbn [min max].
  set (a := uniform e (upos e) * (0 - 0) + 0).
  assert (Ha : a == 0) by (unfold a; ring).
  assert (H1 : (Qabs a >? 15)%js = false).
  { apply Qlt_bool_false_iff. rewrite Ha. discriminate. }
  assert (H2 : (Qabs a <? 1 # 10)%js = true).
  { apply Qlt_bool_iff. rewrite Ha. reflexivity. }
  now rewrite H1, H2.
Qed.

Lemma shear_collapsed imageData e :
  shearAugmentation imageData None (Some {| min := 0; max := 0 |}) e
  = (Ok imageData, use_uniform e).
Proof.
  rewrite shear_run. cbn [resolved after_resolving orDefault].
  unfold sample; cbn [min max].
  set (s := uniform e (upos e) * (0 - 0) + 0).
  assert (Hs : s == 0) by (unfold s; ring).
  assert (H1 : (s <? - (1 # 5))%js = false).
  { apply Qlt_bool_false_iff. rewrite Hs. discriminate. }
  assert (H2 : (s >? 1 # 5)%js = false).
  { apply Qlt_bool_false_iff. rewrite Hs. discriminate. }
  assert (H3 : (Qabs s <? 1 # 1000)%js = true).
  { apply Qlt_bool_iff. rewrite Hs. reflexivity. }
  now rewrite H1, H2, H3.
Qed.

Lemma zoom_collapsed imageData e :
  zoomAugmentation imageData None (Some {| min := 1; max := 1 |}) e
  = (Ok imageData, use_uniform e).
Proof.
  rewrite zoom_run. cbn [resolved after_resolving orDefault].
  unfold sample; cbn [min max].
  set (z := uniform e (upos e) * (1 - 1) + 1).
  assert (Hz : z == 1) by (unfold z; ring).
  assert (H1 : (z <? 4 # 5)%js = false).
  { apply Qlt_bool_false_iff. rewrite Hz. discriminate. }
  assert (H2 : (z >? 6 # 5)%js = false).
  { apply Qlt_bool_false_iff. rewrite Hz. discriminate. }
  assert (H3 : (Qabs (z - 1) <? 1 # 1000)%js = true).
  { apply Qlt_bool_iff. rewrite Hz. reflexivity. }
  now rewrite H1, H2, H3.
Qed.

Lemma sample_shift_collapsed u : 0 <= u -> u < 1 -> sample_shift 0 u = 0%Z.
Proof.
  intros Hlo Hhi. unfold sample_shift.
  assert (H : (0 <= Math.floor (u * inject_Z (0 * 2 + 1)) <= 0)%Z).
  { apply floor_bounds; simpl inject_Z.
    - change (inject_Z 0) with 0. change (inject_Z 1) with 1. lra.
    - change (inject_Z 1) with 1. lra. }
  lia.
Qed.

Lemma shift_collapsed imageData e :
  valid_entropy e -> has_shape 28 28 imageData ->
  outcome (shiftAugmentation imageData None
             (Some {| width := 0; height := 0 |})) e = Ok imageData.
Proof.
  intros He Hs. unfold outcome. rewrite shift_run.
  cbn [resolved after_resolving option_map orDefault width height
       use_uniform uniform upos].
  destruct (He (upos e)) as [Hlo Hhi].
  destruct (He (S (upos e))) as [Hlo' Hhi'].
  rewrite !sample_shift_collapsed by assumption.
  cbn [Z.abs Z.gtb Z.compare fst].
  change (before_pad 0) with 0%nat. change (after_pad 0) with 0%nat.
  now apply crop_discards_trailing_pad.
Qed.

(** ** Shifting *)

Lemma has_shape_stripe c : has_shape 28 28 (stripe c).
Proof. apply has_shape_tabulate. Qed.

(** The pixels of a padded tensor inside the crop window. *)
Lemma pixel_pad3d t top bottom left right i j :
  has_shape 28 28 t -> (i < top + 28)%nat -> (j < left + 28)%nat ->
  pixel (tf.pad3d t top bottom left right 0) i j
  = if ((top <=? i) && (left <=? j))%nat
    then pixel t (i - top) (j - left)
    else 0.
Proof.
  intros Hs Hi Hj. unfold pixel, tf.pad3d.
  rewrite (shape_of_has_shape _ _ _ Hs) by lia. cbn [snd].
  destruct Hs as [L F].
  destruct (Nat.leb_spec top i) as [Hti | Hti]; cbn [andb].
  - rewrite app_nth2 by (rewrite repeat_length; lia).
    rewrite repeat_length.
    rewrite app_nth1 by (rewrite length_map; lia).
    rewrite (nth_indep _ [] (repeat 0 left ++ [] ++ repeat 0 right))
      by (rewrite length_map; lia).
    rewrite (map_nth (fun row => repeat 0 left ++ row ++ repeat 0 right) t []).
    pose proof (proj1 (Forall_nth _ _) F (i - top)%nat [] ltac:(lia)) as Hrow.
    cbn beta in Hrow.
    destruct (Nat.leb_spec left j) as [Hlj | Hlj].
    + rewrite app_nth2 by (rewrite repeat_length; lia).
      rewrite repeat_length.
      now rewrite app_nth1 by lia.
    + rewrite app_nth1 by (rewrite repeat_length; lia).
      now apply nth_repeat_lt.
  - rewrite app_nth1 by (rewrite repeat_length; lia).
    rewrite (nth_repeat_lt _ [] Hti).
    destruct (Nat.lt_ge_cases j (left + 28 + right)) as [Hin | Hout].
    + now apply nth_repeat_lt.
    + apply nth_overflow. now rewrite repeat_length.
Qed.

Lemma slice3d_window H W t :
  has_shape H W t -> (28 <= H)%nat -> (28 <= W)%nat ->
  tf.slice3d t 0 0 28 28 = Ok (window t).
Proof.
  intros Hs HH HW. unfold tf.slice3d.
  rewrite (shape_of_has_shape _ _ _ Hs) by lia. cbn [fst snd].
  replace ((0 + 28 <=? H)%nat) with true by (symmetry; apply Nat.leb_le; lia).
  replace ((0 + 28 <=? W)%nat) with true by (symmetry; apply Nat.leb_le; lia).
  reflexivity.
Qed.

Lemma pixel_window t i j :
  (i < 28)%nat -> (j < 28)%nat -> pixel (window t) i j = pixel t i j.
Proof.
  intros Hi Hj. unfold pixel, window.
  replace (nth i (map (fun row : list Q => firstn 28 row) (firstn 28 t)) [])
    with (firstn 28 (nth i (firstn 28 t) []))
    by (symmetry; apply (map_nth (fun row : list Q => firstn 28 row) _ [] i)).
  rewrite !nth_firstn.
  apply Nat.ltb_lt in Hi, Hj. now rewrite Hi, Hj.
Qed.

(** What [shiftAugmentation] computes for every accepted shift: the
    translation by the positive parts of the shift. A negative component
    moves nothing. *)
Lemma shift_translates_by_positive_parts imageData w h range e :
  has_shape 28 28 imageData ->
  (Z.abs w <= 4)%Z -> (Z.abs h <= 4)%Z ->
  outcome (shiftAugmentation imageData
             (Some {| width := w; height := h |}) range) e
  = Ok (translate imageData (Z.max w 0) (Z.max h 0)).
Proof.
  intros Hs Hw Hh.
  destruct (shift_outcome imageData e (Some {| width := w; height := h |}) range)
    as [[Hbad _] | [(_ & Hbad & _) | (_ & _ & Hout)]];
    cbn [resolved after_resolving option_map width height] in *;
    [lia | lia |].
  rewrite Hout.
  destruct (shifted_ok 28 28 imageData w h Hs) as (out & Hok & Hso);
    [lia | lia |].
  pose proof (has_shape_pad3d 28 28 imageData (before_pad h) (after_pad h)
                (before_pad w) (after_pad w) 0 Hs ltac:(lia)) as Hp.
  rewrite (slice3d_window _ _ _ Hp) in Hok |- * by lia.
  injection Hok as <-. apply (f_equal Ok).
  set (dw := Z.max w 0). set (dh := Z.max h 0).
  assert (Hst : has_shape 28 28 (translate imageData dw dh)).
  { unfold translate. rewrite (shape_of_has_shape _ _ _ Hs) by lia.
    apply has_shape_tabulate. }
  apply (tensor_ext 28 28); [exact Hso | exact Hst |].
  intros i j Hi Hj.
  rewrite (pixel_window _ _ _ Hi Hj).
  assert (Hbh : before_pad h = Z.to_nat dh).
  { unfold before_pad, dh. destruct (Z.gtb_spec h 0); f_equal; lia. }
  assert (Hbw : before_pad w = Z.to_nat dw).
  { unfold before_pad, dw. destruct (Z.gtb_spec w 0); f_equal; lia. }
  rewrite pixel_pad3d by (try exact Hs; lia).
  unfold translate. rewrite (shape_of_has_shape _ _ _ Hs) by lia.
  rewrite pixel_tabulate by assumption. cbv zeta.
  rewrite Hbh, Hbw.
  assert (Hdw : (0 <= dw <= 4)%Z) by (unfold dw; lia).
  assert (Hdh : (0 <= dh <= 4)%Z) by (unfold dh; lia).
  destruct (Nat.leb_spec (Z.to_nat dh) i) as [Hhi | Hhi];
    destruct (Nat.leb_spec (Z.to_nat dw) j) as [Hwj | Hwj]; cbn [andb].
  - replace ((0 <=? Z.of_nat i - dh)%Z) with true
      by (symmetry; apply Z.leb_le; lia).
    replace ((Z.of_nat i - dh <? Z.of_nat 28)%Z) with true
      by (symmetry; apply Z.ltb_lt; lia).
    replace ((0 <=? Z.of_nat j - dw)%Z) with true
      by (symmetry; apply Z.leb_le; lia).
    replace ((Z.of_nat j - dw <? Z.of_nat 28)%Z) with true
      by (symmetry; apply Z.ltb_lt; lia).
    cbn [andb]. f_equal; lia.
  - replace ((0 <=? Z.of_nat j - dw)%Z) with false
      by (symmetry; apply Z.leb_gt; lia).
    now rewrite andb_false_r.
  - replace ((0 <=? Z.of_nat i - dh)%Z) with false
      by (symmetry; apply Z.leb_gt; lia).
    reflexivity.
  - replace ((0 <=? Z.of_nat i - dh)%Z) with false
      by (symmetry; apply Z.leb_gt; lia).
    reflexivity.
Qed.

(** For shifts to the right and downwards the code performs the translation. *)
Corollary shift_nonnegative_translates imageData w h range e :
  has_shape 28 28 imageData ->
  (0 <= w <= 4)%Z -> (0 <= h <= 4)%Z ->
  outcome (shiftAugmentation imageData
             (Some {| width := w; height := h |}) range) e
  = Ok (translate imageData w h).
Proof.
  intros Hs Hw Hh.
  rewrite shift_translates_by_positive_parts by (try exact Hs; lia).
  now rewrite !Z.max_l by lia.
Qed.

(** For shifts to the left and upwards the code returns the input: the
    padding goes after the last column and the last row, where the crop to
    the window at the origin removes it again. *)
Lemma shift_nonpositive_returns_input imageData w h range e :
  has_shape 28 28 imageData ->
  (-4 <= w <= 0)%Z -> (-4 <= h <= 0)%Z ->
  outcome (shiftAugmentation imageData
             (Some {| width := w; height := h |}) range) e
  = Ok imageData.
Proof.
  intros Hs Hw Hh.
  destruct (shift_outcome imageData e (Some {| width := w; height := h |}) range)
    as [[Hbad _] | [(_ & Hbad & _) | (_ & _ & Hout)]];
    cbn [resolved after_resolving option_map width height] in *;
    [lia | lia |].
  rewrite Hout.
  assert (Hbh : before_pad h = 0%nat).
  { unfold before_pad. destruct (Z.gtb_spec h 0); [lia | reflexivity]. }
  assert (Hbw : before_pad w = 0%nat).
  { unfold before_pad. destruct (Z.gtb_spec w 0); [lia | reflexivity]. }
  rewrite Hbh, Hbw. now apply crop_discards_trailing_pad.
Qed.

(** ** Intensities after each transform *)

Lemma in_unit_ones n : in_unit_range (ones n).
Proof.
  apply Forall_forall; intros row Hr. apply repeat_spec in Hr; subst.
  apply Forall_forall; intros x Hx. apply repeat_spec in Hx; subst. lra.
Qed.

Section Intensities.

Variable imageData : Tensor3D.
Variable e : Entropy.
Hypothesis Hunit : in_unit_range imageData.

Lemma rotate_in_unit angle range out :
  outcome (rotateAugmentation imageData angle range) e = Ok out ->
  in_unit_range out.
Proof.
  intros H.
  destruct (rotate_outcome imageData e angle range)
    as [[_ Hthrow] | [_ (out' & Hout & Hcase)]].
  - unfold throws in Hthrow. congruence.
  - assert (out' = out) by congruence; subst out'.
    destruct Hcase as [-> | ->]; [exact Hunit | apply in_unit_noisy].
Qed.

Lemma shear_in_unit factor range out :
  outcome (shearAugmentation imageData factor range) e = Ok out ->
  in_unit_range out.
Proof.
  intros H.
  destruct (shear_outcome imageData e factor range)
    as [[_ Hthrow] | [_ (out' & Hout & Hcase)]].
  - unfold throws in Hthrow. congruence.
  - assert (out' = out) by congruence; subst out'.
    destruct Hcase as [-> | ->]; [exact Hunit | apply in_unit_noisy].
Qed.

Lemma zoom_in_unit factor range out :
  outcome (zoomAugmentation imageData factor range) e = Ok out ->
  in_unit_range out.
Proof.
  intros H.
  destruct (zoom_outcome imageData e factor range)
    as [[_ Hthrow] | [_ (out' & Hout & Hcase)]].
  - unfold throws in Hthrow. congruence.
  - assert (out' = out) by congruence; subst out'.
    destruct Hcase as [-> | Hres]; [exact Hunit |].
    eapply in_unit_rescaled; [exact Hunit | exact Hres].
Qed.

Lemma shift_in_unit shift range out :
  outcome (shiftAugmentation imageData shift range) e = Ok out ->
  in_unit_range out.
Proof.
  intros H.
  destruct (shift_outcome imageData e shift range)
    as [[_ Hthrow] | [(_ & _ & Hthrow) | (_ & _ & Hout)]].
  - unfold throws in Hthrow. congruence.
  - unfold throws in Hthrow. congruence.
  - rewrite Hout in H.
    eapply in_unit_slice3d; [| exact H]. now apply in_unit_pad3d.
Qed.

End Intensities.

(** * The pipeline against its specification *)

(** ** Rotation *)

(** C1 at a failing input: "rotating" the blank 28 x 28 canvas by 15 degrees
    yields the intensity 0.15 at the centre when the normal samples are 1,
    and 0 when they are 0; a rotation of a blank canvas about its centre is
    blank, and does not depend on a random draw. *)
Theorem rotate_blank_canvas_adds_noise :
  (exists out,
     outcome (rotateAugmentation (blank 28) (Some 15) None) loud = Ok out
     /\ pixel out 14 14 == 3 # 20)
  /\ (exists out,
        outcome (rotateAugmentation (blank 28) (Some 15) None) quiet = Ok out
        /\ pixel out 14 14 == 0).
Proof.
  split; eexists; (split; [vm_compute; reflexivity | vm_compute; reflexivity]).
Qed.

(** ** Shear *)

(** C2 at a failing input: "shearing" the blank 28 x 28 canvas by 0.2 yields
    the intensity 0.02 at the centre when the normal samples are 1, where the
    shear mapping of the blank canvas is 0. *)
Theorem shear_blank_canvas_adds_noise :
  exists out,
    outcome (shearAugmentation (blank 28) (Some (1 # 5)) None) loud = Ok out
    /\ pixel out 14 14 == 1 # 50
    /\ pixel (shear_mapping (1 # 5) (blank 28)) 14 14 == 0.
Proof.
  eexists; repeat split; vm_compute; reflexivity.
Qed.

(** ** Explicit values and custom ranges *)

(** C3 as stated fails: an explicit value is not validated against the
    custom range. The angle 12 lies outside the custom range [-10, 10],
    which is strictly inside the domain bound, and the call returns a tensor
    instead of throwing. *)
Lemma custom_range_is_not_enforced :
  (-15 < -10 /\ 10 < 15)
  /\ (10 < 12 /\ Qabs 12 <= 15)
  /\ (exists out,
        outcome (rotateAugmentation (ones 28) (Some 12)
                   (Some {| min := -10; max := 10 |})) quiet = Ok out)
  /\ ~ (exists msg,
          throws (rotateAugmentation (ones 28) (Some 12)
                    (Some {| min := -10; max := 10 |})) quiet msg).
Proof.
  split; [split; reflexivity |].
  split; [split; [reflexivity | discriminate] |].
  destruct (rotate_outcome (ones 28) quiet (Some 12)
              (Some {| min := -10; max := 10 |})) as [[H _] | [_ (out & H & _)]].
  - discriminate H.
  - split; [now exists out |].
    intros [msg Hthrow]. unfold throws in Hthrow. congruence.
Qed.

(** C3, as the code has it: an explicit value is validated against the
    fixed domain bound only. Whatever custom range accompanies it, the call
    behaves as without one, and returns a tensor whenever the value is inside
    the domain bound. *)
Theorem explicit_value_is_checked_against_domain_bound
    (imageData : Tensor3D) (e : Entropy) (custom : Range) :
  (forall angle,
     rotateAugmentation imageData (Some angle) (Some custom) e
     = rotateAugmentation imageData (Some angle) None e)
  /\ (forall factor,
        zoomAugmentation imageData (Some factor) (Some custom) e
        = zoomAugmentation imageData (Some factor) None e)
  /\ (forall factor,
        shearAugmentation imageData (Some factor) (Some custom) e
        = shearAugmentation imageData (Some factor) None e)
  /\ (forall angle, Qabs angle <= 15 ->
        exists out,
          outcome (rotateAugmentation imageData (Some angle) (Some custom)) e
          = Ok out)
  /\ (forall factor, 4 # 5 <= factor -> factor <= 6 # 5 ->
        exists out,
          outcome (zoomAugmentation imageData (Some factor) (Some custom)) e
          = Ok out)
  /\ (forall factor, - (1 # 5) <= factor -> factor <= 1 # 5 ->
        exists out,
          outcome (shearAugmentation imageData (Some factor) (Some custom)) e
          = Ok out).
Proof.
  repeat match goal with |- _ /\ _ => split end.
  - intros angle. now rewrite !rotate_run.
  - intros factor. now rewrite !zoom_run.
  - intros factor. now rewrite !shear_run.
  - intros angle H.
    destruct (rotate_outcome imageData e (Some angle) (Some custom))
      as [[Hout _] | [_ (out & Hout & _)]]; simpl in *; [lra | now exists out].
  - intros factor Hlo Hhi.
    destruct (zoom_outcome imageData e (Some factor) (Some custom))
      as [[Hout _] | [_ (out & Hout & _)]]; simpl in *; [lra | now exists out].
  - intros factor Hlo Hhi.
    destruct (shear_outcome imageData e (Some factor) (Some custom))
      as [[Hout _] | [_ (out & Hout & _)]]; simpl in *; [lra | now exists out].
Qed.

(** At the all-ones canvas: an angle, a zoom and a shear outside a custom range
    and inside the domain bound. *)
Lemma explicit_value_is_checked_against_domain_bound_witness :
  Qabs 12 <= 15
  /\ (4 # 5 <= 23 # 20 /\ 23 # 20 <= 6 # 5)
  /\ (- (1 # 5) <= 3 # 20 /\ 3 # 20 <= 1 # 5)
  /\ (exists out,
        outcome (rotateAugmentation (ones 28) (Some 12)
                   (Some {| min := -10; max := 10 |})) quiet = Ok out)
  /\ (exists out,
        outcome (zoomAugmentation (ones 28) (Some (23 # 20))
                   (Some {| min := 9 # 10; max := 11 # 10 |})) quiet = Ok out)
  /\ (exists out,
        outcome (shearAugmentation (ones 28) (Some (3 # 20))
                   (Some {| min := - (1 # 10); max := 1 # 10 |})) quiet = Ok out).
Proof.
  assert (H1 : Qabs 12 <= 15) by discriminate.
  assert (H2 : 4 # 5 <= 23 # 20) by discriminate.
  assert (H3 : 23 # 20 <= 6 # 5) by discriminate.
  assert (H4 : - (1 # 5) <= 3 # 20) by discriminate.
  assert (H5 : 3 # 20 <= 1 # 5) by discriminate.
  refine (conj H1 (conj (conj H2 H3) (conj (conj H4 H5) (conj _ (conj _ _))))).
  - exact (proj1 (proj2 (proj2 (proj2
             (explicit_value_is_checked_against_domain_bound (ones 28) quiet
                {| min := -10; max := 10 |})))) 12 H1).
  - exact (proj1 (proj2 (proj2 (proj2 (proj2
             (explicit_value_is_checked_against_domain_bound (ones 28) quiet
                {| min := 9 # 10; max := 11 # 10 |}))))) (23 # 20) H2 H3).
  - exact (proj2 (proj2 (proj2 (proj2 (proj2
             (explicit_value_is_checked_against_domain_bound (ones 28) quiet
                {| min := - (1 # 10); max := 1 # 10 |}))))) (3 # 20) H4 H5).
Defined.

(** ** Dimensions of the output *)




(** ** Range violations *)

(** C5: an explicitly supplied parameter outside its domain bound makes the
    transform throw an error whose message interpolates the offending value
    and the bound; the shift message starts with the axis. In particular
    a width shift of 5 is reported against the limit 4 and a zoom of 1.5
    against the bounds 0.8 and 1.2. *)
Theorem out_of_bound_parameter_is_reported (imageData : Tensor3D) (e : Entropy) :
  (forall angle range, 15 < Qabs angle ->
     exists msg,
       throws (rotateAugmentation imageData (Some angle) range) e msg
       /\ names msg angle /\ names msg 15)
  /\ (forall w h range, (4 < Z.abs w)%Z ->
        exists msg,
          throws (shiftAugmentation imageData
                    (Some {| width := w; height := h |}) range) e msg
          /\ starts_with msg "Width shift "
          /\ names msg (inject_Z w) /\ names msg 4)
  /\ (forall w h range, (Z.abs w <= 4)%Z -> (4 < Z.abs h)%Z ->
        exists msg,
          throws (shiftAugmentation imageData
                    (Some {| width := w; height := h |}) range) e msg
          /\ starts_with msg "Height shift "
          /\ names msg (inject_Z h) /\ names msg 4)
  /\ (forall factor range, factor < 4 # 5 \/ 6 # 5 < factor ->
        exists msg,
          throws (zoomAugmentation imageData (Some factor) range) e msg
          /\ names msg factor /\ names msg (4 # 5) /\ names msg (6 # 5))
  /\ (forall factor range, factor < - (1 # 5) \/ 1 # 5 < factor ->
        exists msg,
          throws (shearAugmentation imageData (Some factor) range) e msg
          /\ names msg factor /\ names msg (- (1 # 5)) /\ names msg (1 # 5))
  /\ throws (shiftAugmentation imageData
               (Some {| width := 5; height := 0 |}) None) e
        [Lit "Width shift "; Num 5; Lit "px exceeds maximum ±"; Num 4; Lit "px"]
  /\ throws (zoomAugmentation imageData (Some (3 # 2)) None) e
        [Lit "Zoom "; Num (3 # 2); Lit " outside valid range ["; Num (4 # 5);
         Lit ", "; Num (6 # 5); Lit "]"].
Proof.
  repeat match goal with |- _ /\ _ => split end.
  - intros angle range H. exists (rotation_message angle).
    split; [now apply rotate_rejects | find_parts].
  - intros w h range H. exists (width_message w).
    split; [now apply width_rejects |].
    split; [eexists; reflexivity | find_parts].
  - intros w h range Hw H. exists (height_message h).
    split; [now apply height_rejects |].
    split; [eexists; reflexivity | find_parts].
  - intros factor range H. exists (zoom_message factor).
    split; [now apply zoom_rejects | find_parts].
  - intros factor range H. exists (shear_message factor).
    split; [now apply shear_rejects | find_parts].
  - apply (width_rejects imageData e 5 0 None). reflexivity.
  - apply (zoom_rejects imageData e (3 # 2) None). right. reflexivity.
Qed.

(** At the all-ones canvas: the rejected values of the test suite. *)
Lemma out_of_bound_parameter_is_reported_witness :
  15 < Qabs 20 /\ (4 < Z.abs 5)%Z /\ ((Z.abs 0 <= 4)%Z /\ (4 < Z.abs 6)%Z)
  /\ 6 # 5 < 3 # 2 /\ - (1 # 2) < - (1 # 5)
  /\ (exists msg,
        throws (shearAugmentation (ones 28) (Some (- (1 # 2))) None) quiet msg
        /\ names msg (- (1 # 2)) /\ names msg (- (1 # 5)) /\ names msg (1 # 5))
  /\ (exists msg,
        throws (rotateAugmentation (ones 28) (Some 20) None) quiet msg
        /\ names msg 20 /\ names msg 15)
  /\ (exists msg,
        throws (shiftAugmentation (ones 28)
                  (Some {| width := 5; height := 0 |}) None) quiet msg
        /\ starts_with msg "Width shift " /\ names msg 5 /\ names msg 4)
  /\ (exists msg,
        throws (shiftAugmentation (ones 28)
                  (Some {| width := 0; height := 6 |}) None) quiet msg
        /\ starts_with msg "Height shift " /\ names msg 6 /\ names msg 4)
  /\ (exists msg,
        throws (zoomAugmentation (ones 28) (Some (3 # 2)) None) quiet msg
        /\ names msg (3 # 2) /\ names msg (4 # 5) /\ names msg (6 # 5)).
Proof.
  destruct (out_of_bound_parameter_is_reported (ones 28) quiet)
    as (R & W & H & Z & S & _).
  assert (H1 : 15 < Qabs 20) by reflexivity.
  assert (H2 : (4 < Z.abs 5)%Z) by reflexivity.
  assert (H3 : (Z.abs 0 <= 4)%Z) by (simpl; lia).
  assert (H4 : (4 < Z.abs 6)%Z) by reflexivity.
  assert (H5 : 6 # 5 < 3 # 2) by reflexivity.
  assert (H6 : - (1 # 2) < - (1 # 5)) by reflexivity.
  exact (conj H1 (conj H2 (conj (conj H3 H4) (conj H5 (conj H6
           (conj (S (- (1 # 2)) None (or_introl H6))
           (conj (R 20 None H1)
              (conj (W 5%Z 0%Z None H2)
                 (conj (H 0%Z 6%Z None H3 H4)
                    (Z (3 # 2) None (or_intror H5))))))))))).
Defined.

(** ** Order of the stages *)

(** C6: [augmentImage] is rotation, then shear, then zoom, then shift. It
    returns [out] exactly when the four stages succeed in that order, each on
    the tensor and the entropy its predecessor left, with the range that the
    configuration holds for it (an absent range is the transform's default);
    it throws [x] exactly when the first failing stage throws [x], and the
    later stages then do not run. *)
Theorem augment_applies_rotation_shear_zoom_shift imageData config e :
  let c := orDefault config no_ranges in
  (forall out,
     outcome (augmentImage imageData config) e = Ok out <->
     exists rotated sheared zoomed e1 e2 e3,
       rotateAugmentation imageData None (rotationRange c) e = (Ok rotated, e1)
       /\ shearAugmentation rotated None (shearRange c) e1 = (Ok sheared, e2)
       /\ zoomAugmentation sheared None (zoomRange c) e2 = (Ok zoomed, e3)
       /\ outcome (shiftAugmentation zoomed None (shiftRange c)) e3 = Ok out)
  /\ (forall x,
        outcome (augmentImage imageData config) e = Throw x <->
        outcome (rotateAugmentation imageData None (rotationRange c)) e = Throw x
        \/ (exists rotated e1,
              rotateAugmentation imageData None (rotationRange c) e
              = (Ok rotated, e1)
              /\ (outcome (shearAugmentation rotated None (shearRange c)) e1
                  = Throw x
                  \/ exists sheared e2,
                       shearAugmentation rotated None (shearRange c) e1
                       = (Ok sheared, e2)
                       /\ (outcome (zoomAugmentation sheared None (zoomRange c)) e2
                           = Throw x
                           \/ exists zoomed e3,
                                zoomAugmentation sheared None (zoomRange c) e2
                                = (Ok zoomed, e3)
                                /\ outcome (shiftAugmentation zoomed None
                                              (shiftRange c)) e3 = Throw x))))
  /\ (rotateAugmentation imageData None None
      = rotateAugmentation imageData None (Some {| min := -15; max := 15 |})
      /\ shearAugmentation imageData None None
         = shearAugmentation imageData None
             (Some {| min := - (1 # 5); max := 1 # 5 |})
      /\ zoomAugmentation imageData None None
         = zoomAugmentation imageData None (Some {| min := 4 # 5; max := 6 # 5 |})
      /\ shiftAugmentation imageData None None
         = shiftAugmentation imageData None (Some {| width := 4; height := 4 |})).
Proof.
  intros c. split; [| split; [| repeat split]].
  - intros out. unfold outcome at 1. rewrite augment_run. fold c. split.
    + destruct (rotateAugmentation imageData None (rotationRange c) e)
        as [[rotated | x] e1]; [| discriminate].
      destruct (shearAugmentation rotated None (shearRange c) e1)
        as [[sheared | x] e2] eqn:E2; [| discriminate].
      destruct (zoomAugmentation sheared None (zoomRange c) e2)
        as [[zoomed | x] e3] eqn:E3; [| discriminate].
      intros H. exists rotated, sheared, zoomed, e1, e2, e3. auto.
    + intros (rotated & sheared & zoomed & e1 & e2 & e3 & E1 & E2 & E3 & H).
      now rewrite E1, E2, E3.
  - intros x. unfold outcome at 1. rewrite augment_run. fold c. split.
    + unfold outcome at 1.
      destruct (rotateAugmentation imageData None (rotationRange c) e)
        as [[rotated | x1] e1]; [| now left].
      intros H. right. exists rotated, e1. split; [reflexivity |].
      unfold outcome at 1.
      destruct (shearAugmentation rotated None (shearRange c) e1)
        as [[sheared | x2] e2]; [| now left].
      right. exists sheared, e2. split; [reflexivity |].
      unfold outcome at 1.
      destruct (zoomAugmentation sheared None (zoomRange c) e2)
        as [[zoomed | x3] e3]; [| now left].
      right. exists zoomed, e3. now split.
    + intros [H | (rotated & e1 & E1 & H)].
      * unfold outcome in H.
        destruct (rotateAugmentation imageData None (rotationRange c) e)
          as [[rotated | x1] e1]; [discriminate | exact H].
      * rewrite E1. destruct H as [H | (sheared & e2 & E2 & H)].
        -- unfold outcome in H.
           destruct (shearAugmentation rotated None (shearRange c) e1)
             as [[sheared | x2] e2]; [discriminate | exact H].
        -- rewrite E2. destruct H as [H | (zoomed & e3 & E3 & H)].
           ++ unfold outcome in H.
              destruct (zoomAugmentation sheared None (zoomRange c) e2)
                as [[zoomed | x3] e3]; [discriminate | exact H].
           ++ now rewrite E3.
Qed.

(** ** The identity configuration *)

(** C7 as stated fails: the identity configuration does not return every
    input. The 29 x 29 all-ones image comes back cropped to 28 x 28. *)
Lemma identity_config_crops_larger_canvas :
  has_shape 29 29 (ones 29) /\ valid_entropy quiet
  /\ outcome (augmentImage (ones 29) (Some identity_config)) quiet
     = Ok (ones 28)
  /\ outcome (augmentImage (ones 29) (Some identity_config)) quiet
     <> Ok (ones 29).
Proof.
  split; [apply has_shape_ones |].
  split; [apply valid_quiet |].
  assert (H : outcome (augmentImage (ones 29) (Some identity_config)) quiet
              = Ok (ones 28)) by (vm_compute; reflexivity).
  split; [exact H |]. rewrite H. discriminate.
Qed.

(** C7, as the code has it: on a 28 x 28 input, the configuration whose
    ranges are collapsed to the identity returns the input itself. *)
Theorem identity_config_returns_input imageData e :
  has_shape 28 28 imageData -> valid_entropy e ->
  outcome (augmentImage imageData (Some identity_config)) e = Ok imageData.
Proof.
  intros Hs He. unfold outcome at 1. rewrite augment_run.
  cbn [orDefault identity_config rotationRange shearRange zoomRange shiftRange].
  rewrite rotate_collapsed, shear_collapsed, zoom_collapsed.
  apply shift_collapsed; [| exact Hs].
  intros n. apply He.
Qed.

(** At the all-ones 28 x 28 canvas. *)
Lemma identity_config_returns_input_witness :
  has_shape 28 28 (ones 28) /\ valid_entropy quiet
  /\ outcome (augmentImage (ones 28) (Some identity_config)) quiet
     = Ok (ones 28).
Proof.
  pose proof (has_shape_ones 28) as Hs.
  pose proof valid_quiet as He.
  exact (conj Hs (conj He (identity_config_returns_input (ones 28) quiet Hs He))).
Defined.

(** ** Repeated invocation with the default configuration *)

(** C8: on a 28 x 28 input, with the default configuration, [augmentImage]
    never throws, whatever the random draws are, and returns a 28 x 28
    tensor; so do 100 consecutive invocations on the same input. *)
Theorem default_augmentation_never_fails imageData e :
  has_shape 28 28 imageData -> valid_entropy e ->
  returns (augmentImage imageData None) e (has_shape 28 28)
  /\ length (consecutive 100 (augmentImage imageData None) e) = 100%nat
  /\ Forall (fun r => exists out, r = Ok out /\ has_shape 28 28 out)
       (consecutive 100 (augmentImage imageData None) e).
Proof.
  intros Hs He. split; [now apply augment_default |].
  split; [| now apply consecutive_default].
  generalize 100%nat as n. intros n. revert e He.
  induction n as [| n IH]; intros e He; simpl; [reflexivity |].
  f_equal. apply IH. eapply valid_of_stream; [apply augment_stream | exact He].
Qed.

(** At the all-ones 28 x 28 canvas, with uniform draws that are all 1/2. *)
Lemma default_augmentation_never_fails_witness :
  has_shape 28 28 (ones 28) /\ valid_entropy quiet
  /\ returns (augmentImage (ones 28) None) quiet (has_shape 28 28)
  /\ Forall (fun r => exists out, r = Ok out /\ has_shape 28 28 out)
       (consecutive 100 (augmentImage (ones 28) None) quiet).
Proof.
  pose proof (has_shape_ones 28) as Hs.
  pose proof valid_quiet as He.
  destruct (default_augmentation_never_fails (ones 28) quiet Hs He)
    as (H1 & _ & H100).
  exact (conj Hs (conj He (conj H1 H100))).
Defined.

(** ** Shift *)

(** C9 at a failing input: shifting the canvas whose column 1 is lit by
    one pixel to the left returns the canvas unchanged, column 1 still lit,
    where the translation by (-1, 0) lights column 0. *)
Theorem shift_left_returns_input :
  has_shape 28 28 (stripe 1)
  /\ outcome (shiftAugmentation (stripe 1)
                (Some {| width := -1; height := 0 |}) None) quiet
     = Ok (stripe 1)
  /\ translate (stripe 1) (-1) 0 = stripe 0
  /\ stripe 0 <> stripe 1.
Proof.
  split; [apply has_shape_stripe |].
  split; [| split].
  - apply shift_nonpositive_returns_input; [apply has_shape_stripe | lia | lia].
  - vm_compute. reflexivity.
  - discriminate.
Qed.

(** ** Intensities of the output *)

(** C10: on an input whose intensities lie in [0, 1], every tensor that
    rotate, shift, zoom or shear returns has its intensities in [0, 1],
    whether the parameter is explicit or sampled; and with an explicit
    in-range parameter rotate, zoom and shear return such a tensor for every
    input, shift for every 28 x 28 input. *)
Theorem intensities_stay_in_unit_range imageData e :
  in_unit_range imageData ->
  (forall angle range out,
     outcome (rotateAugmentation imageData angle range) e = Ok out ->
     in_unit_range out)
  /\ (forall shift range out,
        outcome (shiftAugmentation imageData shift range) e = Ok out ->
        in_unit_range out)
  /\ (forall factor range out,
        outcome (zoomAugmentation imageData factor range) e = Ok out ->
        in_unit_range out)
  /\ (forall factor range out,
        outcome (shearAugmentation imageData factor range) e = Ok out ->
        in_unit_range out)
  /\ (forall angle range, Qabs angle <= 15 ->
        returns (rotateAugmentation imageData (Some angle) range) e
          in_unit_range)
  /\ (forall shift range,
        has_shape 28 28 imageData ->
        (Z.abs (width shift) <= 4)%Z -> (Z.abs (height shift) <= 4)%Z ->
        returns (shiftAugmentation imageData (Some shift) range) e
          in_unit_range)
  /\ (forall factor range, 4 # 5 <= factor -> factor <= 6 # 5 ->
        returns (zoomAugmentation imageData (Some factor) range) e
          in_unit_range)
  /\ (forall factor range, - (1 # 5) <= factor -> factor <= 1 # 5 ->
        returns (shearAugmentation imageData (Some factor) range) e
          in_unit_range).
Proof.
  intros Hunit.
  repeat match goal with |- _ /\ _ => split end.
  - intros angle range out. now apply rotate_in_unit.
  - intros shift range out. now apply shift_in_unit.
  - intros factor range out. now apply zoom_in_unit.
  - intros factor range out. now apply shear_in_unit.
  - intros angle range Ha.
    destruct (rotate_outcome imageData e (Some angle) range)
      as [[Hbad _] | [_ (out & Hout & _)]]; cbn [resolved] in *; [lra |].
    exists out. split; [exact Hout | now apply (rotate_in_unit _ e Hunit _ _ _ Hout)].
  - intros shift range Hs Hw Hh.
    destruct (shift_outcome imageData e (Some shift) range)
      as [[Hbad _] | [(_ & Hbad & _) | (_ & _ & Hout)]];
      cbn [resolved after_resolving option_map] in *; [lia | lia |].
    destruct (shifted_ok 28 28 imageData (width shift) (height shift) Hs)
      as (out & Hok & _); [lia | lia |].
    exists out. rewrite Hok in Hout. split; [exact Hout |].
    now apply (shift_in_unit _ e Hunit _ _ _ Hout).
  - intros factor range Hlo Hhi.
    destruct (zoom_outcome imageData e (Some factor) range)
      as [[Hbad _] | [_ (out & Hout & _)]]; cbn [resolved] in *; [lra |].
    exists out. split; [exact Hout | now apply (zoom_in_unit _ e Hunit _ _ _ Hout)].
  - intros factor range Hlo Hhi.
    destruct (shear_outcome imageData e (Some factor) range)
      as [[Hbad _] | [_ (out & Hout & _)]]; cbn [resolved] in *; [lra |].
    exists out. split; [exact Hout | now apply (shear_in_unit _ e Hunit _ _ _ Hout)].
Qed.

(** At the all-ones 28 x 28 canvas, with noise that pushes above 1. *)
Lemma intensities_stay_in_unit_range_witness :
  in_unit_range (ones 28)
  /\ returns (rotateAugmentation (ones 28) (Some 15) None) loud in_unit_range
  /\ returns (shiftAugmentation (ones 28)
                (Some {| width := 3; height := -2 |}) None) loud in_unit_range
  /\ returns (zoomAugmentation (ones 28) (Some (4 # 5)) None) loud in_unit_range
  /\ returns (shearAugmentation (ones 28) (Some (1 # 5)) None) loud in_unit_range.
Proof.
  pose proof (in_unit_ones 28) as Hunit.
  destruct (intensities_stay_in_unit_range (ones 28) loud Hunit)
    as (_ & _ & _ & _ & R & T & Z & S).
  refine (conj Hunit (conj _ (conj _ (conj _ _)))).
  - apply (R 15 None). discriminate.
  - apply (T {| width := 3; height := -2 |} None (has_shape_ones 28));
      simpl; lia.
  - apply (Z (4 # 5) None); discriminate.
  - apply (S (1 # 5) None); discriminate.
Defined.

(** * Further properties of the transforms *)

Lemma pixel_ones n i j : (i < n)%nat -> (j < n)%nat -> pixel (ones n) i j = 1.
Proof.
  intros Hi Hj. unfold pixel, ones.
  rewrite (nth_repeat_lt _ [] Hi). now apply nth_repeat_lt.
Qed.

(** ** Pixels of padded, cropped and resampled tensors *)

Lemma pixel_outside_rows t i j : (length t <= i)%nat -> pixel t i j = 0.
Proof.
  intros H. unfold pixel. rewrite (nth_overflow t) by assumption.
  now destruct j.
Qed.

Lemma pixel_outside_columns h w t i j :
  has_shape h w t -> (w <= j)%nat -> pixel t i j = 0.
Proof.
  intros [L F] H. unfold pixel.
  destruct (Nat.lt_ge_cases i (length t)) as [Hi | Hi].
  - pose proof (proj1 (Forall_nth _ _) F i [] Hi) as Hrow. cbn beta in Hrow.
    apply nth_overflow. lia.
  - rewrite (nth_overflow t) by assumption. now destruct j.
Qed.

(** Every pixel of a zero-padded tensor, also outside the tensor. *)
Lemma pixel_pad3d_any h w t top bottom left right i j :
  has_shape h w t -> (0 < h)%nat ->
  pixel (tf.pad3d t top bottom left right 0) i j
  = if ((top <=? i) && (i <? top + h) && (left <=? j) && (j <? left + w))%nat
    then pixel t (i - top) (j - left)
    else 0.
Proof.
  intros Hs Hpos. unfold pixel at 1. unfold tf.pad3d.
  rewrite (shape_of_has_shape _ _ _ Hs Hpos). cbn [snd].
  destruct Hs as [L F].
  destruct (Nat.leb_spec top i) as [Hti | Hti]; cbn [andb].
  - rewrite app_nth2 by (rewrite repeat_length; lia).
    rewrite repeat_length.
    destruct (Nat.ltb_spec i (top + h)) as [Hih | Hih]; cbn [andb].
    + rewrite app_nth1 by (rewrite length_map; lia).
      rewrite (nth_indep _ [] (repeat 0 left ++ [] ++ repeat 0 right))
        by (rewrite length_map; lia).
      rewrite (map_nth (fun row => repeat 0 left ++ row ++ repeat 0 right) t []).
      pose proof (proj1 (Forall_nth _ _) F (i - top)%nat [] ltac:(lia)) as Hrow.
      cbn beta in Hrow.
      destruct (Nat.leb_spec left j) as [Hlj | Hlj]; cbn [andb].
      * rewrite app_nth2 by (rewrite repeat_length; lia).
        rewrite repeat_length.
        destruct (Nat.ltb_spec j (left + w)) as [Hjw | Hjw].
        -- now rewrite app_nth1 by lia.
        -- rewrite app_nth2 by lia. apply nth_repeat.
      * rewrite app_nth1 by (rewrite repeat_length; lia).
        now apply nth_repeat_lt.
    + rewrite app_nth2 by (rewrite length_map; lia).
      rewrite length_map.
      destruct (Nat.lt_ge_cases (i - top - length t) bottom) as [Hb | Hb].
      * rewrite (nth_repeat_lt _ [] Hb). apply nth_repeat.
      * rewrite (nth_overflow (repeat (repeat 0 (left + w + right)%nat) bottom) [])
          by (rewrite repeat_length; lia).
        now destruct j.
  - rewrite app_nth1 by (rewrite repeat_length; lia).
    rewrite (nth_repeat_lt _ [] Hti). apply nth_repeat.
Qed.

Lemma map_nth_fixed {A : Type} (f : A -> A) (l : list A) (d : A) i :
  f d = d -> nth i (map f l) d = f (nth i l d).
Proof. intros H. rewrite <- H at 1. apply map_nth. Qed.

(** The pixels of a slice are the pixels of the tensor at the offset. *)
Lemma pixel_slice3d t r0 c0 h w out i j :
  tf.slice3d t r0 c0 h w = Ok out -> (i < h)%nat -> (j < w)%nat ->
  pixel out i j = pixel t (r0 + i) (c0 + j).
Proof.
  unfold tf.slice3d. destruct (_ && _); [| discriminate].
  intros E Hi Hj. injection E as <-. unfold pixel.
  rewrite map_nth_fixed by (now rewrite skipn_nil, firstn_nil).
  rewrite !nth_firstn, !nth_skipn.
  apply Nat.ltb_lt in Hi, Hj. now rewrite Hi, Hj.
Qed.

Lemma inject_nat_pos n : (0 < n)%nat -> 0 < inject_Z (Z.of_nat n).
Proof. intros H. change 0 with (inject_Z 0). rewrite <- Zlt_Qlt. lia. Qed.

Section Resampling.

Variables (old new : nat).
Hypothesis Hold : (0 < old)%nat.
Hypothesis Hnew : (0 < new)%nat.

Lemma source_below k : (k < new)%nat -> tf.image.source old new k < inject_Z (Z.of_nat old).
Proof.
  intros Hk. unfold tf.image.source.
  pose proof (inject_nat_pos old Hold) as Ho.
  pose proof (inject_nat_pos new Hnew) as Hn.
  assert (Hkn : inject_Z (Z.of_nat k) < inject_Z (Z.of_nat new))
    by (rewrite <- Zlt_Qlt; lia).
  assert (E : inject_Z (Z.of_nat old) / inject_Z (Z.of_nat new)
              * inject_Z (Z.of_nat k)
              == inject_Z (Z.of_nat old) * inject_Z (Z.of_nat k)
                 / inject_Z (Z.of_nat new)).
  { field. intros H0. rewrite H0 in Hn. now apply Qlt_irrefl in Hn. }
  rewrite E. apply Qlt_shift_div_r; [exact Hn |].
  now apply Qmult_lt_l.
Qed.

(** Both source indices that the resampling reads lie inside the source. *)
Lemma lower_inside k : (k < new)%nat -> (tf.image.lower old new k < old)%nat.
Proof.
  intros Hk. unfold tf.image.lower, Math.floor.
  pose proof (source_nonneg old new k) as H0.
  pose proof (source_below k Hk) as H1.
  set (x := tf.image.source old new k) in *.
  assert (Hf : (0 <= Qfloor x)%Z).
  { change 0%Z with (Qfloor 0). now apply Qfloor_resp_le. }
  assert (Hlt : (Qfloor x < Z.of_nat old)%Z).
  { rewrite Zlt_Qlt. eapply Qle_lt_trans; [apply Qfloor_le | exact H1]. }
  lia.
Qed.

Lemma upper_inside k : (tf.image.upper old new k < old)%nat.
Proof. unfold tf.image.upper. clear Hnew. lia. Qed.

End Resampling.

(** The pixel that the bilinear resampling computes. *)
Lemma pixel_resizeBilinear h w t newH newW r c :
  has_shape h w t -> (0 < h)%nat -> (r < newH)%nat -> (c < newW)%nat ->
  pixel (tf.image.resizeBilinear t newH newW) r c
  = tf.image.lerp
      (tf.image.lerp (pixel t (tf.image.lower h newH r) (tf.image.lower w newW c))
         (pixel t (tf.image.lower h newH r) (tf.image.upper w newW c))
         (tf.image.frac w newW c))
      (tf.image.lerp (pixel t (tf.image.upper h newH r) (tf.image.lower w newW c))
         (pixel t (tf.image.upper h newH r) (tf.image.upper w newW c))
         (tf.image.frac w newW c))
      (tf.image.frac h newH r).
Proof.
  intros Hs Hpos Hr Hc. unfold tf.image.resizeBilinear.
  rewrite (shape_of_has_shape _ _ _ Hs Hpos).
  now rewrite pixel_tabulate.
Qed.

(** Resampling a uniform tensor gives a uniform tensor. *)
Lemma resizeBilinear_uniform h w t v newH newW r c :
  has_shape h w t -> (0 < h)%nat -> (0 < w)%nat ->
  (forall i j, (i < h)%nat -> (j < w)%nat -> pixel t i j == v) ->
  (r < newH)%nat -> (c < newW)%nat ->
  pixel (tf.image.resizeBilinear t newH newW) r c == v.
Proof.
  intros Hs Hh Hw Hv Hr Hc.
  rewrite (pixel_resizeBilinear h w) by assumption.
  assert (Ph : (0 < newH)%nat) by lia. assert (Pw : (0 < newW)%nat) by lia.
  pose proof (lower_inside h newH Hh Ph r Hr) as R0.
  pose proof (upper_inside h newH Hh r) as R1.
  pose proof (lower_inside w newW Hw Pw c Hc) as C0.
  pose proof (upper_inside w newW Hw c) as C1.
  unfold tf.image.lerp.
  rewrite (Hv _ _ R0 C0), (Hv _ _ R0 C1), (Hv _ _ R1 C0), (Hv _ _ R1 C1).
  ring.
Qed.

Lemma source_same_size n k :
  (0 < n)%nat -> tf.image.source n n k == inject_Z (Z.of_nat k).
Proof.
  intros Hn. unfold tf.image.source.
  pose proof (inject_nat_pos n Hn) as Hp.
  field. intros H0. rewrite H0 in Hp. now apply Qlt_irrefl in Hp.
Qed.

Lemma lower_same_size n k : (0 < n)%nat -> tf.image.lower n n k = k.
Proof.
  intros Hn. unfold tf.image.lower, Math.floor.
  rewrite (Qfloor_comp _ _ (source_same_size n k Hn)), Qfloor_Z. lia.
Qed.

Lemma frac_same_size n k : (0 < n)%nat -> tf.image.frac n n k == 0.
Proof.
  intros Hn. unfold tf.image.frac.
  rewrite (lower_same_size n k Hn), (source_same_size n k Hn). ring.
Qed.

(** Resampling to the size the tensor already has changes no pixel. *)
Lemma resizeBilinear_same_size h w t r c :
  has_shape h w t -> (0 < h)%nat -> (r < h)%nat -> (c < w)%nat ->
  pixel (tf.image.resizeBilinear t h w) r c == pixel t r c.
Proof.
  intros Hs Hh Hr Hc.
  rewrite (pixel_resizeBilinear h w) by assumption.
  assert (Hw : (0 < w)%nat) by lia.
  rewrite !(lower_same_size h r Hh), !(lower_same_size w c Hw).
  unfold tf.image.lerp.
  rewrite (frac_same_size h r Hh), (frac_same_size w c Hw). ring.
Qed.

(** ** Zoom *)

Lemma zoom_copies imageData factor range e :
  Qabs (factor - 1) < 1 # 1000 ->
  outcome (zoomAugmentation imageData (Some factor) range) e = Ok imageData.
Proof.
  intros Hnear. unfold outcome. rewrite zoom_run. cbn [resolved].
  pose proof (proj1 (Qabs_Qlt_condition _ _) Hnear) as [Hlo Hhi].
  assert (H1 : (factor <? 4 # 5)%js = false) by (apply Qlt_bool_false_iff; lra).
  assert (H2 : (factor >? 6 # 5)%js = false) by (apply Qlt_bool_false_iff; lra).
  apply Qlt_bool_iff in Hnear. now rewrite H1, H2, Hnear.
Qed.

Lemma zoom_rescales imageData factor range e :
  4 # 5 <= factor -> factor <= 6 # 5 -> 1 # 1000 <= Qabs (factor - 1) ->
  outcome (zoomAugmentation imageData (Some factor) range) e
  = rescaled imageData factor.
Proof.
  intros Hlo Hhi Hfar. unfold outcome. rewrite zoom_run. cbn [resolved].
  apply Qlt_bool_false_iff in Hlo, Hhi, Hfar. now rewrite Hlo, Hhi, Hfar.
Qed.

Lemma cropStart_centred factor :
  1 < factor -> factor <= 6 # 5 ->
  (0 <= cropStart factor <= 3)%Z
  /\ (0 <= newSize factor - 28 - 2 * cropStart factor <= 1)%Z.
Proof.
  intros Hlo Hhi. pose proof (newSize_enlarged factor Hlo Hhi) as Hn.
  unfold cropStart. rewrite floor_half.
  pose proof (Z.div_mod (newSize factor - 28) 2 ltac:(lia)) as Hd.
  pose proof (Z.mod_pos_bound (newSize factor - 28) 2 ltac:(lia)) as Hm.
  lia.
Qed.

Lemma padAmount_centred factor :
  4 # 5 <= factor -> factor <= 1 ->
  (0 <= padAmount factor <= 3)%Z
  /\ (0 <= 28 - newSize factor - 2 * padAmount factor <= 1)%Z.
Proof.
  intros Hlo Hhi. pose proof (newSize_shrunk factor Hlo Hhi) as Hn.
  unfold padAmount. rewrite floor_half.
  pose proof (Z.div_mod (28 - newSize factor) 2 ltac:(lia)) as Hd.
  pose proof (Z.mod_pos_bound (28 - newSize factor) 2 ltac:(lia)) as Hm.
  lia.
Qed.

(** The pixels of the two branches of the rescaling. *)
Lemma zoom_places_resampled_content imageData factor :
  4 # 5 <= factor -> factor <= 6 # 5 ->
  (1 < factor ->
   exists out,
     rescaled imageData factor = Ok out /\ has_shape 28 28 out
     /\ forall i j, (i < 28)%nat -> (j < 28)%nat ->
          pixel out i j
          = pixel (tf.image.resizeBilinear imageData
                     (Z.to_nat (newSize factor)) (Z.to_nat (newSize factor)))
              (Z.to_nat (cropStart factor) + i) (Z.to_nat (cropStart factor) + j))
  /\ (factor <= 1 ->
      exists out,
        rescaled imageData factor = Ok out /\ has_shape 28 28 out
        /\ forall i j,
             pixel out i j
             = if ((Z.to_nat (padAmount factor) <=? i)
                   && (i <? Z.to_nat (padAmount factor) + Z.to_nat (newSize factor))
                   && (Z.to_nat (padAmount factor) <=? j)
                   && (j <? Z.to_nat (padAmount factor) + Z.to_nat (newSize factor)))%nat
               then pixel (tf.image.resizeBilinear imageData
                             (Z.to_nat (newSize factor)) (Z.to_nat (newSize factor)))
                      (i - Z.to_nat (padAmount factor)) (j - Z.to_nat (padAmount factor))
               else 0).
Proof.
  intros Hlo Hhi.
  destruct (rescaled_ok imageData factor Hlo Hhi) as (out & Hout & Hshape).
  pose proof (has_shape_resizeBilinear imageData (Z.to_nat (newSize factor))
                (Z.to_nat (newSize factor))) as Hres.
  split.
  - intros Hbig. exists out. split; [exact Hout |]. split; [exact Hshape |].
    intros i j Hi Hj. unfold rescaled in Hout.
    assert (Hb : (factor >? 1)%js = true) by now apply Qlt_bool_iff.
    rewrite Hb in Hout.
    exact (pixel_slice3d _ _ _ _ _ _ _ _ Hout Hi Hj).
  - intros Hsmall. exists out. split; [exact Hout |]. split; [exact Hshape |].
    intros i j. unfold rescaled in Hout.
    assert (Hb : (factor >? 1)%js = false) by now apply Qlt_bool_false_iff.
    rewrite Hb in Hout. injection Hout as <-.
    pose proof (newSize_shrunk factor Hlo Hsmall) as Hn.
    apply (pixel_pad3d_any _ _ _ _ _ _ _ _ _ Hres). lia.
Qed.

(** The double of a product. A number [p] that is at most [enlarged x] and
    not below the whole (or half) number that [x] is not below has the floor
    (or rounding) of [x], when [enlarged x] has it. *)
Lemma double_floors_alike x p :
  floors_alike x -> inject_Z (Math.floor x) <= p -> p <= enlarged x ->
  Math.floor p = Math.floor x.
Proof.
  unfold floors_alike, Math.floor. intros Halike Hlo Hhi.
  apply Qfloor_resp_le in Hlo. rewrite Qfloor_Z in Hlo.
  apply Qfloor_resp_le in Hhi. lia.
Qed.

Lemma double_rounds_alike x p :
  rounds_alike x -> inject_Z (Math.round x) - (1 # 2) <= p ->
  p <= enlarged x -> Math.round p = Math.round x.
Proof.
  unfold rounds_alike, Math.round. intros Halike Hlo Hhi.
  assert (Hlo' : inject_Z (Qfloor (x + (1 # 2))) <= p + (1 # 2)) by lra.
  assert (Hhi' : p + (1 # 2) <= enlarged x + (1 # 2)) by lra.
  apply Qfloor_resp_le in Hlo'. rewrite Qfloor_Z in Hlo'.
  apply Qfloor_resp_le in Hhi'. lia.
Qed.

(** X1: how zoom places the resampled content. An enlargement is cropped to
    the window that starts [cropStart] rows and columns in; a reduction is
    framed by zeros, [padAmount] rows and columns before the content. Either
    margin is at most 3 pixels, and the opposite margin is equal to it or one
    pixel wider. The new size is the one that the double product of the
    program rounds to, as the product [28 * factor] is not just below a
    rounding tie. *)
Theorem zoom_crops_or_pads_around_the_centre imageData factor range e :
  4 # 5 <= factor -> factor <= 6 # 5 -> 1 # 1000 <= Qabs (factor - 1) ->
  rounds_alike (inject_Z 28 * factor) ->
  let n := newSize factor in
  let resized := tf.image.resizeBilinear imageData (Z.to_nat n) (Z.to_nat n) in
  (1 < factor ->
   let c := cropStart factor in
   (28 <= n <= 34)%Z /\ (0 <= c <= 3)%Z /\ (0 <= n - 28 - 2 * c <= 1)%Z
   /\ returns (zoomAugmentation imageData (Some factor) range) e
        (fun out =>
           has_shape 28 28 out
           /\ forall i j, (i < 28)%nat -> (j < 28)%nat ->
                pixel out i j = pixel resized (Z.to_nat c + i) (Z.to_nat c + j)))
  /\ (factor <= 1 ->
      let p := padAmount factor in
      (22 <= n <= 28)%Z /\ (0 <= p <= 3)%Z /\ (0 <= 28 - n - 2 * p <= 1)%Z
      /\ returns (zoomAugmentation imageData (Some factor) range) e
           (fun out =>
              has_shape 28 28 out
              /\ forall i j,
                   pixel out i j
                   = if ((Z.to_nat p <=? i) && (i <? Z.to_nat p + Z.to_nat n)
                         && (Z.to_nat p <=? j) && (j <? Z.to_nat p + Z.to_nat n))%nat
                     then pixel resized (i - Z.to_nat p) (j - Z.to_nat p)
                     else 0)).
Proof.
  intros Hlo Hhi Hfar _ n resized.
  destruct (zoom_places_resampled_content imageData factor Hlo Hhi)
    as [Hbig Hsmall].
  split.
  - intros H1 c.
    pose proof (newSize_enlarged factor H1 Hhi) as Hn.
    destruct (cropStart_centred factor H1 Hhi) as [Hc Hcentre].
    split; [exact Hn |]. split; [exact Hc |]. split; [exact Hcentre |].
    destruct (Hbig H1) as (out & Hout & Hrest).
    exists out. split; [now rewrite zoom_rescales | exact Hrest].
  - intros H1 p.
    pose proof (newSize_shrunk factor Hlo H1) as Hn.
    destruct (padAmount_centred factor Hlo H1) as [Hp Hcentre].
    split; [exact Hn |]. split; [exact Hp |]. split; [exact Hcentre |].
    destruct (Hsmall H1) as (out & Hout & Hrest).
    exists out. split; [now rewrite zoom_rescales | exact Hrest].
Qed.

Lemma zoom_crops_or_pads_around_the_centre_witness :
  rounds_alike (inject_Z 28 * (6 # 5))
  /\ returns (zoomAugmentation (ones 28) (Some (6 # 5)) None) quiet
    (fun out =>
       has_shape 28 28 out
       /\ forall i j, (i < 28)%nat -> (j < 28)%nat ->
            pixel out i j
            = pixel (tf.image.resizeBilinear (ones 28) 34 34) (3 + i) (3 + j)).
Proof.
  assert (Halike : rounds_alike (inject_Z 28 * (6 # 5))) by reflexivity.
  split; [exact Halike |].
  destruct (zoom_crops_or_pads_around_the_centre (ones 28) (6 # 5) None quiet)
    as [Hbig _]; [discriminate | discriminate | discriminate | exact Halike |].
  destruct Hbig as (_ & _ & _ & R); [reflexivity | exact R].
Defined.

(** X2: zoom factors that round to the canvas size change nothing. For
    55/56 <= factor < 57/56, as long as the product [28 * factor] is not so
    close below 28.5 that the double product of the program reaches it, the
    image is resampled from 28 to 28 pixels, if at all, and every pixel keeps
    its value. *)
Theorem zoom_that_rounds_to_the_canvas_keeps_every_pixel imageData factor range e :
  has_shape 28 28 imageData ->
  55 # 56 <= factor -> factor < 57 # 56 ->
  rounds_alike (inject_Z 28 * factor) ->
  returns (zoomAugmentation imageData (Some factor) range) e
    (fun out =>
       has_shape 28 28 out
       /\ forall i j, (i < 28)%nat -> (j < 28)%nat ->
            pixel out i j == pixel imageData i j).
Proof.
  intros Hs Hlo Hhi _.
  assert (Hn : newSize factor = 28%Z).
  { assert (H : (28 <= newSize factor <= 28)%Z); [| lia].
    unfold newSize. apply round_bounds; simpl inject_Z.
    - change (inject_Z 28) with (28 # 1). lra.
    - change (inject_Z 28) with (28 # 1). change (inject_Z 29) with (29 # 1).
      lra. }
  destruct (Qlt_le_dec (Qabs (factor - 1)) (1 # 1000)) as [Hnear | Hfar].
  - exists imageData. split; [now apply zoom_copies |].
    split; [exact Hs | reflexivity].
  - destruct (zoom_places_resampled_content imageData factor)
      as [Hbig Hsmall]; try lra.
    destruct (Qlt_le_dec 1 factor) as [H1 | H1].
    + destruct (Hbig H1) as (out & Hout & Hshape & Hpix).
      exists out. split; [rewrite zoom_rescales; [exact Hout | lra | lra | exact Hfar] |].
      split; [exact Hshape |]. intros i j Hi Hj.
      rewrite (Hpix i j Hi Hj). unfold cropStart. rewrite Hn.
      change (Z.to_nat (Math.floor (inject_Z (28 - 28) / 2))) with 0%nat.
      change (Z.to_nat 28) with 28%nat. cbn [Nat.add].
      apply (resizeBilinear_same_size 28 28); [exact Hs | lia | exact Hi | exact Hj].
    + destruct (Hsmall H1) as (out & Hout & Hshape & Hpix).
      exists out. split; [rewrite zoom_rescales; [exact Hout | lra | lra | exact Hfar] |].
      split; [exact Hshape |]. intros i j Hi Hj.
      rewrite (Hpix i j). unfold padAmount. rewrite Hn.
      change (Z.to_nat (Math.floor (inject_Z (28 - 28) / 2))) with 0%nat.
      change (Z.to_nat 28) with 28%nat. cbn [Nat.add Nat.leb andb].
      apply Nat.ltb_lt in Hi as Hi', Hj as Hj'. rewrite Hi', Hj'. cbn [andb].
      rewrite !Nat.sub_0_r.
      apply (resizeBilinear_same_size 28 28); [exact Hs | lia | exact Hi | exact Hj].
Qed.

Lemma zoom_that_rounds_to_the_canvas_keeps_every_pixel_witness :
  has_shape 28 28 (ones 28) /\ 55 # 56 <= 101 # 100 /\ 101 # 100 < 57 # 56
  /\ rounds_alike (inject_Z 28 * (101 # 100))
  /\ returns (zoomAugmentation (ones 28) (Some (101 # 100)) None) quiet
       (fun out =>
          has_shape 28 28 out
          /\ forall i j, (i < 28)%nat -> (j < 28)%nat ->
               pixel out i j == pixel (ones 28) i j).
Proof.
  refine (conj (has_shape_ones 28) (conj _ (conj _ (conj _ _))));
    [discriminate | reflexivity | reflexivity |].
  apply (zoom_that_rounds_to_the_canvas_keeps_every_pixel (ones 28) (101 # 100)
           None quiet (has_shape_ones 28));
    [discriminate | reflexivity | reflexivity].
Defined.

(** X3: zoom keeps a uniform canvas uniform. Bilinear resampling blends equal
    intensities into the same intensity, so an enlargement of a canvas of
    intensity [v] is that canvas again, and a reduction is the canvas with a
    frame of zeros. The frame is the one of the program, as the product
    [28 * factor] is not just below a rounding tie. *)
Theorem zoom_keeps_a_uniform_canvas_uniform imageData v factor range e :
  has_shape 28 28 imageData ->
  (forall i j, (i < 28)%nat -> (j < 28)%nat -> pixel imageData i j == v) ->
  4 # 5 <= factor -> factor <= 6 # 5 ->
  rounds_alike (inject_Z 28 * factor) ->
  returns (zoomAugmentation imageData (Some factor) range) e
    (fun out =>
       has_shape 28 28 out
       /\ forall i j, (i < 28)%nat -> (j < 28)%nat ->
            pixel out i j == if in_zoom_frame factor i j then 0 else v).
Proof.
  intros Hs Hv Hlo Hhi _. unfold in_zoom_frame.
  destruct (Qabs (factor - 1) <? 1 # 1000)%js eqn:Hnear.
  - apply Qlt_bool_iff in Hnear.
    exists imageData. split; [now apply zoom_copies |].
    split; [exact Hs |]. intros i j Hi Hj. cbn [negb andb]. now apply Hv.
  - apply Qlt_bool_false_iff in Hnear.
    destruct (zoom_places_resampled_content imageData factor Hlo Hhi)
      as [Hbig Hsmall].
    destruct (factor >? 1)%js eqn:H1; cbn [negb andb].
    + apply Qlt_bool_iff in H1.
      destruct (Hbig H1) as (out & Hout & Hshape & Hpix).
      exists out. split; [now rewrite zoom_rescales |].
      split; [exact Hshape |]. intros i j Hi Hj. rewrite (Hpix i j Hi Hj).
      pose proof (newSize_enlarged factor H1 Hhi) as Hn.
      destruct (cropStart_centred factor H1 Hhi) as [Hc Hcentre].
      apply (resizeBilinear_uniform 28 28); try assumption; lia.
    + apply Qlt_bool_false_iff in H1.
      destruct (Hsmall H1) as (out & Hout & Hshape & Hpix).
      exists out. split; [now rewrite zoom_rescales |].
      split; [exact Hshape |]. intros i j Hi Hj. rewrite (Hpix i j).
      pose proof (newSize_shrunk factor Hlo H1) as Hn.
      destruct (padAmount_centred factor Hlo H1) as [Hp Hcentre].
      destruct (_ && _)%nat eqn:Hin; cbn [negb]; [| reflexivity].
      apply andb_prop in Hin as [Hin Hj2]. apply andb_prop in Hin as [Hin Hj1].
      apply andb_prop in Hin as [Hi1 Hi2].
      apply Nat.leb_le in Hi1, Hj1. apply Nat.ltb_lt in Hi2, Hj2.
      apply (resizeBilinear_uniform 28 28); try assumption; lia.
Qed.

Lemma zoom_keeps_a_uniform_canvas_uniform_witness :
  rounds_alike (inject_Z 28 * (4 # 5))
  /\ returns (zoomAugmentation (ones 28) (Some (4 # 5)) None) quiet
    (fun out =>
       has_shape 28 28 out
       /\ forall i j, (i < 28)%nat -> (j < 28)%nat ->
            pixel out i j == if in_zoom_frame (4 # 5) i j then 0 else 1).
Proof.
  assert (Halike : rounds_alike (inject_Z 28 * (4 # 5))) by reflexivity.
  split; [exact Halike |].
  apply (zoom_keeps_a_uniform_canvas_uniform (ones 28) 1 (4 # 5) None quiet
           (has_shape_ones 28)); [| discriminate | discriminate | exact Halike].
  intros i j Hi Hj. now rewrite pixel_ones.
Defined.

(** ** Sampled parameters *)

Lemma sample_in_range r u :
  min r <= max r -> 0 <= u -> u < 1 -> min r <= sample r u /\ sample r u <= max r.
Proof. intros Hr Hlo Hhi. unfold sample. split; nra. Qed.

Lemma sample_shift_in_range bound u :
  (0 <= bound)%Z -> 0 <= u -> u < 1 ->
  (- bound <= sample_shift bound u <= bound)%Z.
Proof.
  intros Hb Hlo Hhi. unfold sample_shift.
  assert (H : (0 <= Math.floor (u * inject_Z (bound * 2 + 1)) <= bound * 2)%Z).
  { assert (Hpos : 0 < inject_Z (bound * 2 + 1)).
    { change 0 with (inject_Z 0). rewrite <- Zlt_Qlt. lia. }
    apply floor_bounds.
    - change (inject_Z 0) with 0. nra.
    - nra. }
  lia.
Qed.

Lemma valid_draw e k : valid_entropy e -> 0 <= draw e k /\ draw e k < 1.
Proof. intros He. apply He. Qed.

Lemma within_domain_sampled c e :
  valid_entropy e -> within_domain c -> sampled_in_range c e.
Proof.
  intros He (Hr & Hs & Hz & Hw & Hh) ks kz _ _. cbv zeta in *.
  destruct Hr as (Hr1 & Hr2 & Hr3), Hs as (Hs1 & Hs2 & Hs3),
    Hz as (Hz1 & Hz2 & Hz3).
  unfold sampled_in_range_at.
  pose proof (fun k => valid_draw e k He) as Hd.
  repeat match goal with |- _ /\ _ => split end.
  - destruct (sample_in_range _ (draw e 0) Hr2 (proj1 (Hd 0%nat)) (proj2 (Hd 0%nat))).
    apply Qabs_Qle_condition. split; lra.
  - destruct (sample_in_range _ _ Hs2 (proj1 (Hd ks)) (proj2 (Hd ks))).
    lra.
  - destruct (sample_in_range _ _ Hs2 (proj1 (Hd ks)) (proj2 (Hd ks))).
    lra.
  - destruct (sample_in_range _ _ Hz2 (proj1 (Hd kz)) (proj2 (Hd kz))).
    lra.
  - destruct (sample_in_range _ _ Hz2 (proj1 (Hd kz)) (proj2 (Hd kz))).
    lra.
  - pose proof (sample_shift_in_range _ _ (proj1 Hw)
                  (proj1 (Hd (kz + 1)%nat)) (proj2 (Hd (kz + 1)%nat))). lia.
  - pose proof (sample_shift_in_range _ _ (proj1 Hh)
                  (proj1 (Hd (kz + 2)%nat)) (proj2 (Hd (kz + 2)%nat))). lia.
Qed.

(** ** Canvases larger than 28 x 28 *)

(** X4: a configuration whose ranges lie inside the domain bounds never makes
    [augmentImage] fail on an image of 28 x 28 pixels or more, whatever is
    drawn, and the result is always 28 x 28: a larger canvas is cut down to
    its top-left window by the shift, or rescaled to 28 x 28 by the zoom. *)
Theorem augmentation_within_domain_never_fails H W imageData config e :
  has_shape H W imageData -> (28 <= H)%nat -> (28 <= W)%nat ->
  valid_entropy e ->
  within_domain (orDefault config no_ranges) ->
  returns (augmentImage imageData config) e (has_shape 28 28).
Proof.
  intros Hs HH HW He Hc. apply (augment_accepts_any H W); try assumption.
  now apply within_domain_sampled.
Qed.

Lemma augmentation_within_domain_never_fails_witness :
  let config :=
    {| rotationRange := Some {| min := -5; max := 10 |};
       shiftRange := Some {| width := 2; height := 0 |};
       zoomRange := Some {| min := 9 # 10; max := 11 # 10 |};
       shearRange := None |} in
  has_shape 32 32 (ones 32) /\ valid_entropy quiet
  /\ within_domain config
  /\ returns (augmentImage (ones 32) (Some config)) quiet (has_shape 28 28).
Proof.
  intros config.
  assert (Hc : within_domain config).
  { unfold within_domain, config; cbn.
    repeat match goal with |- _ /\ _ => split end; (discriminate || lia). }
  refine (conj (has_shape_ones 32) (conj valid_quiet (conj Hc _))).
  exact (augmentation_within_domain_never_fails 32 32 (ones 32) (Some config)
           quiet (has_shape_ones 32) ltac:(lia) ltac:(lia) valid_quiet Hc).
Defined.

(** X5: sampled values are validated like explicit ones. When the custom
    range lies entirely beyond the domain bound, every call that samples from
    it throws the range error for the value it drew, and [augmentImage]
    throws the same error, whatever the image. *)
Theorem range_beyond_the_bound_always_rejects imageData (r : Range) e :
  valid_entropy e -> min r <= max r ->
  (15 < min r \/ max r < -15 ->
   throws (rotateAugmentation imageData None (Some r)) e
     (rotation_message (sample r (draw e 0)))
   /\ forall c,
        rotationRange c = Some r ->
        throws (augmentImage imageData (Some c)) e
          (rotation_message (sample r (draw e 0))))
  /\ (1 # 5 < min r \/ max r < - (1 # 5) ->
      throws (shearAugmentation imageData None (Some r)) e
        (shear_message (sample r (draw e 0))))
  /\ (6 # 5 < min r \/ max r < 4 # 5 ->
      throws (zoomAugmentation imageData None (Some r)) e
        (zoom_message (sample r (draw e 0)))).
Proof.
  intros He Hr.
  assert (D0 : draw e 0 = uniform e (upos e))
    by (unfold draw; now rewrite Nat.add_0_r).
  destruct (valid_draw e 0 He) as [Hlo Hhi].
  destruct (sample_in_range r (draw e 0) Hr Hlo Hhi) as [Smin Smax].
  repeat match goal with |- _ /\ _ => split end.
  - intros Hout.
    destruct (rotate_outcome imageData e None (Some r))
      as [[_ Hthrow] | [Hin _]]; cbn [resolved orDefault] in *;
      rewrite <- D0 in *; [| exfalso; apply Qabs_Qle_condition in Hin; lra].
    split; [exact Hthrow |]. intros c Hc.
    unfold throws, outcome in *. rewrite augment_run.
    cbn [orDefault]. rewrite Hc.
    destruct (rotateAugmentation imageData None (Some r) e) as [[out | x] e1];
      cbn [fst] in *; [discriminate | exact Hthrow].
  - intros Hout.
    destruct (shear_outcome imageData e None (Some r))
      as [[_ Hthrow] | [[Hin1 Hin2] _]]; cbn [resolved orDefault] in *;
      rewrite <- D0 in *; [exact Hthrow | exfalso; lra].
  - intros Hout.
    destruct (zoom_outcome imageData e None (Some r))
      as [[_ Hthrow] | [[Hin1 Hin2] _]]; cbn [resolved orDefault] in *;
      rewrite <- D0 in *; [exact Hthrow | exfalso; lra].
Qed.

Lemma range_beyond_the_bound_always_rejects_witness :
  let r := {| min := 20; max := 30 |} in
  valid_entropy quiet /\ min r <= max r /\ 15 < min r
  /\ throws (rotateAugmentation (ones 28) None (Some r)) quiet
       (rotation_message (sample r (draw quiet 0))).
Proof.
  intros r.
  assert (H1 : min r <= max r) by discriminate.
  assert (H2 : 15 < min r) by reflexivity.
  refine (conj valid_quiet (conj H1 (conj H2 _))).
  exact (proj1 (proj1 (range_beyond_the_bound_always_rejects (ones 28) r quiet
                         valid_quiet H1) (or_introl H2))).
Defined.

(** ** Randomness that a call reads *)

(** X6: validation comes first. A call that throws has drawn no normal
    sample, and one that rejects an explicit parameter has read no randomness
    at all. *)
Theorem rejected_call_has_drawn_no_noise imageData e :
  (forall angle range x,
     outcome (rotateAugmentation imageData (Some angle) range) e = Throw x ->
     entropy_after (rotateAugmentation imageData (Some angle) range) e = e)
  /\ (forall shift range x,
        outcome (shiftAugmentation imageData (Some shift) range) e = Throw x ->
        entropy_after (shiftAugmentation imageData (Some shift) range) e = e)
  /\ (forall factor range x,
        outcome (zoomAugmentation imageData (Some factor) range) e = Throw x ->
        entropy_after (zoomAugmentation imageData (Some factor) range) e = e)
  /\ (forall factor range x,
        outcome (shearAugmentation imageData (Some factor) range) e = Throw x ->
        entropy_after (shearAugmentation imageData (Some factor) range) e = e)
  /\ (forall angle range x,
        outcome (rotateAugmentation imageData angle range) e = Throw x ->
        gpos (entropy_after (rotateAugmentation imageData angle range) e)
        = gpos e)
  /\ (forall factor range x,
        outcome (shearAugmentation imageData factor range) e = Throw x ->
        gpos (entropy_after (shearAugmentation imageData factor range) e)
        = gpos e).
Proof.
  unfold outcome, entropy_after.
  repeat match goal with |- _ /\ _ => split end.
  - intros angle range x. rewrite rotate_run. cbn [resolved after_resolving].
    repeat match goal with
           | |- context [if ?c then _ else _] => destruct c
           end; cbn [fst snd]; [reflexivity | discriminate | discriminate].
  - intros shift range x. rewrite shift_run.
    cbn [resolved after_resolving option_map].
    repeat match goal with
           | |- context [if ?c then _ else _] => destruct c
           end; reflexivity.
  - intros factor range x. rewrite zoom_run. cbn [resolved after_resolving].
    repeat match goal with
           | |- context [if ?c then _ else _] => destruct c
           end; reflexivity.
  - intros factor range x. rewrite shear_run. cbn [resolved after_resolving].
    repeat match goal with
           | |- context [if ?c then _ else _] => destruct c
           end; cbn [fst snd]; [reflexivity | discriminate | discriminate].
  - intros angle range x. rewrite rotate_run.
    repeat match goal with
           | |- context [if ?c then _ else _] => destruct c
           end; cbn [fst snd]; try discriminate.
    intros _. now destruct angle.
  - intros factor range x. rewrite shear_run.
    repeat match goal with
           | |- context [if ?c then _ else _] => destruct c
           end; cbn [fst snd]; try discriminate.
    intros _. now destruct factor.
Qed.

Lemma rejected_call_has_drawn_no_noise_witness :
  outcome (rotateAugmentation (ones 28) (Some 20) None) loud
  = Throw (Error (rotation_message 20))
  /\ entropy_after (rotateAugmentation (ones 28) (Some 20) None) loud = loud.
Proof.
  assert (H : outcome (rotateAugmentation (ones 28) (Some 20) None) loud
              = Throw (Error (rotation_message 20))) by reflexivity.
  split; [exact H |].
  exact (proj1 (rejected_call_has_drawn_no_noise (ones 28) loud) 20 None _ H).
Defined.

(** X7: with an explicit parameter, shift and zoom are functions of the image
    and the parameter alone: they leave the entropy as it is and return the
    same outcome whatever it holds. Rotate and shear with an explicit
    parameter read no randomness either when they reject the parameter or
    copy the image; when they add noise they read exactly one uniform draw,
    the seed of [tf.randomNormal]. *)
Theorem explicit_parameter_reads_at_most_the_noise_seed imageData e e' :
  (forall shift range,
     entropy_after (shiftAugmentation imageData (Some shift) range) e = e
     /\ outcome (shiftAugmentation imageData (Some shift) range) e
        = outcome (shiftAugmentation imageData (Some shift) range) e')
  /\ (forall factor range,
        entropy_after (zoomAugmentation imageData (Some factor) range) e = e
        /\ outcome (zoomAugmentation imageData (Some factor) range) e
           = outcome (zoomAugmentation imageData (Some factor) range) e')
  /\ (forall angle range,
        Qabs angle < 1 # 10 \/ 15 < Qabs angle ->
        entropy_after (rotateAugmentation imageData (Some angle) range) e = e
        /\ outcome (rotateAugmentation imageData (Some angle) range) e
           = outcome (rotateAugmentation imageData (Some angle) range) e')
  /\ (forall angle range,
        1 # 10 <= Qabs angle -> Qabs angle <= 15 ->
        advanced 1 e (entropy_after
                        (rotateAugmentation imageData (Some angle) range) e))
  /\ (forall factor range,
        Qabs factor < 1 # 1000 \/ 1 # 5 < Qabs factor ->
        entropy_after (shearAugmentation imageData (Some factor) range) e = e
        /\ outcome (shearAugmentation imageData (Some factor) range) e
           = outcome (shearAugmentation imageData (Some factor) range) e')
  /\ (forall factor range,
        1 # 1000 <= Qabs factor -> Qabs factor <= 1 # 5 ->
        advanced 1 e (entropy_after
                        (shearAugmentation imageData (Some factor) range) e)).
Proof.
  unfold outcome, entropy_after, advanced.
  repeat match goal with |- _ /\ _ => split end.
  - intros shift range. rewrite !shift_run.
    cbn [resolved after_resolving option_map].
    repeat match goal with
           | |- context [if ?c then _ else _] => destruct c
           end; split; reflexivity.
  - intros factor range. rewrite !zoom_run. cbn [resolved after_resolving].
    repeat match goal with
           | |- context [if ?c then _ else _] => destruct c
           end; split; reflexivity.
  - intros angle range Hquiet. rewrite !rotate_run.
    cbn [resolved after_resolving].
    destruct (Qabs angle >? 15)%js eqn:Hhi; [now split |].
    destruct (Qabs angle <? 1 # 10)%js eqn:Hlo; [now split |].
    apply Qlt_bool_false_iff in Hhi, Hlo. lra.
  - intros angle range Hlo Hhi. rewrite rotate_run.
    cbn [resolved after_resolving].
    apply Qlt_bool_false_iff in Hlo, Hhi. rewrite Hlo, Hhi.
    cbn [snd use_gauss use_uniform uniform upos]. split; [reflexivity | lia].
  - intros factor range Hquiet. rewrite !shear_run.
    cbn [resolved after_resolving].
    destruct ((factor <? - (1 # 5)) || (factor >? 1 # 5))%js eqn:Hout;
      [now split |].
    destruct (Qabs factor <? 1 # 1000)%js eqn:Hlo; [now split |].
    apply orb_false_iff in Hout as [H1 H2].
    apply Qlt_bool_false_iff in H1, H2, Hlo.
    assert (Hin : Qabs factor <= 1 # 5)
      by (apply Qabs_Qle_condition; split; lra).
    lra.
  - intros factor range Hlo Hhi. rewrite shear_run.
    cbn [resolved after_resolving].
    apply Qabs_Qle_condition in Hhi as [H1 H2].
    apply Qlt_bool_false_iff in Hlo, H1, H2. rewrite H1, H2, Hlo.
    cbn [orb snd use_gauss use_uniform uniform upos].
    split; [reflexivity | lia].
Qed.

Lemma explicit_parameter_reads_at_most_the_noise_seed_witness :
  (1 # 10 <= Qabs 10 /\ Qabs 10 <= 15)
  /\ advanced 1 loud
       (entropy_after (rotateAugmentation (ones 28) (Some 10) None) loud).
Proof.
  assert (H1 : 1 # 10 <= Qabs 10) by discriminate.
  assert (H2 : Qabs 10 <= 15) by discriminate.
  refine (conj (conj H1 H2) _).
  exact (proj1 (proj2 (proj2 (proj2
           (explicit_parameter_reads_at_most_the_noise_seed (ones 28) loud
              skewed)))) 10 None H1 H2).
Defined.

(** ** Shift on any canvas, and shift after shift *)

Lemma has_shape_translate H W t w h :
  has_shape H W t -> (0 < H)%nat -> has_shape H W (translate t w h).
Proof.
  intros Hs Hpos. unfold translate.
  rewrite (shape_of_has_shape _ _ _ Hs Hpos). apply has_shape_tabulate.
Qed.

Lemma pixel_translate H W t w h i j :
  has_shape H W t -> (i < H)%nat -> (j < W)%nat ->
  pixel (translate t w h) i j
  = if ((0 <=? Z.of_nat i - h) && (Z.of_nat i - h <? Z.of_nat H)
        && (0 <=? Z.of_nat j - w) && (Z.of_nat j - w <? Z.of_nat W))%Z
    then pixel t (Z.to_nat (Z.of_nat i - h)) (Z.to_nat (Z.of_nat j - w))
    else 0.
Proof.
  intros Hs Hi Hj. unfold translate.
  rewrite (shape_of_has_shape _ _ _ Hs) by lia.
  now rewrite pixel_tabulate.
Qed.

(** Translations to the right and downwards add up. *)
Lemma translate_translate H W t a b c d :
  has_shape H W t -> (0 < H)%nat ->
  (0 <= a)%Z -> (0 <= b)%Z -> (0 <= c)%Z -> (0 <= d)%Z ->
  translate (translate t a b) c d = translate t (a + c) (b + d).
Proof.
  intros Hs Hpos Ha Hb Hc Hd.
  pose proof (has_shape_translate H W t a b Hs Hpos) as Hs1.
  apply (tensor_ext H W);
    [now apply has_shape_translate | now apply has_shape_translate |].
  intros i j Hi Hj.
  rewrite (pixel_translate H W _ c d i j Hs1 Hi Hj).
  rewrite (pixel_translate H W t (a + c) (b + d) i j Hs Hi Hj).
  destruct ((0 <=? Z.of_nat i - d) && (Z.of_nat i - d <? Z.of_nat H)
            && (0 <=? Z.of_nat j - c) && (Z.of_nat j - c <? Z.of_nat W))%Z
    eqn:Hin.
  - apply andb_prop in Hin as [Hin Hj2]. apply andb_prop in Hin as [Hin Hj1].
    apply andb_prop in Hin as [Hi1 Hi2].
    apply Z.leb_le in Hi1, Hj1. apply Z.ltb_lt in Hi2, Hj2.
    rewrite (pixel_translate H W t a b) by (try exact Hs; lia).
    rewrite !Z2Nat.id by lia.
    replace (Z.of_nat i - d - b)%Z with (Z.of_nat i - (b + d))%Z by lia.
    replace (Z.of_nat j - c - a)%Z with (Z.of_nat j - (a + c))%Z by lia.
    reflexivity.
  - symmetry. apply andb_false_iff in Hin.
    decide_bounds; exfalso;
      repeat match goal with
             | H : _ \/ _ |- _ => destruct H
             | H : andb _ _ = false |- _ => apply andb_false_iff in H
             | H : (_ <=? _)%Z = false |- _ => apply Z.leb_gt in H
             | H : (_ <? _)%Z = false |- _ => apply Z.ltb_ge in H
             end; lia.
Qed.

Lemma before_pad_max s : before_pad s = Z.to_nat (Z.max s 0).
Proof. unfold before_pad. destruct (Z.gtb_spec s 0); f_equal; lia. Qed.

Lemma pads_sum s : (before_pad s + after_pad s)%nat = Z.to_nat (Z.abs s).
Proof.
  unfold before_pad, after_pad.
  destruct (Z.gtb_spec s 0), (Z.ltb_spec s 0); lia.
Qed.

(** X8: on a canvas of any size an accepted shift pads and then reads the
    28 x 28 window at the origin. When the padded canvas covers that window
    the call returns a 28 x 28 tensor: the input moved by the positive parts
    of the shift, cut or zero-filled to the window. When the padded canvas
    is smaller in either direction the crop fails with the TensorFlow.js
    assertion, not with a range error. *)
Theorem shift_pads_then_crops_on_any_canvas H W imageData w h range e :
  has_shape H W imageData -> (0 < H)%nat ->
  (Z.abs w <= 4)%Z -> (Z.abs h <= 4)%Z ->
  ((28 <= Z.of_nat H + Z.abs h)%Z -> (28 <= Z.of_nat W + Z.abs w)%Z ->
   returns (shiftAugmentation imageData
              (Some {| width := w; height := h |}) range) e
     (fun out =>
        has_shape 28 28 out
        /\ forall i j, (i < 28)%nat -> (j < 28)%nat ->
             pixel out i j
             = if ((Z.to_nat (Z.max h 0) <=? i)
                   && (i <? Z.to_nat (Z.max h 0) + H)
                   && (Z.to_nat (Z.max w 0) <=? j)
                   && (j <? Z.to_nat (Z.max w 0) + W))%nat
               then pixel imageData (i - Z.to_nat (Z.max h 0))
                      (j - Z.to_nat (Z.max w 0))
               else 0))
  /\ ((Z.of_nat H + Z.abs h < 28)%Z \/ (Z.of_nat W + Z.abs w < 28)%Z ->
      outcome (shiftAugmentation imageData
                 (Some {| width := w; height := h |}) range) e
      = Throw (TfAssertion "slice3d")).
Proof.
  intros Hs Hpos Hw Hh.
  destruct (shift_outcome imageData e (Some {| width := w; height := h |}) range)
    as [[Hbad _] | [(_ & Hbad & _) | (_ & _ & Hout)]];
    cbn [resolved after_resolving option_map width height] in *;
    [lia | lia |].
  pose proof (has_shape_pad3d H W imageData (before_pad h) (after_pad h)
                (before_pad w) (after_pad w) 0 Hs Hpos) as Hp.
  pose proof (pads_sum h) as Sh. pose proof (pads_sum w) as Sw.
  split.
  - intros HH HW.
    destruct (slice3d_ok _ _ _ 0 0 28 28 Hp) as (out & Hok & Hso);
      [lia | lia | lia |].
    exists out. split; [now rewrite Hout |]. split; [exact Hso |].
    intros i j Hi Hj.
    rewrite (pixel_slice3d _ _ _ _ _ _ i j Hok Hi Hj). cbn [Nat.add].
    rewrite (pixel_pad3d_any H W) by assumption.
    now rewrite !before_pad_max.
  - intros Hsmall. rewrite Hout. unfold tf.slice3d.
    rewrite (shape_of_has_shape _ _ _ Hp) by lia. cbn [fst snd].
    destruct Hsmall as [Hsmall | Hsmall].
    + replace (0 + 28 <=? before_pad h + H + after_pad h)%nat with false
        by (symmetry; apply Nat.leb_gt; lia).
      reflexivity.
    + replace (0 + 28 <=? before_pad w + W + after_pad w)%nat with false
        by (symmetry; apply Nat.leb_gt; lia).
      now rewrite andb_false_r.
Qed.

Lemma shift_pads_then_crops_on_any_canvas_witness :
  (has_shape 32 32 (ones 32)
   /\ returns (shiftAugmentation (ones 32)
                 (Some {| width := 3; height := -2 |}) None) quiet
        (fun out =>
           has_shape 28 28 out
           /\ forall i j, (i < 28)%nat -> (j < 28)%nat ->
                pixel out i j
                = if ((0 <=? i) && (i <? 0 + 32) && (3 <=? j) && (j <? 3 + 32))%nat
                  then pixel (ones 32) (i - 0) (j - 3)
                  else 0))
  /\ (has_shape 20 20 (ones 20)
      /\ outcome (shiftAugmentation (ones 20)
                    (Some {| width := 4; height := 4 |}) None) quiet
         = Throw (TfAssertion "slice3d")).
Proof.
  split.
  - split; [apply has_shape_ones |].
    apply (proj1 (shift_pads_then_crops_on_any_canvas 32 32 (ones 32) 3 (-2)
                    None quiet (has_shape_ones 32) ltac:(lia) ltac:(simpl; lia)
                    ltac:(simpl; lia))); simpl; lia.
  - split; [apply has_shape_ones |].
    apply (proj2 (shift_pads_then_crops_on_any_canvas 20 20 (ones 20) 4 4
                    None quiet (has_shape_ones 20) ltac:(lia) ltac:(simpl; lia)
                    ltac:(simpl; lia))).
    left. simpl. lia.
Defined.

(** X9: two accepted shifts in a row move a 28 x 28 canvas by the sum of
    their positive parts, so the content can travel further than the four
    pixels that one call admits, and a shift to the left or upwards never
    takes back an earlier shift to the right or downwards. *)
Theorem successive_shifts_add_their_positive_parts
    imageData w1 h1 w2 h2 range1 range2 e1 e2 :
  has_shape 28 28 imageData ->
  (Z.abs w1 <= 4)%Z -> (Z.abs h1 <= 4)%Z ->
  (Z.abs w2 <= 4)%Z -> (Z.abs h2 <= 4)%Z ->
  returns (shiftAugmentation imageData
             (Some {| width := w1; height := h1 |}) range1) e1
    (fun first =>
       outcome (shiftAugmentation first
                  (Some {| width := w2; height := h2 |}) range2) e2
       = Ok (translate imageData (Z.max w1 0 + Z.max w2 0)
               (Z.max h1 0 + Z.max h2 0))).
Proof.
  intros Hs Hw1 Hh1 Hw2 Hh2.
  exists (translate imageData (Z.max w1 0) (Z.max h1 0)). split.
  - now apply shift_translates_by_positive_parts.
  - rewrite shift_translates_by_positive_parts;
      [| apply has_shape_translate; [exact Hs | lia] | exact Hw2 | exact Hh2].
    apply (f_equal Ok).
    apply (translate_translate 28 28); try exact Hs; lia.
Qed.

Lemma successive_shifts_add_their_positive_parts_witness :
  has_shape 28 28 (stripe 1)
  /\ returns (shiftAugmentation (stripe 1)
                (Some {| width := 3; height := -2 |}) None) quiet
       (fun first =>
          outcome (shiftAugmentation first
                     (Some {| width := 4; height := 1 |}) None) quiet
          = Ok (translate (stripe 1) 7 1)).
Proof.
  split; [apply has_shape_stripe |].
  apply (successive_shifts_add_their_positive_parts (stripe 1) 3 (-2) 4 1
           None None quiet quiet (has_shape_stripe 1)); simpl; lia.
Defined.

(** ** Intensities along the pipeline *)

Lemma outcome_of_run {A : Type} (m : M A) e r e' :
  m e = (r, e') -> outcome m e = r.
Proof. unfold outcome. now intros ->. Qed.

(** X10: whatever [augmentImage] returns for an input with intensities in
    [[0, 1]] has its intensities in [[0, 1]]: each of the four stages keeps
    the range, whatever the configuration and the random draws. *)
Theorem augmentation_keeps_intensities_in_unit_range imageData config e out :
  in_unit_range imageData ->
  outcome (augmentImage imageData config) e = Ok out ->
  in_unit_range out.
Proof.
  intros Hunit. unfold outcome at 1. rewrite augment_run.
  set (c := orDefault config no_ranges).
  destruct (rotateAugmentation imageData None (rotationRange c) e)
    as [[rotated | x] e1] eqn:E1; [| discriminate].
  apply outcome_of_run in E1.
  pose proof (rotate_in_unit _ _ Hunit _ _ _ E1) as U1.
  destruct (shearAugmentation rotated None (shearRange c) e1)
    as [[sheared | x] e2] eqn:E2; [| discriminate].
  apply outcome_of_run in E2.
  pose proof (shear_in_unit _ _ U1 _ _ _ E2) as U2.
  destruct (zoomAugmentation sheared None (zoomRange c) e2)
    as [[zoomed | x] e3] eqn:E3; [| discriminate].
  apply outcome_of_run in E3.
  pose proof (zoom_in_unit _ _ U2 _ _ _ E3) as U3.
  intros E4. exact (shift_in_unit _ _ U3 _ _ _ E4).
Qed.

Lemma augmentation_keeps_intensities_in_unit_range_witness :
  in_unit_range (ones 28)
  /\ returns (augmentImage (ones 28) None) skewed in_unit_range.
Proof.
  split; [apply in_unit_ones |].
  eexists. split.
  - vm_compute. reflexivity.
  - apply (augmentation_keeps_intensities_in_unit_range (ones 28) None skewed _
             (in_unit_ones 28)).
    vm_compute. reflexivity.
Defined.

(** ** The size of the noise *)

Lemma clip_near x d : 0 <= x <= 1 -> Qabs (tf.clip 0 1 (x + d) - x) <= Qabs d.
Proof.
  intros [Hlo Hhi]. unfold tf.clip.
  pose proof (Qle_Qabs d) as Hd.
  pose proof (Qle_Qabs (- d)) as Hd'. rewrite Qabs_opp in Hd'.
  apply Qabs_Qle_condition.
  destruct (x + d >? 1)%js eqn:H1.
  - apply Qlt_bool_iff in H1. split; lra.
  - apply Qlt_bool_false_iff in H1.
    destruct (x + d <? 0)%js eqn:H0.
    + apply Qlt_bool_iff in H0. split; lra.
    + split; lra.
Qed.

(** X11: on an input with intensities in [[0, 1]] the rotation and the shear
    change each pixel by no more than the noise amount times the magnitude
    of that pixel's normal sample: at most [|angle| / 100] per unit of the
    sample for a rotation and [|factor| / 10] for a shear. Numbers are exact
    rationals: the bound is the one of exact arithmetic, to which the
    program adds the rounding of its 32-bit floats, a few parts in 10^8 of
    the values it adds. *)
Theorem noise_changes_each_pixel_by_a_bounded_amount h w imageData e i j :
  has_shape h w imageData -> in_unit_range imageData ->
  (i < h)%nat -> (j < w)%nat ->
  (forall angle range, 1 # 10 <= Qabs angle -> Qabs angle <= 15 ->
     returns (rotateAugmentation imageData (Some angle) range) e
       (fun out =>
          Qabs (pixel out i j - pixel imageData i j)
          <= Qabs angle / 100 * Qabs (gauss e (gpos e + i * w + j)%nat)))
  /\ (forall factor range,
        1 # 1000 <= Qabs factor -> - (1 # 5) <= factor -> factor <= 1 # 5 ->
        returns (shearAugmentation imageData (Some factor) range) e
          (fun out =>
             Qabs (pixel out i j - pixel imageData i j)
             <= Qabs factor * (1 # 10)
                * Qabs (gauss e (gpos e + i * w + j)%nat))).
Proof.
  intros Hs Hunit Hi Hj.
  pose proof (pixel_unit imageData i j Hunit) as Hp.
  split.
  - intros angle range Hlo Hhi. eexists. split.
    + now apply rotate_is_noise.
    + rewrite (pixel_noisy h w) by assumption.
      eapply Qle_trans; [apply clip_near; exact Hp |].
      rewrite Qplus_0_l, Qabs_Qmult.
      rewrite (Qabs_pos (Qabs angle / 100)); [apply Qle_refl |].
      pose proof (Qabs_nonneg angle).
      apply Qle_shift_div_l; [reflexivity | lra].
  - intros factor range Heps Hlo Hhi. eexists. split.
    + now apply shear_is_noise.
    + rewrite (pixel_noisy h w) by assumption.
      eapply Qle_trans; [apply clip_near; exact Hp |].
      rewrite Qplus_0_l, Qabs_Qmult.
      rewrite (Qabs_pos (Qabs factor * (1 # 10))); [apply Qle_refl |].
      pose proof (Qabs_nonneg factor). lra.
Qed.

Lemma noise_changes_each_pixel_by_a_bounded_amount_witness :
  has_shape 28 28 (blank 28) /\ in_unit_range (blank 28)
  /\ returns (rotateAugmentation (blank 28) (Some 15) None) loud
       (fun out =>
          Qabs (pixel out 3 5 - pixel (blank 28) 3 5)
          <= Qabs 15 / 100 * Qabs (gauss loud (gpos loud + 3 * 28 + 5)%nat)).
Proof.
  assert (Hs : has_shape 28 28 (blank 28)).
  { split; [apply repeat_length |].
    apply Forall_forall; intros row H. apply repeat_spec in H; subst.
    apply repeat_length. }
  assert (Hu : in_unit_range (blank 28)).
  { apply Forall_forall; intros row Hr. apply repeat_spec in Hr; subst.
    apply Forall_forall; intros x Hx. apply repeat_spec in Hx; subst.
    lra. }
  refine (conj Hs (conj Hu _)).
  apply (proj1 (noise_changes_each_pixel_by_a_bounded_amount 28 28 (blank 28)
                  loud 3 5 Hs Hu ltac:(lia) ltac:(lia)) 15 None);
    discriminate.
Defined.

(** ** Sampling the shift *)

(** The draws that [sample_shift] maps to the offset [k] are those of the
    interval number [k + bound] among [2 * bound + 1] equal ones. *)
Lemma sample_shift_interval bound k u :
  (0 <= bound)%Z ->
  (sample_shift bound u = k
   <-> inject_Z (k + bound) / inject_Z (bound * 2 + 1) <= u
       /\ u < inject_Z (k + bound + 1) / inject_Z (bound * 2 + 1)).
Proof.
  intros Hb. unfold sample_shift, Math.floor.
  set (D := inject_Z (bound * 2 + 1)).
  assert (HD : 0 < D).
  { unfold D. change 0 with (inject_Z 0). rewrite <- Zlt_Qlt. lia. }
  split.
  - intros <-.
    replace (Qfloor (u * D) - bound + bound)%Z with (Qfloor (u * D)) by lia.
    split.
    + apply Qle_shift_div_r; [exact HD | apply Qfloor_le].
    + apply Qlt_shift_div_l; [exact HD | apply Qlt_floor].
  - intros [Hlo Hhi].
    assert (Hlo' : inject_Z (k + bound) <= u * D).
    { apply (Qmult_le_r _ _ D HD) in Hlo.
      assert (E : inject_Z (k + bound) / D * D == inject_Z (k + bound))
        by (field; lra).
      now rewrite E in Hlo. }
    assert (Hhi' : u * D < inject_Z (k + bound + 1)).
    { apply (Qmult_lt_r _ _ D HD) in Hhi.
      assert (E : inject_Z (k + bound + 1) / D * D == inject_Z (k + bound + 1))
        by (field; lra).
      now rewrite E in Hhi. }
    pose proof (floor_bounds (u * D) (k + bound) (k + bound) Hlo' Hhi') as F.
    unfold Math.floor in F. lia.
Qed.

(** X12: a shift that is sampled from the range [{bw, bh}] is the explicit
    shift by [(kw, kh)] whenever the two uniform draws fall into the
    intervals number [kw + bw] of [2 * bw + 1] and [kh + bh] of
    [2 * bh + 1] equal parts of [[0, 1)]: every whole offset between
    [- bw] and [bw] (and [- bh] and [bh]) has the same share of the draws,
    the width is drawn first. The draws are not so close below the end of
    their interval that the double product of the program reaches the next
    whole number. *)
Theorem sampled_shift_gives_each_offset_an_equal_share
    imageData bw bh kw kh range e e' :
  (0 <= bw)%Z -> (0 <= bh)%Z ->
  inject_Z (kw + bw) / inject_Z (bw * 2 + 1) <= draw e 0 ->
  draw e 0 < inject_Z (kw + bw + 1) / inject_Z (bw * 2 + 1) ->
  inject_Z (kh + bh) / inject_Z (bh * 2 + 1) <= draw e 1 ->
  draw e 1 < inject_Z (kh + bh + 1) / inject_Z (bh * 2 + 1) ->
  floors_alike (draw e 0 * inject_Z (bw * 2 + 1)) ->
  floors_alike (draw e 1 * inject_Z (bh * 2 + 1)) ->
  outcome (shiftAugmentation imageData None
             (Some {| width := bw; height := bh |})) e
  = outcome (shiftAugmentation imageData
               (Some {| width := kw; height := kh |}) range) e'.
Proof.
  intros Hbw Hbh Hw1 Hw2 Hh1 Hh2 _ _.
  pose proof (proj2 (sample_shift_interval bw kw _ Hbw) (conj Hw1 Hw2)) as Ew.
  pose proof (proj2 (sample_shift_interval bh kh _ Hbh) (conj Hh1 Hh2)) as Eh.
  unfold draw in Ew, Eh. rewrite Nat.add_0_r in Ew.
  replace (upos e + 1)%nat with (S (upos e)) in Eh by lia.
  unfold outcome. rewrite !shift_run.
  cbn [orDefault resolved after_resolving option_map width height
       use_uniform uniform upos].
  rewrite Ew, Eh.
  destruct (Z.abs kw >? 4)%Z; [reflexivity |].
  destruct (Z.abs kh >? 4)%Z; reflexivity.
Qed.

Lemma sampled_shift_gives_each_offset_an_equal_share_witness :
  (inject_Z (-2 + 4) / inject_Z (4 * 2 + 1) <= draw skewed 0
   /\ draw skewed 0 < inject_Z (-2 + 4 + 1) / inject_Z (4 * 2 + 1))
  /\ (inject_Z (-1 + 1) / inject_Z (1 * 2 + 1) <= draw skewed 1
      /\ draw skewed 1 < inject_Z (-1 + 1 + 1) / inject_Z (1 * 2 + 1))
  /\ (floors_alike (draw skewed 0 * inject_Z (4 * 2 + 1))
      /\ floors_alike (draw skewed 1 * inject_Z (1 * 2 + 1)))
  /\ outcome (shiftAugmentation (stripe 1) None
                (Some {| width := 4; height := 1 |})) skewed
     = outcome (shiftAugmentation (stripe 1)
                  (Some {| width := -2; height := -1 |}) None) quiet.
Proof.
  assert (H1 : inject_Z (-2 + 4) / inject_Z (4 * 2 + 1) <= draw skewed 0)
    by discriminate.
  assert (H2 : draw skewed 0 < inject_Z (-2 + 4 + 1) / inject_Z (4 * 2 + 1))
    by reflexivity.
  assert (H3 : inject_Z (-1 + 1) / inject_Z (1 * 2 + 1) <= draw skewed 1)
    by discriminate.
  assert (H4 : draw skewed 1 < inject_Z (-1 + 1 + 1) / inject_Z (1 * 2 + 1))
    by reflexivity.
  assert (H5 : floors_alike (draw skewed 0 * inject_Z (4 * 2 + 1)))
    by reflexivity.
  assert (H6 : floors_alike (draw skewed 1 * inject_Z (1 * 2 + 1)))
    by reflexivity.
  refine (conj (conj H1 H2) (conj (conj H3 H4) (conj (conj H5 H6) _))).
  apply (sampled_shift_gives_each_offset_an_equal_share (stripe 1) 4 1 (-2) (-1)
           None skewed quiet);
    [lia | lia | exact H1 | exact H2 | exact H3 | exact H4 | exact H5
    | exact H6].
Defined.

(** ** Uniform draws along the pipeline *)



(** ** The direction of a rotation or a shear *)

Lemma Qabs_opp_eq (q : Q) : Qabs (- q) = Qabs q.
Proof. destruct q as [n d]. unfold Qabs, Qopp. cbn. now rewrite Z.abs_opp. Qed.

(** X14: the result of an accepted rotation depends on the magnitude of the
    angle only: turning by [angle] and by [- angle] return the same tensor
    on the same normal samples. The same holds for the two directions of a
    shear. *)
Theorem rotation_and_shear_ignore_the_direction imageData e :
  (forall angle range, Qabs angle <= 15 ->
     outcome (rotateAugmentation imageData (Some angle) range) e
     = outcome (rotateAugmentation imageData (Some (- angle)) range) e)
  /\ (forall factor range, Qabs factor <= 1 # 5 ->
        outcome (shearAugmentation imageData (Some factor) range) e
        = outcome (shearAugmentation imageData (Some (- factor)) range) e).
Proof.
  split.
  - intros angle range Hhi. unfold outcome. rewrite !rotate_run.
    cbn [resolved after_resolving]. rewrite Qabs_opp_eq.
    apply Qlt_bool_false_iff in Hhi. now rewrite Hhi.
  - intros factor range Hhi. unfold outcome. rewrite !shear_run.
    cbn [resolved after_resolving]. rewrite Qabs_opp_eq.
    apply Qabs_Qle_condition in Hhi. destruct Hhi as [Hlo Hhi].
    assert (H1 : - (1 # 5) <= factor) by lra.
    assert (H2 : factor <= 1 # 5) by lra.
    assert (H3 : - (1 # 5) <= - factor) by lra.
    assert (H4 : - factor <= 1 # 5) by lra.
    apply Qlt_bool_false_iff in H1, H2, H3, H4.
    now rewrite H1, H2, H3, H4.
Qed.

Lemma rotation_and_shear_ignore_the_direction_witness :
  Qabs 10 <= 15
  /\ outcome (rotateAugmentation (ones 28) (Some 10) None) loud
     = outcome (rotateAugmentation (ones 28) (Some (- 10)) None) loud.
Proof.
  assert (H : Qabs 10 <= 15) by discriminate.
  split; [exact H |].
  exact (proj1 (rotation_and_shear_ignore_the_direction (ones 28) loud)
           10 None H).
Defined.

(** ** Zoom on any canvas *)

(** X15: a zoom by a factor of the valid range that is not within a
    thousandth of 1 returns a 28 x 28 tensor whatever the size of the
    input, and a zoom by a factor within a thousandth of 1 returns the
    input, whatever its size. *)
Theorem zoom_resets_any_canvas_to_the_canvas_size imageData factor range e :
  4 # 5 <= factor -> factor <= 6 # 5 ->
  (1 # 1000 <= Qabs (factor - 1) ->
   returns (zoomAugmentation imageData (Some factor) range) e (has_shape 28 28))
  /\ (Qabs (factor - 1) < 1 # 1000 ->
      outcome (zoomAugmentation imageData (Some factor) range) e = Ok imageData).
Proof.
  intros Hlo Hhi. unfold returns, outcome. rewrite zoom_run.
  cbn [resolved after_resolving fst].
  apply Qlt_bool_false_iff in Hlo as Blo, Hhi as Bhi.
  unfold "<?"%js in Blo |- *. unfold ">?"%js in Bhi |- *.
  rewrite Blo, Bhi. cbn [orb]. split.
  - intros Hfar. apply Qlt_bool_false_iff in Hfar.
    unfold "<?"%js in Hfar. rewrite Hfar.
    exact (rescaled_ok imageData factor Hlo Hhi).
  - intros Hnear. apply Qlt_bool_iff in Hnear.
    unfold "<?"%js in Hnear. now rewrite Hnear.
Qed.

Lemma zoom_resets_any_canvas_to_the_canvas_size_witness :
  has_shape 32 32 (ones 32)
  /\ returns (zoomAugmentation (ones 32) (Some (6 # 5)) None) quiet
       (has_shape 28 28).
Proof.
  split; [apply has_shape_ones |].
  apply (proj1 (zoom_resets_any_canvas_to_the_canvas_size (ones 32) (6 # 5)
                  None quiet ltac:(discriminate) ltac:(discriminate)));
    discriminate.
Defined.

(** * Properties of the mock inference *)

(** ** Arrays without empty slots *)

Lemma reduce_present (l : list Q) (init : Q) :
  Array.reduce Qplus init (List.map Some l) = fold_left Qplus l init.
Proof.
  unfold Array.reduce. revert init.
  induction l as [| x l IH]; intros init; [reflexivity | apply IH].
Qed.

Lemma map_present (f : Q -> Q) (l : list Q) :
  Array.map f (List.map Some l) = List.map Some (List.map f l).
Proof. unfold Array.map. now rewrite !map_map. Qed.

Lemma get_present (l : list Q) (k : Z) :
  (0 <= k < Z.of_nat (length l))%Z ->
  Array.get (List.map Some l) k = Some (nth (Z.to_nat k) l 0).
Proof.
  intros Hk. unfold Array.get.
  destruct (Z.ltb_spec k 0) as [Hneg | _]; [lia |].
  rewrite (nth_indep _ None (Some 0)) by (rewrite length_map; lia).
  apply (map_nth Some).
Qed.

Lemma set_present (l : list Q) (d : Z) (v : Q) :
  (0 <= d < Z.of_nat (length l))%Z ->
  Array.set (List.map Some l) d v
  = List.map Some (firstn (Z.to_nat d) l ++ v :: skipn (S (Z.to_nat d)) l).
Proof.
  intros Hd. unfold Array.set.
  destruct (Z.ltb_spec d 0) as [Hneg | _]; [lia |].
  rewrite length_map.
  destruct (Nat.ltb_spec (Z.to_nat d) (length l)) as [_ | Hout]; [| lia].
  now rewrite map_app, firstn_map, skipn_map.
Qed.

(** ** Sums *)

Lemma fold_left_Qplus (l : list Q) (init : Q) :
  fold_left Qplus l init == init + fold_right Qplus 0 l.
Proof.
  revert init. induction l as [| x l IH]; intros init; simpl.
  - ring.
  - rewrite IH. ring.
Qed.

Lemma total_app (l1 l2 : list Q) :
  fold_right Qplus 0 (l1 ++ l2)
  == fold_right Qplus 0 l1 + fold_right Qplus 0 l2.
Proof.
  induction l1 as [| x l1 IH]; simpl; [ring | rewrite IH; ring].
Qed.

Lemma total_bounds (c : Q) (l : list Q) :
  Forall (fun x => 0 <= x /\ x < c) l ->
  0 <= fold_right Qplus 0 l
  /\ fold_right Qplus 0 l <= inject_Z (Z.of_nat (length l)) * c.
Proof.
  induction 1 as [| x l [Hx0 Hxc] _ [IH0 IHc]]; simpl fold_right.
  - change (inject_Z (Z.of_nat (length (@nil Q)))) with 0. lra.
  - cbn [length]. rewrite Nat2Z.inj_succ. unfold Z.succ.
    rewrite inject_Z_plus. change (inject_Z 1) with 1.
    set (n := inject_Z (Z.of_nat (length l))) in *. lra.
Qed.

Lemma total_scaled (s : Q) (l : list Q) :
  fold_right Qplus 0 (List.map (fun p => p / s) l)
  == fold_right Qplus 0 l / s.
Proof.
  induction l as [| x l IH]; simpl.
  - unfold Qdiv. ring.
  - rewrite IH. unfold Qdiv. ring.
Qed.

(** ** The boosted and normalised array *)

Section Boosted.

Variables (raw : list Q) (d : Z) (b c : Q).
Hypothesis Hlen : length raw = 10%nat.
Hypothesis Hraw : Forall (fun x => 0 <= x /\ x < c) raw.
Hypothesis Hc : c <= 7 # 10.
Hypothesis Hb : 7 # 10 <= b.
Hypothesis Hd : (0 <= d <= 9)%Z.

Lemma boosted_present :
  boosted (List.map Some raw) d b
  = List.map Some
      (List.map (fun p => p / replaced_sum raw d b) (replaced raw d b)).
Proof.
  unfold boosted, replaced_sum. rewrite set_present by lia.
  fold (replaced raw d b). now rewrite reduce_present, map_present.
Qed.

Lemma replaced_length : length (replaced raw d b) = 10%nat.
Proof.
  unfold replaced. rewrite length_app, length_firstn. cbn [length].
  rewrite length_skipn. lia.
Qed.

Lemma boosted_length : length (boosted (List.map Some raw) d b) = 10%nat.
Proof. rewrite boosted_present, !length_map. apply replaced_length. Qed.

Lemma noise_nonneg : 0 <= c.
Proof.
  destruct raw as [| x l]; [discriminate |].
  inversion Hraw as [| ? ? [Hx0 Hxc] _]; subst. lra.
Qed.

Lemma replaced_total :
  fold_right Qplus 0 (replaced raw d b) == replaced_sum raw d b.
Proof. unfold replaced_sum. rewrite fold_left_Qplus. ring. Qed.

Lemma boosted_sum :
  exists rest, replaced_sum raw d b == b + rest /\ 0 <= rest /\ rest <= 9 * c.
Proof.
  exists (fold_right Qplus 0 (firstn (Z.to_nat d) raw)
          + fold_right Qplus 0 (skipn (S (Z.to_nat d)) raw)).
  destruct (total_bounds c _ (Forall_firstn _ (Z.to_nat d) _ Hraw))
    as [F0 Fc].
  destruct (total_bounds c _ (Forall_skipn _ (S (Z.to_nat d)) _ Hraw))
    as [S0 Sc].
  rewrite length_firstn in Fc. rewrite length_skipn in Sc. rewrite Hlen in *.
  replace (Init.Nat.min (Z.to_nat d) 10) with (Z.to_nat d) in Fc by lia.
  split; [| split].
  - rewrite <- replaced_total. unfold replaced.
    rewrite total_app. simpl fold_right. ring.
  - lra.
  - assert (Hn : inject_Z (Z.of_nat (Z.to_nat d))
                 + inject_Z (Z.of_nat (10 - S (Z.to_nat d))) == 9).
    { rewrite <- inject_Z_plus.
      replace (Z.of_nat (Z.to_nat d) + Z.of_nat (10 - S (Z.to_nat d)))%Z
        with 9%Z by lia.
      reflexivity. }
    pose proof noise_nonneg as H0.
    set (p := inject_Z (Z.of_nat (Z.to_nat d))) in *.
    set (q := inject_Z (Z.of_nat (10 - S (Z.to_nat d)))) in *.
    nra.
Qed.

Lemma nth_replaced_at : nth (Z.to_nat d) (replaced raw d b) 0 = b.
Proof.
  unfold replaced. rewrite app_nth2 by (rewrite length_firstn; lia).
  rewrite length_firstn.
  replace (Z.to_nat d - Init.Nat.min (Z.to_nat d) (length raw))%nat
    with 0%nat by lia.
  reflexivity.
Qed.

Lemma nth_replaced_off k :
  (k < 10)%nat -> k <> Z.to_nat d ->
  nth k (replaced raw d b) 0 = nth k raw 0.
Proof.
  intros Hk Hne. unfold replaced.
  destruct (Nat.lt_ge_cases k (Z.to_nat d)) as [Hlt | Hge].
  - rewrite app_nth1 by (rewrite length_firstn; lia).
    rewrite nth_firstn.
    apply Nat.ltb_lt in Hlt. now rewrite Hlt.
  - rewrite app_nth2 by (rewrite length_firstn; lia).
    rewrite length_firstn.
    replace (k - Init.Nat.min (Z.to_nat d) (length raw))%nat
      with (S (k - S (Z.to_nat d))) by lia.
    cbn [nth]. rewrite nth_skipn. f_equal. lia.
Qed.

Lemma boosted_get k :
  (0 <= k <= 9)%Z ->
  Array.get (boosted (List.map Some raw) d b) k
  = Some (nth (Z.to_nat k) (replaced raw d b) 0 / replaced_sum raw d b).
Proof.
  intros Hk. rewrite boosted_present.
  rewrite get_present by (rewrite length_map, replaced_length; lia).
  f_equal.
  rewrite (nth_indep _ 0 ((fun p => p / replaced_sum raw d b) 0))
    by (rewrite length_map, replaced_length; lia).
  apply (map_nth (fun p => p / replaced_sum raw d b)).
Qed.

Lemma boosted_distribution :
  exists conf,
    Array.get (boosted (List.map Some raw) d b) d = Some conf
    /\ (7 # 10) / ((7 # 10) + 9 * c) <= conf /\ conf <= 1
    /\ (forall k, (0 <= k <= 9)%Z -> k <> d ->
          exists p,
            Array.get (boosted (List.map Some raw) d b) k = Some p
            /\ 0 <= p /\ p < conf /\ p < c / (7 # 10))
    /\ Array.reduce Qplus 0 (boosted (List.map Some raw) d b) == 1.
Proof.
  destruct boosted_sum as (rest & Hsum & Hrest0 & Hrest9).
  pose proof noise_nonneg as H0.
  pose proof replaced_total as Htotal.
  pose proof boosted_get as Hget.
  pose proof boosted_present as Hpresent.
  set (sum := replaced_sum raw d b) in *.
  assert (Hpos : 0 < sum) by lra.
  exists (b / sum). split; [| split; [| split; [| split]]].
  - rewrite Hget by exact Hd. now rewrite nth_replaced_at.
  - apply Qle_shift_div_l; [exact Hpos |].
    assert (E : (7 # 10) / ((7 # 10) + 9 * c) * sum
                == (7 # 10) * sum / ((7 # 10) + 9 * c)) by (field; lra).
    rewrite E. apply Qle_shift_div_r; [lra |]. rewrite Hsum. nra.
  - apply Qle_shift_div_r; [exact Hpos | lra].
  - intros k Hk Hne. exists (nth (Z.to_nat k) (replaced raw d b) 0 / sum).
    split; [now apply Hget |].
    rewrite nth_replaced_off by lia.
    pose proof (proj1 (Forall_nth _ _) Hraw (Z.to_nat k) 0 ltac:(lia))
      as [Hx0 Hxc]. cbv beta in Hx0, Hxc.
    set (x := nth (Z.to_nat k) raw 0) in *.
    split; [| split].
    + apply Qle_shift_div_l; [exact Hpos | lra].
    + apply Qlt_shift_div_r; [exact Hpos |].
      assert (E : b / sum * sum == b) by (field; lra).
      rewrite E. lra.
    + apply Qlt_shift_div_r; [exact Hpos |].
      assert (E : c / (7 # 10) * sum == c * sum / (7 # 10)) by (field; lra).
      rewrite E. apply Qlt_shift_div_l; [reflexivity |]. nra.
  - rewrite Hpresent, reduce_present, fold_left_Qplus, total_scaled.
    rewrite Htotal. field. lra.
Qed.

End Boosted.

(** ** The draws of the mocks *)

Lemma after_draws_succ n e :
  after_draws n (use_uniform e) = after_draws (S n) e.
Proof.
  unfold after_draws. symmetry. apply Nat.iter_succ_r.
Qed.

Lemma drawn_shift c e skip n :
  drawn c (use_uniform e) skip n = drawn c e (S skip) n.
Proof.
  unfold drawn. apply map_ext. intros k. unfold draw. cbn [uniform upos use_uniform].
  do 2 f_equal. lia.
Qed.

Lemma drawn_succ c e skip n :
  drawn c e skip (S n) = draw e skip * c :: drawn c e (S skip) n.
Proof.
  unfold drawn. cbn [seq List.map]. rewrite Nat.add_0_r. f_equal.
  rewrite <- seq_shift, map_map. apply map_ext. intros k.
  do 2 f_equal. lia.
Qed.

Lemma mapM_draws c n e :
  Array.mapM (fun _ => u <- Math.random ;; ret (u * c))
    (Array.fill (Array.new n) 0) e
  = (Ok (List.map Some (drawn c e 0 n)), after_draws n e).
Proof.
  revert e. induction n as [| n IH]; intros e; [reflexivity |].
  change (Array.fill (Array.new (S n)) 0)
    with (Some 0 :: Array.fill (Array.new n) 0).
  cbn [Array.mapM]. unfold bind, Math.random, ret.
  pose proof (IH (use_uniform e)) as H. unfold bind, Math.random, ret in H.
  rewrite H.
  rewrite drawn_succ, drawn_shift, after_draws_succ.
  unfold draw. now rewrite Nat.add_0_r.
Qed.

Lemma round_whole (z : Z) : Math.round (inject_Z z) = z.
Proof.
  assert (H : (z <= Math.round (inject_Z z) <= z)%Z); [| lia].
  apply round_bounds.
  - lra.
  - rewrite inject_Z_plus. change (inject_Z 1) with 1. lra.
Qed.

Lemma random_run e : Math.random e = (Ok (draw e 0), after_draws 1 e).
Proof. unfold Math.random, draw. now rewrite Nat.add_0_r. Qed.

Lemma draw_after n e k : draw (after_draws n e) k = draw e (n + k).
Proof.
  revert e. induction n as [| n IH]; intros e; [reflexivity |].
  rewrite <- after_draws_succ, IH. unfold draw.
  cbn [uniform upos use_uniform]. f_equal. lia.
Qed.

Lemma drawn_after c m e skip n :
  drawn c (after_draws m e) skip n = drawn c e (m + skip) n.
Proof.
  unfold drawn. apply map_ext. intros k. rewrite draw_after.
  do 2 f_equal. lia.
Qed.

Lemma after_draws_add m n e :
  after_draws n (after_draws m e) = after_draws (m + n) e.
Proof.
  unfold after_draws. rewrite Nat.add_comm. symmetry. apply Nat.iter_add.
Qed.

Lemma inferDigit_run imageBuffer startTime endTime e :
  let d := Math.floor (draw e 11 * 10) in
  let all := boosted (List.map Some (drawn (15 # 100) e 1 10)) d
               ((7 # 10) + draw e 12 * (25 # 100)) in
  inferDigit imageBuffer startTime endTime e
  = (Ok {| predictedDigit := d;
           confidence := Array.get all d;
           allProbabilities := all;
           inferenceTimeMs := (endTime - startTime)%Z |},
     after_draws 13 e).
Proof.
  intros d all. unfold inferDigit, try_catch.
  rewrite (bind_ok _ _ _ _ _ (random_run e)).
  unfold setTimeout. unfold bind at 1, ret at 1.
  rewrite (bind_ok _ _ _ _ _ (mapM_draws (15 # 100) 10 (after_draws 1 e))).
  rewrite (bind_ok _ _ _ _ _ (random_run _)).
  rewrite (bind_ok _ _ _ _ _ (random_run _)).
  unfold ret. rewrite round_whole.
  rewrite !after_draws_add, !draw_after, drawn_after.
  cbn [Nat.add]. reflexivity.
Qed.

Lemma simulatePrediction_run e :
  let d := Math.floor (draw e 10 * 10) in
  simulatePrediction e
  = (Ok {| digit := d;
           probabilities :=
             boosted (List.map Some (drawn (3 # 10) e 0 10)) d
               ((7 # 10) + draw e 11 * (3 # 10)) |},
     after_draws 12 e).
Proof.
  intros d. unfold simulatePrediction.
  rewrite (bind_ok _ _ _ _ _ (mapM_draws (3 # 10) 10 e)).
  rewrite (bind_ok _ _ _ _ _ (random_run _)).
  rewrite (bind_ok _ _ _ _ _ (random_run _)).
  unfold ret.
  rewrite !after_draws_add, !draw_after.
  cbn [Nat.add]. reflexivity.
Qed.

Lemma drawn_length c e skip n : length (drawn c e skip n) = n.
Proof. unfold drawn. now rewrite length_map, length_seq. Qed.

Lemma drawn_bounds c e skip n :
  valid_entropy e -> 0 < c ->
  Forall (fun x => 0 <= x /\ x < c) (drawn c e skip n).
Proof.
  intros He Hc. unfold drawn. apply Forall_map, Forall_forall.
  intros k _. destruct (valid_draw e (skip + k) He) as [H0 H1]. nra.
Qed.

Lemma digit_bounds e k :
  valid_entropy e -> (0 <= Math.floor (draw e k * 10) <= 9)%Z.
Proof.
  intros He. destruct (valid_draw e k He) as [H0 H1].
  apply floor_bounds.
  - change (inject_Z 0) with 0. lra.
  - change (inject_Z (9 + 1)) with 10. lra.
Qed.

(** ** The inference service *)

(** X16: for every sequence of [Math.random()] draws, [inferDigit] returns a
    digit between 0 and 9 and ten probabilities, of which the one of the
    returned digit is the confidence, is at least 14/41 and exceeds every
    other one; every other probability is below 3/14. *)
Theorem inference_boosts_the_predicted_digit imageBuffer startTime endTime e :
  valid_entropy e ->
  exists r,
    outcome (inferDigit imageBuffer startTime endTime) e = Ok r
    /\ (0 <= predictedDigit r <= 9)%Z
    /\ length (allProbabilities r) = 10%nat
    /\ exists c,
         confidence r = Some c
         /\ Array.get (allProbabilities r) (predictedDigit r) = Some c
         /\ 14 # 41 <= c /\ c <= 1
         /\ forall k, (0 <= k <= 9)%Z -> k <> predictedDigit r ->
              exists p,
                Array.get (allProbabilities r) k = Some p
                /\ 0 <= p /\ p < c /\ p < 3 # 14.
Proof.
  intros He. unfold outcome. rewrite inferDigit_run. cbn [fst].
  eexists. split; [reflexivity |].
  cbn [predictedDigit confidence allProbabilities].
  pose proof (digit_bounds e 11 He) as Hd.
  destruct (valid_draw e 12 He) as [H0 H1].
  split; [exact Hd |].
  split; [apply boosted_length; [apply drawn_length | exact Hd] |].
  destruct (boosted_distribution (drawn (15 # 100) e 1 10)
              (Math.floor (draw e 11 * 10))
              ((7 # 10) + draw e 12 * (25 # 100)) (15 # 100)
              (drawn_length _ _ _ _)
              (drawn_bounds (15 # 100) e 1 10 He ltac:(reflexivity))
              ltac:(discriminate) ltac:(lra) Hd)
    as (c & Hc & Hlo & Hhi & Hothers & _).
  assert (E1 : (7 # 10) / ((7 # 10) + 9 * (15 # 100)) == 14 # 41)
    by reflexivity.
  assert (E2 : (15 # 100) / (7 # 10) == 3 # 14) by reflexivity.
  rewrite E1 in Hlo.
  exists c. split; [exact Hc |]. split; [exact Hc |].
  split; [exact Hlo |]. split; [exact Hhi |].
  intros k Hk Hne. destruct (Hothers k Hk Hne) as (p & Hp & Hp0 & Hpc & Hpb).
  rewrite E2 in Hpb.
  exists p. repeat split; assumption.
Qed.

Lemma inference_boosts_the_predicted_digit_witness :
  valid_entropy quiet
  /\ exists r,
       outcome (inferDigit [] 1000 1035) quiet = Ok r
       /\ (0 <= predictedDigit r <= 9)%Z
       /\ length (allProbabilities r) = 10%nat
       /\ exists c,
            confidence r = Some c
            /\ Array.get (allProbabilities r) (predictedDigit r) = Some c
            /\ 14 # 41 <= c /\ c <= 1
            /\ forall k, (0 <= k <= 9)%Z -> k <> predictedDigit r ->
                 exists p,
                   Array.get (allProbabilities r) k = Some p
                   /\ 0 <= p /\ p < c /\ p < 3 # 14.
Proof.
  split; [exact valid_quiet |].
  exact (inference_boosts_the_predicted_digit [] 1000 1035 quiet valid_quiet).
Defined.

(** X17: the probabilities that [inferDigit] returns add up to 1 (in the
    exact arithmetic of the embedding). *)
Theorem inference_probabilities_sum_to_one imageBuffer startTime endTime e :
  valid_entropy e ->
  exists r,
    outcome (inferDigit imageBuffer startTime endTime) e = Ok r
    /\ Array.reduce Qplus 0 (allProbabilities r) == 1.
Proof.
  intros He. unfold outcome. rewrite inferDigit_run. cbn [fst].
  eexists. split; [reflexivity |]. cbn [allProbabilities].
  destruct (valid_draw e 12 He) as [H0 H1].
  destruct (boosted_distribution (drawn (15 # 100) e 1 10)
              (Math.floor (draw e 11 * 10))
              ((7 # 10) + draw e 12 * (25 # 100)) (15 # 100)
              (drawn_length _ _ _ _)
              (drawn_bounds (15 # 100) e 1 10 He ltac:(reflexivity))
              ltac:(discriminate) ltac:(lra) (digit_bounds e 11 He))
    as (_ & _ & _ & _ & _ & Hsum).
  exact Hsum.
Qed.

Lemma inference_probabilities_sum_to_one_witness :
  valid_entropy skewed
  /\ exists r,
       outcome (inferDigit [] 1000 1035) skewed = Ok r
       /\ Array.reduce Qplus 0 (allProbabilities r) == 1.
Proof.
  assert (He : valid_entropy skewed) by (intros n; split; [discriminate | reflexivity]).
  split; [exact He |].
  exact (inference_probabilities_sum_to_one [] 1000 1035 skewed He).
Defined.

(** ** The digit canvas *)

(** X18: for every sequence of [Math.random()] draws, [simulatePrediction]
    returns a digit between 0 and 9 and ten probabilities that add up to 1;
    the probability of the returned digit exceeds every other one and is
    at least 7/34, and every other probability is below 3/7. *)
Theorem canvas_prediction_boosts_the_predicted_digit e :
  valid_entropy e ->
  exists r,
    outcome simulatePrediction e = Ok r
    /\ (0 <= digit r <= 9)%Z
    /\ length (probabilities r) = 10%nat
    /\ Array.reduce Qplus 0 (probabilities r) == 1
    /\ exists c,
         Array.get (probabilities r) (digit r) = Some c
         /\ 7 # 34 <= c /\ c <= 1
         /\ forall k, (0 <= k <= 9)%Z -> k <> digit r ->
              exists p,
                Array.get (probabilities r) k = Some p
                /\ 0 <= p /\ p < c /\ p < 3 # 7.
Proof.
  intros He. unfold outcome. rewrite simulatePrediction_run. cbn [fst].
  eexists. split; [reflexivity |]. cbn [digit probabilities].
  pose proof (digit_bounds e 10 He) as Hd.
  destruct (valid_draw e 11 He) as [H0 H1].
  split; [exact Hd |].
  split; [apply boosted_length; [apply drawn_length | exact Hd] |].
  destruct (boosted_distribution (drawn (3 # 10) e 0 10)
              (Math.floor (draw e 10 * 10))
              ((7 # 10) + draw e 11 * (3 # 10)) (3 # 10)
              (drawn_length _ _ _ _)
              (drawn_bounds (3 # 10) e 0 10 He ltac:(reflexivity))
              ltac:(discriminate) ltac:(lra) Hd)
    as (c & Hc & Hlo & Hhi & Hothers & Hsum).
  assert (E1 : (7 # 10) / ((7 # 10) + 9 * (3 # 10)) == 7 # 34)
    by reflexivity.
  assert (E2 : (3 # 10) / (7 # 10) == 3 # 7) by reflexivity.
  rewrite E1 in Hlo.
  split; [exact Hsum |].
  exists c. split; [exact Hc |].
  split; [exact Hlo |]. split; [exact Hhi |].
  intros k Hk Hne. destruct (Hothers k Hk Hne) as (p & Hp & Hp0 & Hpc & Hpb).
  rewrite E2 in Hpb.
  exists p. repeat split; assumption.
Qed.

Lemma canvas_prediction_boosts_the_predicted_digit_witness :
  valid_entropy quiet
  /\ exists r,
       outcome simulatePrediction quiet = Ok r
       /\ (0 <= digit r <= 9)%Z
       /\ length (probabilities r) = 10%nat
       /\ Array.reduce Qplus 0 (probabilities r) == 1
       /\ exists c,
            Array.get (probabilities r) (digit r) = Some c
            /\ 7 # 34 <= c /\ c <= 1
            /\ forall k, (0 <= k <= 9)%Z -> k <> digit r ->
                 exists p,
                   Array.get (probabilities r) k = Some p
                   /\ 0 <= p /\ p < c /\ p < 3 # 7.
Proof.
  split; [exact valid_quiet |].
  exact (canvas_prediction_boosts_the_predicted_digit quiet valid_quiet).
Defined.

(** * Properties of the session identifier *)

Lemma valid_use_uniform e : valid_entropy e -> valid_entropy (use_uniform e).
Proof. intros He n. apply He. Qed.

Lemma ToInt32_draw u :
  0 <= u -> u < 1 -> (0 <= ToInt32 (u * 16) <= 15)%Z.
Proof.
  intros H0 H1. unfold ToInt32.
  assert (Hneg : (u * 16 <? 0)%js = false) by (apply Qlt_bool_false_iff; lra).
  rewrite Hneg.
  assert (Hf : (0 <= Qfloor (u * 16) <= 15)%Z).
  { apply floor_bounds.
    - change (inject_Z 0) with 0. lra.
    - change (inject_Z (15 + 1)) with 16. lra. }
  rewrite Z.mod_small by lia.
  destruct (Z.leb_spec (2 ^ 31) (Qfloor (u * 16))) as [Hbig | _]; lia.
Qed.

Lemma sixteen_cases (r : Z) :
  (0 <= r <= 15)%Z ->
  In r [0; 1; 2; 3; 4; 5; 6; 7; 8; 9; 10; 11; 12; 13; 14; 15]%Z.
Proof.
  intros H. unfold In.
  assert (C : (r = 0 \/ r = 1 \/ r = 2 \/ r = 3 \/ r = 4 \/ r = 5 \/ r = 6
               \/ r = 7 \/ r = 8 \/ r = 9 \/ r = 10 \/ r = 11 \/ r = 12
               \/ r = 13 \/ r = 14 \/ r = 15)%Z) by lia.
  intuition.
Qed.

Lemma hex_digit (r : Z) :
  (0 <= r <= 15)%Z ->
  exists c, toString16 r = String c EmptyString /\ in_class HexDigit c = true.
Proof.
  intros H. apply sixteen_cases in H. cbn [In] in H.
  repeat (destruct H as [<- | H]; [eexists; split; reflexivity |]).
  contradiction.
Qed.

Lemma variant_digit (r : Z) :
  (0 <= r <= 15)%Z ->
  exists c, toString16 (Z.lor (Z.land r 3) 8) = String c EmptyString
            /\ in_class VariantDigit c = true.
Proof.
  intros H. apply sixteen_cases in H. cbn [In] in H.
  repeat (destruct H as [<- | H]; [eexists; split; reflexivity |]).
  contradiction.
Qed.

Lemma replace_xy_form template e :
  valid_entropy e ->
  exists s,
    replace_xy template
      (fun c =>
         u <- Math.random ;;
         let r := ToInt32 (u * 16) in
         let v := if (c =? "x")%char then r else Z.lor (Z.land r 3) 8 in
         ret (toString16 v)) e
    = (Ok s, after_draws (placeholders template) e)
    /\ has_form (form_of template) s = true.
Proof.
  set (f := fun c : ascii => _).
  revert e. induction template as [| c rest IH]; intros e He.
  - exists EmptyString. split; reflexivity.
  - cbn [replace_xy placeholders form_of].
    destruct ((c =? "x") || (c =? "y"))%char eqn:Hxy.
    + destruct (IH (use_uniform e) (valid_use_uniform e He))
        as (s' & Hrun & Hform).
      pose proof (ToInt32_draw (uniform e (upos e)) (proj1 (He _)) (proj2 (He _)))
        as Hr.
      assert (Hc : exists ch,
                 f c e = (Ok (String ch EmptyString), use_uniform e)
                 /\ in_class (class_of c) ch = true).
      { unfold f, class_of, bind, Math.random, ret. cbv zeta.
        destruct (c =? "x")%char eqn:Hx.
        - destruct (hex_digit _ Hr) as (ch & -> & Hclass). now exists ch.
        - cbn [orb] in Hxy. rewrite Hxy.
          destruct (variant_digit _ Hr) as (ch & -> & Hclass). now exists ch. }
      destruct Hc as (ch & Hch & Hclass).
      exists (String ch s'). split.
      * rewrite (bind_ok _ _ _ _ _ Hch), (bind_ok _ _ _ _ _ Hrun).
        unfold ret. cbn [Nat.add append]. now rewrite after_draws_succ.
      * cbn [has_form]. now rewrite Hclass, Hform.
    + destruct (IH e He) as (s' & Hrun & Hform).
      exists (String c s'). split.
      * now rewrite (bind_ok _ _ _ _ _ Hrun).
      * cbn [has_form]. unfold class_of.
        apply orb_false_iff in Hxy as [Hx Hy]. rewrite Hx, Hy.
        cbn [in_class]. now rewrite Ascii.eqb_refl, Hform.
Qed.

Lemma sessionId_run e :
  valid_entropy e ->
  exists s,
    sessionId e = (Ok s, after_draws 31 e)
    /\ has_form (form_of "xxxxxxxx-xxxx-4xxx-yxxx-xxxxxxxxxxxx") s = true.
Proof.
  intros He.
  exact (replace_xy_form "xxxxxxxx-xxxx-4xxx-yxxx-xxxxxxxxxxxx" e He).
Qed.

(** X19: for every sequence of [Math.random()] draws the session identifier
    has the textual form of a version 4 UUID: 36 characters, lower-case
    hexadecimal digits in the groups 8-4-4-4-12, the version digit 4 and a
    variant digit among 8, 9, a and b. It takes 31 draws. *)
Theorem session_id_is_a_version_4_uuid e :
  valid_entropy e ->
  exists s,
    outcome sessionId e = Ok s
    /\ uuid_v4 s = true
    /\ String.length s = 36%nat
    /\ entropy_after sessionId e = after_draws 31 e.
Proof.
  intros He.
  destruct (sessionId_run e He) as (s & Hrun & Hform).
  exists s. unfold outcome, entropy_after. rewrite Hrun.
  split; [reflexivity |]. split; [exact Hform |]. split; [| reflexivity].
  clear Hrun. cbn [form_of] in Hform.
  repeat (destruct s as [| ? s]; [discriminate Hform |];
          cbn [has_form] in Hform;
          apply andb_prop in Hform as [_ Hform]).
  destruct s; [reflexivity | discriminate Hform].
Qed.

Lemma session_id_is_a_version_4_uuid_witness :
  valid_entropy quiet
  /\ exists s,
       outcome sessionId quiet = Ok s
       /\ uuid_v4 s = true
       /\ String.length s = 36%nat
       /\ entropy_after sessionId quiet = after_draws 31 quiet.
Proof.
  split; [exact valid_quiet |].
  exact (session_id_is_a_version_4_uuid quiet valid_quiet).
Defined.

(** * Properties of the input validation *)

(** ** The matcher decides the denotation *)

Lemma append_empty (s1 s2 : string) :
  (s1 ++ s2)%string = EmptyString -> s1 = EmptyString /\ s2 = EmptyString.
Proof. destruct s1; [now split | discriminate]. Qed.

Lemma append_nil_r (s : string) : (s ++ "")%string = s.
Proof. induction s as [| c s IH]; simpl; [reflexivity | now rewrite IH]. Qed.

Lemma append_assoc (s1 s2 s3 : string) :
  ((s1 ++ s2) ++ s3)%string = (s1 ++ (s2 ++ s3))%string.
Proof. induction s1 as [| c s1 IH]; simpl; [reflexivity | now rewrite IH]. Qed.

Lemma nullable_denotes r : RegExp.nullable r = true <-> denotes r EmptyString.
Proof.
  induction r as [| | cls | r1 IH1 r2 IH2 | r1 IH1 r2 IH2 | r IH]; simpl.
  - split; [discriminate | contradiction].
  - split; reflexivity.
  - split; [discriminate | intros (c & H & _); discriminate].
  - rewrite andb_true_iff, IH1, IH2. split.
    + intros [H1 H2]. now exists EmptyString, EmptyString.
    + intros (s1 & s2 & E & H1 & H2). symmetry in E.
      apply append_empty in E as [-> ->]. now split.
  - now rewrite orb_true_iff, IH1, IH2.
  - split; [intros _; constructor | reflexivity].
Qed.

Lemma repeated_cons (L : string -> Prop) c s :
  repeated L (String c s) ->
  exists s1 s2, s = (s1 ++ s2)%string /\ L (String c s1) /\ repeated L s2.
Proof.
  intros H. remember (String c s) as t eqn:E. revert c s E.
  induction H as [| s1 s2 H1 H2 IH]; intros c s E; [discriminate |].
  destruct s1 as [| c1 s1].
  - simpl in E. now apply IH.
  - simpl in E. injection E as -> <-. now exists s1, s2.
Qed.

Lemma deriv_denotes c r s :
  denotes (RegExp.deriv c r) s <-> denotes r (String c s).
Proof.
  revert s.
  induction r as [| | cls | r1 IH1 r2 IH2 | r1 IH1 r2 IH2 | r IH];
    intros s; simpl.
  - reflexivity.
  - split; [contradiction | discriminate].
  - destruct (cls c) eqn:Hc; simpl.
    + split.
      * intros ->. now exists c.
      * intros (c' & E & _). now injection E.
    + split; [contradiction |].
      intros (c' & E & H). injection E as <- _. congruence.
  - assert (Hcat : (exists s1 s2, s = (s1 ++ s2)%string
                      /\ denotes (RegExp.deriv c r1) s1 /\ denotes r2 s2)
                   <-> (exists t1 t2, String c s = (String c t1 ++ t2)%string
                          /\ denotes r1 (String c t1) /\ denotes r2 t2)).
    { split.
      - intros (s1 & s2 & -> & H1 & H2). exists s1, s2.
        split; [reflexivity |]. split; [now apply IH1 | exact H2].
      - intros (t1 & t2 & E & H1 & H2). simpl in E. injection E as ->.
        exists t1, t2. split; [reflexivity |].
        split; [now apply IH1 | exact H2]. }
    destruct (RegExp.nullable r1) eqn:Hn; simpl.
    + rewrite Hcat, IH2. split.
      * intros [(t1 & t2 & E & H1 & H2) | H2].
        -- now exists (String c t1), t2.
        -- exists EmptyString, (String c s). split; [reflexivity |].
           split; [now apply nullable_denotes | exact H2].
      * intros (t1 & t2 & E & H1 & H2). destruct t1 as [| c1 t1].
        -- right. simpl in E. now rewrite E.
        -- left. simpl in E. injection E as <- ->. now exists t1, t2.
    + rewrite Hcat. split.
      * intros (t1 & t2 & E & H1 & H2). now exists (String c t1), t2.
      * intros (t1 & t2 & E & H1 & H2). destruct t1 as [| c1 t1].
        -- apply nullable_denotes in H1. congruence.
        -- simpl in E. injection E as <- ->. now exists t1, t2.
  - now rewrite IH1, IH2.
  - split.
    + intros (s1 & s2 & -> & H1 & H2).
      change (String c (s1 ++ s2)) with (String c s1 ++ s2)%string.
      constructor; [now apply IH | exact H2].
    + intros H. apply repeated_cons in H as (s1 & s2 & -> & H1 & H2).
      exists s1, s2. split; [reflexivity |]. split; [now apply IH | exact H2].
Qed.

Lemma test_denotes r s : RegExp.test r s = true <-> denotes r s.
Proof.
  revert r. induction s as [| c s IH]; intros r; simpl.
  - apply nullable_denotes.
  - now rewrite IH, deriv_denotes.
Qed.

(** ** What the pattern of [validateInput] denotes *)

Lemma denotes_Str p s : denotes (RegExp.Str p) s <-> s = p.
Proof.
  revert s. induction p as [| c p IH]; intros s; simpl.
  - reflexivity.
  - split.
    + intros (s1 & s2 & -> & (c' & -> & Hc) & H2).
      apply Ascii.eqb_eq in Hc. subst c'. apply IH in H2. now subst.
    + intros ->. exists (String c EmptyString), p.
      split; [reflexivity |]. split; [| now apply IH].
      exists c. split; [reflexivity | apply Ascii.eqb_refl].
Qed.

Lemma repeated_Class cls s :
  repeated (denotes (RegExp.Class cls)) s <-> all_in cls s = true.
Proof.
  split.
  - induction 1 as [| s1 s2 (c & -> & Hc) _ IH]; [reflexivity |].
    simpl. now rewrite Hc, IH.
  - induction s as [| c s IH]; simpl; intros H; [constructor |].
    apply andb_prop in H as [Hc Hs].
    change (String c s) with (String c EmptyString ++ s)%string.
    constructor; [now exists c | now apply IH].
Qed.

Lemma denotes_Plus_Class cls s :
  denotes (RegExp.Plus (RegExp.Class cls)) s
  <-> s <> EmptyString /\ all_in cls s = true.
Proof.
  unfold RegExp.Plus. cbn [denotes]. split.
  - intros (s1 & s2 & -> & (c & -> & Hc) & H2).
    apply repeated_Class in H2. split; [discriminate |].
    simpl. now rewrite Hc, H2.
  - intros [Hne H]. destruct s as [| c s]; [congruence |].
    simpl in H. apply andb_prop in H as [Hc Hs].
    exists (String c EmptyString), s. split; [reflexivity |].
    split; [now exists c | now apply repeated_Class].
Qed.

Lemma denotes_padding s :
  denotes (RegExp.UpTo 2 (RegExp.Chr "=")) s
  <-> s = EmptyString \/ s = "="%string \/ s = "=="%string.
Proof.
  cbn [RegExp.UpTo RegExp.Opt RegExp.Chr denotes]. split.
  - intros [-> | (s1 & s2 & -> & (c & -> & Hc) & [-> | H])]; [now left | |].
    + apply Ascii.eqb_eq in Hc. subst c. right. now left.
    + destruct H as (s3 & s4 & -> & (c' & -> & Hc') & ->).
      apply Ascii.eqb_eq in Hc, Hc'. subst c c'. right. now right.
  - intros [-> | [-> | ->]].
    + now left.
    + right. exists "="%string, EmptyString. split; [reflexivity |].
      split; [exists "="%char; now split | now left].
    + right. exists "="%string, "="%string. split; [reflexivity |].
      split; [exists "="%char; now split |].
      right. exists "="%string, EmptyString. split; [reflexivity |].
      split; [exists "="%char; now split | reflexivity].
Qed.

Lemma prefix_append p s : String.prefix p (p ++ s) = true.
Proof.
  induction p as [| c p IH]; simpl; [now destruct s |].
  destruct (ascii_dec c c) as [_ | Hne]; [exact IH | congruence].
Qed.

(** The strings that [STRICT_BASE64_REGEX] matches. *)
Lemma strict_base64_denotes s :
  RegExp.test
    (RegExp.Cat (RegExp.Str "data:image/png;base64,")
       (RegExp.Cat (RegExp.Plus (RegExp.Class base64_char))
          (RegExp.UpTo 2 (RegExp.Chr "=")))) s = true
  <-> exists body pad,
        s = ("data:image/png;base64," ++ body ++ pad)%string
        /\ body <> EmptyString /\ all_in base64_char body = true
        /\ (pad = EmptyString \/ pad = "="%string \/ pad = "=="%string).
Proof.
  rewrite test_denotes. cbn [denotes]. split.
  - intros (s1 & s2 & -> & H1 & body & pad & -> & Hbody & Hpad).
    apply denotes_Str in H1. subst s1.
    apply denotes_Plus_Class in Hbody as [Hne Hall].
    apply denotes_padding in Hpad.
    now exists body, pad.
  - intros (body & pad & -> & Hne & Hall & Hpad).
    exists "data:image/png;base64,"%string, (body ++ pad)%string.
    split; [reflexivity |]. split; [now apply denotes_Str |].
    exists body, pad. split; [reflexivity |].
    split; [now apply denotes_Plus_Class | now apply denotes_padding].
Qed.

(** ** validateInput *)

(** X20: [validateInput] never reports "Must be PNG format": a string that
    passes the pattern starts with the PNG data-URL prefix, so the check
    after the pattern cannot fail. *)
Theorem png_format_error_is_never_reported imageData :
  error (validateInput imageData) <> Some "Must be PNG format"%string.
Proof.
  unfold validateInput.
  destruct (String.length imageData =? 0)%nat; [discriminate |].
  destruct (65536 <? N.of_nat (String.length imageData))%N; [discriminate |].
  destruct (RegExp.test _ imageData) eqn:Htest; cbn [negb]; [| discriminate].
  apply strict_base64_denotes in Htest as (body & pad & -> & _).
  unfold startsWith. rewrite prefix_append. discriminate.
Qed.

Lemma png_format_error_is_never_reported_witness :
  error (validateInput "data:image/jpeg;base64,AAAA")
  <> Some "Must be PNG format"%string.
Proof.
  exact (png_format_error_is_never_reported "data:image/jpeg;base64,AAAA").
Defined.

Lemma accepted_is_data_url imageData :
  success (validateInput imageData) = true ->
  (N.of_nat (String.length imageData) <= 65536)%N
  /\ exists body pad,
       imageData = ("data:image/png;base64," ++ body ++ pad)%string
       /\ body <> EmptyString /\ all_in base64_char body = true
       /\ (pad = EmptyString \/ pad = "="%string \/ pad = "=="%string).
Proof.
  unfold validateInput.
  destruct (String.length imageData =? 0)%nat; [discriminate |].
  destruct (N.ltb_spec 65536 (N.of_nat (String.length imageData)))
    as [Hbig | Hsmall]; [discriminate |].
  destruct (RegExp.test _ imageData) eqn:Htest; cbn [negb]; [| discriminate].
  intros _. split; [exact Hsmall |]. now apply strict_base64_denotes.
Qed.

Lemma data_url_is_accepted imageData :
  (N.of_nat (String.length imageData) <= 65536)%N ->
  (exists body pad,
     imageData = ("data:image/png;base64," ++ body ++ pad)%string
     /\ body <> EmptyString /\ all_in base64_char body = true
     /\ (pad = EmptyString \/ pad = "="%string \/ pad = "=="%string)) ->
  success (validateInput imageData) = true.
Proof.
  intros Hsmall Hform. unfold validateInput.
  pose proof Hform as (body & pad & E & Hne & _).
  apply strict_base64_denotes in Hform.
  destruct (Nat.eqb_spec (String.length imageData) 0) as [Hzero | _].
  { subst imageData. discriminate Hzero. }
  destruct (N.ltb_spec 65536 (N.of_nat (String.length imageData)))
    as [Hbig | _]; [lia |].
  rewrite Hform. cbn [negb]. subst imageData.
  unfold startsWith. now rewrite prefix_append.
Qed.

(** X21: [validateInput] accepts exactly the strings of at most 65536
    characters that consist of the prefix [data:image/png;base64,], at
    least one character of the base64 alphabet and at most two [=] signs. *)
Theorem validateInput_accepts_png_data_urls_only imageData :
  success (validateInput imageData) = true
  <-> (N.of_nat (String.length imageData) <= 65536)%N
      /\ exists body pad,
           imageData = ("data:image/png;base64," ++ body ++ pad)%string
           /\ body <> EmptyString /\ all_in base64_char body = true
           /\ (pad = EmptyString \/ pad = "="%string \/ pad = "=="%string).
Proof.
  split.
  - apply accepted_is_data_url.
  - intros [Hsmall Hform]. now apply data_url_is_accepted.
Qed.

Lemma validateInput_accepts_png_data_urls_only_witness :
  success (validateInput "data:image/png;base64,iVBORw0KGgo=") = true.
Proof.
  apply (proj2 (validateInput_accepts_png_data_urls_only
                  "data:image/png;base64,iVBORw0KGgo=")).
  split; [vm_compute; discriminate |].
  exists "iVBORw0KGgo"%string, "="%string.
  split; [reflexivity |]. split; [discriminate |].
  split; [reflexivity |]. right. now left.
Defined.

(** * Properties of the prediction procedure *)

Lemma split_nonempty sep s : split sep s <> [].
Proof.
  destruct s as [| c s]; simpl; [discriminate |].
  destruct (c =? sep)%char; [discriminate |].
  destruct (split sep s); discriminate.
Qed.

Lemma split_comma_free s : comma_free s = true -> split "," s = [s].
Proof.
  unfold comma_free. induction s as [| c s IH]; simpl; [reflexivity |].
  intros H. apply andb_prop in H as [Hc Hs].
  apply negb_true_iff in Hc. rewrite Hc. now rewrite IH.
Qed.

Lemma split_second s :
  comma_free s = false -> exists piece, nth_error (split "," s) 1 = Some piece.
Proof.
  unfold comma_free. induction s as [| c s IH]; simpl; [discriminate |].
  destruct (c =? ",")%char eqn:Hc; cbn [negb andb].
  - intros _. pose proof (split_nonempty "," s) as Hne.
    destruct (split "," s) as [| piece pieces]; [congruence |].
    now exists piece.
  - intros H. destruct (IH H) as (piece & Hp).
    destruct (split "," s) as [| first pieces]; [discriminate Hp |].
    now exists piece.
Qed.

Lemma all_in_append cls s1 s2 :
  all_in cls (s1 ++ s2) = all_in cls s1 && all_in cls s2.
Proof.
  induction s1 as [| c s1 IH]; simpl; [reflexivity |].
  now rewrite IH, andb_assoc.
Qed.

Lemma all_in_weaken (cls cls' : ascii -> bool) s :
  (forall c, cls c = true -> cls' c = true) ->
  all_in cls s = true -> all_in cls' s = true.
Proof.
  intros Hsub. induction s as [| c s IH]; simpl; [reflexivity |].
  intros H. apply andb_prop in H as [Hc Hs].
  now rewrite (Hsub c Hc), IH.
Qed.

Lemma base64_char_is_no_comma c :
  base64_char c = true -> negb (c =? ",")%char = true.
Proof.
  destruct (c =? ",")%char eqn:Hc; [| reflexivity].
  apply Ascii.eqb_eq in Hc. subst c. discriminate.
Qed.

Lemma split_data_url payload :
  comma_free payload = true ->
  nth_error (split "," ("data:image/png;base64," ++ payload)) 1 = Some payload.
Proof.
  intros H. cbn [append split Ascii.eqb Bool.eqb].
  now rewrite (split_comma_free payload H).
Qed.

(** ** The input schema *)

Lemma length_append (s1 s2 : string) :
  String.length (s1 ++ s2) = (String.length s1 + String.length s2)%nat.
Proof. induction s1 as [| c s1 IH]; simpl; [reflexivity | now rewrite IH]. Qed.

Lemma slice_append p s : slice (String.length p) (p ++ s) = s.
Proof. induction p as [| c p IH]; simpl; [reflexivity | exact IH]. Qed.

Lemma trim_keeps_text c s :
  is_white c = false -> (0 <? String.length (trim (String c s)))%nat = true.
Proof.
  intros Hc. unfold trim. cbn [trimStart]. rewrite Hc. cbn [trimEnd].
  rewrite Hc. now destruct (trimEnd s).
Qed.

Lemma string_parsed checks value data :
  z.string checks value = Some data ->
  value = Some (JString data)
  /\ forallb (fun passes => passes data) checks = true.
Proof.
  unfold z.string. destruct value as [[| | | s | |] |]; try discriminate.
  destruct (forallb (fun passes => passes s) checks) eqn:E; [| discriminate].
  intros [= ->]. now split.
Qed.

(** What [validateInput] checks. *)
Lemma validateInput_success imageData :
  success (validateInput imageData)
  = negb (String.length imageData =? 0)%nat
    && (N.of_nat (String.length imageData) <=? 65536)%N
    && RegExp.test ml_schema.STRICT_BASE64_DATA_URL_REGEX imageData
    && startsWith imageData ml_schema.DATA_URL_PREFIX.
Proof.
  unfold validateInput, ml_schema.STRICT_BASE64_DATA_URL_REGEX,
    ml_schema.DATA_URL_PREFIX.
  destruct (String.length imageData =? 0)%nat; [reflexivity |].
  rewrite N.ltb_antisym.
  destruct (N.of_nat (String.length imageData) <=? 65536)%N; [| reflexivity].
  destruct (RegExp.test _ imageData); [| reflexivity].
  now destruct (startsWith imageData _).
Qed.

(** A string that the pattern of the schema matches passes the refinements
    on the trimmed text and on the prefix, and its payload is what follows
    the prefix. *)
Lemma matched_data_url data :
  RegExp.test ml_schema.STRICT_BASE64_DATA_URL_REGEX data = true ->
  exists payload,
    data = (ml_schema.DATA_URL_PREFIX ++ payload)%string
    /\ comma_free payload = true
    /\ (0 <? String.length payload)%nat = true
    /\ (0 <? String.length (trim data))%nat = true
    /\ startsWith data ml_schema.DATA_URL_PREFIX = true
    /\ slice (String.length ml_schema.DATA_URL_PREFIX) data = payload
    /\ String.length data = (22 + String.length payload)%nat.
Proof.
  intros Htest.
  apply strict_base64_denotes in Htest
    as (body & pad & -> & Hne & Hbody & Hpad).
  exists (body ++ pad)%string. split; [reflexivity |].
  split.
  { unfold comma_free. rewrite all_in_append.
    rewrite (all_in_weaken _ _ body base64_char_is_no_comma Hbody).
    destruct Hpad as [-> | [-> | ->]]; reflexivity. }
  split.
  { destruct body as [| c body]; [congruence | reflexivity]. }
  split; [now apply trim_keeps_text |].
  split; [unfold startsWith; apply prefix_append |].
  split; [apply (slice_append ml_schema.DATA_URL_PREFIX) |].
  exact (length_append ml_schema.DATA_URL_PREFIX (body ++ pad)).
Qed.

(** What the schema makes of the request of the client. *)
Lemma schema_on_request uuid imageData sessionId :
  ml_schema.PredictInputSchema uuid (request imageData sessionId)
  = if success (validateInput imageData)
       && (N.of_nat (String.length imageData) <? 60022)%N
       && uuid sessionId
    then Some {| ml_schema.imageData := imageData;
                 ml_schema.sessionId := sessionId |}
    else None.
Proof.
  unfold ml_schema.PredictInputSchema, request.
  change (get "imageData" _) with (Some (JString imageData)).
  change (get "sessionId" _) with (Some (JString sessionId)).
  change (z.strict _ _) with true.
  rewrite validateInput_success.
  unfold z.string, z.max, z.regex, z.refine. cbn [forallb].
  rewrite !andb_true_r.
  destruct (RegExp.test ml_schema.STRICT_BASE64_DATA_URL_REGEX imageData)
    eqn:Htest.
  - destruct (matched_data_url imageData Htest)
      as (payload & _ & _ & Hpos & Htrim & Hprefix & Hslice & Hlen).
    rewrite Htrim, Hprefix, Hslice, Hpos, Hlen. cbn [andb].
    rewrite !andb_true_r.
    assert (E : (22 + String.length payload =? 0)%nat = false) by reflexivity.
    rewrite E. cbn [negb andb].
    destruct (N.leb_spec (N.of_nat (22 + String.length payload)) 65536);
      destruct (N.ltb_spec (N.of_nat (String.length payload)) 60000);
      destruct (N.ltb_spec (N.of_nat (22 + String.length payload)) 60022);
      try lia; cbn [andb]; try reflexivity.
    now destruct (uuid sessionId).
  - rewrite !andb_false_r. cbn [andb]. reflexivity.
Qed.

(** ** The procedure *)

Lemma mutation_with_payload base64 input startTime endTime e payload :
  nth_error (split "," (ml_schema.imageData input)) 1 = Some payload ->
  exists r,
    inferDigit (base64 payload) startTime endTime e = (Ok r, after_draws 13 e)
    /\ mlRouter.mutation base64 input startTime endTime e
       = (mlRouter.Returned r, after_draws 13 e).
Proof.
  intros Hsplit. eexists. split; [apply inferDigit_run |].
  unfold mlRouter.mutation. rewrite Hsplit.
  cbn [mlRouter.Buffer_from]. unfold bind at 1, ret at 1.
  rewrite (bind_ok _ _ _ _ _ (inferDigit_run _ _ _ _)).
  reflexivity.
Qed.

(** The image data of a parsed input matches the pattern of the schema. *)
Lemma parsed_matches uuid rawInput input :
  ml_schema.PredictInputSchema uuid rawInput = Some input ->
  RegExp.test ml_schema.STRICT_BASE64_DATA_URL_REGEX
    (ml_schema.imageData input) = true.
Proof.
  unfold ml_schema.PredictInputSchema.
  destruct rawInput as [[| | | | | properties] |]; try discriminate.
  destruct (z.string _ (get "imageData" properties)) as [image |] eqn:Himage;
    [| discriminate].
  destruct (z.string [uuid] _) as [session |]; [| discriminate].
  destruct (z.strict _ properties); [| discriminate].
  intros [= <-]. cbn [ml_schema.imageData].
  apply string_parsed in Himage as [_ Hchecks].
  cbn [forallb] in Hchecks.
  apply andb_prop in Hchecks as [_ Hchecks].
  now apply andb_prop in Hchecks as [Hregex _].
Qed.

Lemma predict_parsed uuid base64 rawInput input startTime endTime e :
  ml_schema.PredictInputSchema uuid rawInput = Some input ->
  exists payload r,
    ml_schema.imageData input = (ml_schema.DATA_URL_PREFIX ++ payload)%string
    /\ inferDigit (base64 payload) startTime endTime e
       = (Ok r, after_draws 13 e)
    /\ mlRouter.predict uuid base64 rawInput startTime endTime e
       = (mlRouter.Returned r, after_draws 13 e).
Proof.
  intros Hparse.
  destruct (matched_data_url _ (parsed_matches _ _ _ Hparse))
    as (payload & E & Hfree & _).
  destruct (mutation_with_payload base64 input startTime endTime e payload)
    as (r & Hinfer & Hmutation).
  { rewrite E. now apply split_data_url. }
  exists payload, r. split; [exact E |]. split; [exact Hinfer |].
  unfold mlRouter.predict. now rewrite Hparse.
Qed.

Lemma predict_unparsed uuid base64 rawInput startTime endTime e :
  ml_schema.PredictInputSchema uuid rawInput = None ->
  mlRouter.predict uuid base64 rawInput startTime endTime e
  = (mlRouter.Refused, e).
Proof. intros Hparse. unfold mlRouter.predict. now rewrite Hparse. Qed.

(** X22: the request of the web client reaches the inference exactly when
    the schema of the procedure accepts it: the image data passes the
    client's [validateInput], it has fewer than 60022 characters (a payload
    of fewer than 60000 behind the prefix of 22), and the session
    identifier passes zod's UUID check. The procedure then decodes the
    whole payload behind the prefix and returns what [inferDigit] returns
    for the decoded bytes. Any other request is refused before the mutation
    runs, image data that [validateInput] accepts included, and no
    randomness is read. *)
Theorem client_request_reaches_the_inference
    uuid base64 imageData sessionId startTime endTime e :
  (success (validateInput imageData) = true ->
   (N.of_nat (String.length imageData) < 60022)%N ->
   uuid sessionId = true ->
   exists payload r,
     imageData = ("data:image/png;base64," ++ payload)%string
     /\ outcome (inferDigit (base64 payload) startTime endTime) e = Ok r
     /\ fst (mlRouter.predict uuid base64 (request imageData sessionId)
               startTime endTime e)
        = mlRouter.Returned r)
  /\ (success (validateInput imageData) = false
      \/ (60022 <= N.of_nat (String.length imageData))%N
      \/ uuid sessionId = false ->
      mlRouter.predict uuid base64 (request imageData sessionId)
        startTime endTime e
      = (mlRouter.Refused, e)).
Proof.
  pose proof (schema_on_request uuid imageData sessionId) as Hschema.
  split.
  - intros Hok Hlen Huuid.
    apply N.ltb_lt in Hlen. rewrite Hok, Hlen, Huuid in Hschema.
    cbn [andb] in Hschema.
    destruct (predict_parsed uuid base64 _ _ startTime endTime e Hschema)
      as (payload & r & E & Hinfer & Hpredict).
    exists payload, r. split; [exact E |].
    unfold outcome. now rewrite Hinfer, Hpredict.
  - intros Hbad. apply predict_unparsed. rewrite Hschema.
    destruct Hbad as [Hok | [Hlen | Huuid]].
    + now rewrite Hok.
    + apply N.ltb_ge in Hlen. rewrite Hlen. now rewrite andb_false_r.
    + rewrite Huuid. now rewrite andb_false_r.
Qed.

Lemma client_request_reaches_the_inference_witness :
  let imageData := "data:image/png;base64,iVBORw0KGgo="%string in
  let sessionId := "88888888-8888-4888-8888-888888888888"%string in
  (success (validateInput imageData) = true
   /\ (N.of_nat (String.length imageData) < 60022)%N
   /\ uuid_v4 sessionId = true)
  /\ (exists payload r,
        imageData = ("data:image/png;base64," ++ payload)%string
        /\ outcome (inferDigit [] 1000 1035) quiet = Ok r
        /\ fst (mlRouter.predict uuid_v4 (fun _ => [])
                  (request imageData sessionId) 1000 1035 quiet)
           = mlRouter.Returned r)
  /\ mlRouter.predict uuid_v4 (fun _ => []) (request imageData "anonymous")
       1000 1035 quiet
     = (mlRouter.Refused, quiet).
Proof.
  intros imageData sessionId.
  assert (H1 : success (validateInput imageData) = true) by reflexivity.
  assert (H2 : (N.of_nat (String.length imageData) < 60022)%N)
    by reflexivity.
  assert (H3 : uuid_v4 sessionId = true) by reflexivity.
  assert (H4 : uuid_v4 "anonymous" = false) by reflexivity.
  split; [exact (conj H1 (conj H2 H3)) |].
  split.
  - exact (proj1 (client_request_reaches_the_inference uuid_v4 (fun _ => [])
                    imageData sessionId 1000 1035 quiet) H1 H2 H3).
  - exact (proj2 (client_request_reaches_the_inference uuid_v4 (fun _ => [])
                    imageData "anonymous" 1000 1035 quiet)
             (or_intror (or_intror H4))).
Defined.

(** X23: behind the schema the mutation cannot fail. Whatever the procedure
    receives, it either refuses the input, without reading any randomness,
    or returns the inference for the payload behind the data-URL prefix
    after the 13 draws of [inferDigit]; the [TRPCError] with the message
    "Failed to process image data" is never thrown. Image data without a
    comma, for which the mutation would have nothing to decode, is refused
    by the schema. *)
Theorem mutation_never_fails_behind_the_schema
    uuid base64 rawInput startTime endTime e :
  (forall err,
     fst (mlRouter.predict uuid base64 rawInput startTime endTime e)
     <> mlRouter.Rejected err)
  /\ (mlRouter.predict uuid base64 rawInput startTime endTime e
      = (mlRouter.Refused, e)
      \/ exists input payload r,
           ml_schema.PredictInputSchema uuid rawInput = Some input
           /\ ml_schema.imageData input
              = ("data:image/png;base64," ++ payload)%string
           /\ inferDigit (base64 payload) startTime endTime e
              = (Ok r, after_draws 13 e)
           /\ mlRouter.predict uuid base64 rawInput startTime endTime e
              = (mlRouter.Returned r, after_draws 13 e))
  /\ (forall properties data,
        rawInput = Some (JObject properties) ->
        get "imageData" properties = Some (JString data) ->
        comma_free data = true ->
        mlRouter.predict uuid base64 rawInput startTime endTime e
        = (mlRouter.Refused, e)).
Proof.
  assert (Hcases :
    mlRouter.predict uuid base64 rawInput startTime endTime e
    = (mlRouter.Refused, e)
    \/ exists input payload r,
         ml_schema.PredictInputSchema uuid rawInput = Some input
         /\ ml_schema.imageData input
            = ("data:image/png;base64," ++ payload)%string
         /\ inferDigit (base64 payload) startTime endTime e
            = (Ok r, after_draws 13 e)
         /\ mlRouter.predict uuid base64 rawInput startTime endTime e
            = (mlRouter.Returned r, after_draws 13 e)).
  { destruct (ml_schema.PredictInputSchema uuid rawInput) as [input |]
      eqn:Hparse.
    - right.
      destruct (predict_parsed uuid base64 _ _ startTime endTime e Hparse)
        as (payload & r & E & Hinfer & Hpredict).
      now exists input, payload, r.
    - left. now apply predict_unparsed. }
  split; [| split; [exact Hcases |]].
  - intros err.
    destruct Hcases as [-> | (_ & _ & r & _ & _ & _ & ->)]; discriminate.
  - intros properties data -> Hget Hfree.
    destruct Hcases as [H | (input & payload & _ & Hparse & E & _)];
      [exact H | exfalso].
    pose proof Hparse as Hinput.
    unfold ml_schema.PredictInputSchema in Hinput. rewrite Hget in Hinput.
    destruct (z.string _ (Some (JString data))) as [image |] eqn:Himage;
      [| discriminate].
    destruct (z.string [uuid] _) as [session |]; [| discriminate].
    destruct (z.strict _ properties); [| discriminate].
    injection Hinput as <-. cbn [ml_schema.imageData] in E.
    apply string_parsed in Himage as [[= ->] _].
    rewrite E in Hfree. discriminate Hfree.
Qed.

Lemma mutation_never_fails_behind_the_schema_witness :
  let rawInput :=
    Some (JObject [("imageData"%string, JString "iVBORw0KGgo=");
                   ("sessionId"%string,
                    JString "88888888-8888-4888-8888-888888888888")]) in
  comma_free "iVBORw0KGgo=" = true
  /\ mlRouter.predict uuid_v4 (fun _ => []) rawInput 1000 1035 quiet
     = (mlRouter.Refused, quiet).
Proof.
  intros rawInput.
  assert (H : comma_free "iVBORw0KGgo=" = true) by reflexivity.
  split; [exact H |].
  exact (proj2 (proj2 (mutation_never_fails_behind_the_schema uuid_v4
                         (fun _ => []) rawInput 1000 1035 quiet))
           _ _ eq_refl eq_refl H).
Defined.
